(** * Shared / weak pointers: control blocks, SharedPtr, WeakPtr

    A shallow embedding of the reference-counting core of the repository
    (control blocks with a strong and a weak counter, the owning handle
    [SharedPtr], the observing handle [WeakPtr]) and the properties of it
    that the specification states.

    Conventions.
    - [size_t] is a 64-bit unsigned integer: a [Z] in [0, 2^64) whose
      increments and decrements wrap around.
    - A [ControlBlock*] is an [option loc]; [None] is [nullptr].  Control
      blocks live in a heap [gmap loc ControlBlock]; [new] takes the next
      unused location, [delete this] removes the block from the heap, and a
      virtual call through a pointer whose block is not in the heap is
      undefined behaviour ([Undefined]).
    - A [void*] / [T*] is an [option addr]; [None] is [nullptr].
    - Destructions and deallocations are recorded in a log, in order. *)

From Stdlib Require Import ZArith List Bool Lia.
From stdpp Require Import base option list gmap.

Local Open Scope Z_scope.

(** ** Machine integers and addresses *)

Definition SIZE_MAX : Z := 2 ^ 64 - 1.

(** [++x] on a [size_t]. *)
Definition pre_incr (x : Z) : Z := (x + 1) mod 2 ^ 64.

(** [--x] on a [size_t]. *)
Definition pre_decr (x : Z) : Z := (x - 1) mod 2 ^ 64.

(** Location of a control block on the heap. *)
Abbreviation loc := nat.

(** Address of a payload: either an object allocated by the caller, or the
    storage [obj_] embedded in the combined control block at a location. *)
Inductive addr : Type :=
| Ext (a : nat)
| Emb (c : loc).

(** A possibly null object pointer. *)
Definition ptr : Type := option addr.

Definition nullptr : ptr := None.

(** What a control-block method does besides updating its counters. *)
Inductive effect : Type :=
| DeletePayload (p : ptr)   (* [delete ptr_]                         *)
| DestroyInPlace            (* [reinterpret_cast<T*>(&obj_)->~T()]   *)
| DeleteThis.               (* [delete this]                         *)

Definition is_payload_release (e : effect) : bool :=
  match e with
  | DeletePayload _ | DestroyInPlace => true
  | DeleteThis => false
  end.

Definition is_delete_this (e : effect) : bool :=
  match e with
  | DeleteThis => true
  | _ => false
  end.

(** Number of payload destructions / block deallocations among effects. *)
Definition payload_releases (es : list effect) : nat :=
  length (filter (fun e => is_payload_release e = true) es).

Definition block_frees (es : list effect) : nat :=
  length (filter (fun e => is_delete_this e = true) es).

(** ** Control blocks *)

(** [ControlBlockPointer<T>]: the payload is allocated by the caller. *)
Module ControlBlockPointer.

Record t : Type := mk {
  shared_cnt_ : Z;
  weak_cnt_ : Z;
  ptr_ : ptr
}.

Definition ctor (p : ptr) : t :=
  {| shared_cnt_ := 1; weak_cnt_ := 0; ptr_ := p |}.

Definition IncreaseSharedCounter (b : t) : t * list effect :=
  ({| shared_cnt_ := pre_incr (shared_cnt_ b);
      weak_cnt_ := weak_cnt_ b;
      ptr_ := ptr_ b |}, []).

Definition DecreaseSharedCounter (b : t) : t * list effect :=
  let s := pre_decr (shared_cnt_ b) in
  let b' := {| shared_cnt_ := s; weak_cnt_ := weak_cnt_ b; ptr_ := ptr_ b |} in
  let e1 := if s =? 0 then [DeletePayload (ptr_ b)] else [] in
  let e2 := if (weak_cnt_ b =? 0) && (s =? 0) then [DeleteThis] else [] in
  (b', e1 ++ e2).

Definition IncreaseWeakCounter (b : t) : t * list effect :=
  ({| shared_cnt_ := shared_cnt_ b;
      weak_cnt_ := pre_incr (weak_cnt_ b);
      ptr_ := ptr_ b |}, []).

Definition DecreaseWeakCounter (b : t) : t * list effect :=
  let w := pre_decr (weak_cnt_ b) in
  let b' := {| shared_cnt_ := shared_cnt_ b; weak_cnt_ := w; ptr_ := ptr_ b |} in
  (b', if (w =? 0) && (shared_cnt_ b =? 0) then [DeleteThis] else []).

Definition GetPointer (b : t) : ptr := ptr_ b.

Definition GetSharedCounter (b : t) : Z := shared_cnt_ b.

End ControlBlockPointer.

(** [ControlBlockObject<T>]: the payload lives in the block's own storage
    [obj_], constructed by the block's constructor. *)
Module ControlBlockObject.

Record t : Type := mk {
  shared_cnt_ : Z;
  weak_cnt_ : Z
}.

Definition ctor : t := {| shared_cnt_ := 1; weak_cnt_ := 0 |}.

Definition IncreaseSharedCounter (b : t) : t * list effect :=
  ({| shared_cnt_ := pre_incr (shared_cnt_ b); weak_cnt_ := weak_cnt_ b |}, []).

Definition DecreaseSharedCounter (b : t) : t * list effect :=
  let s := pre_decr (shared_cnt_ b) in
  let b' := {| shared_cnt_ := s; weak_cnt_ := weak_cnt_ b |} in
  let e1 := if s =? 0 then [DestroyInPlace] else [] in
  let e2 := if (weak_cnt_ b =? 0) && (s =? 0) then [DeleteThis] else [] in
  (b', e1 ++ e2).

Definition IncreaseWeakCounter (b : t) : t * list effect :=
  ({| shared_cnt_ := shared_cnt_ b; weak_cnt_ := pre_incr (weak_cnt_ b) |}, []).

Definition DecreaseWeakCounter (b : t) : t * list effect :=
  let w := pre_decr (weak_cnt_ b) in
  let b' := {| shared_cnt_ := shared_cnt_ b; weak_cnt_ := w |} in
  (b', if (w =? 0) && (shared_cnt_ b =? 0) then [DeleteThis] else []).

(** [&obj_], for the block at location [this]. *)
Definition GetPointer (this : loc) (b : t) : ptr := Some (Emb this).

Definition GetSharedCounter (b : t) : Z := shared_cnt_ b.

End ControlBlockObject.

(** The abstract class [ControlBlock] with its two implementations; the
    functions below are the virtual calls. *)
Inductive ControlBlock : Type :=
| Separate (b : ControlBlockPointer.t)
| Combined (b : ControlBlockObject.t).

Definition IncreaseSharedCounter (b : ControlBlock) : ControlBlock * list effect :=
  match b with
  | Separate p => let '(p', es) := ControlBlockPointer.IncreaseSharedCounter p in (Separate p', es)
  | Combined o => let '(o', es) := ControlBlockObject.IncreaseSharedCounter o in (Combined o', es)
  end.

Definition DecreaseSharedCounter (b : ControlBlock) : ControlBlock * list effect :=
  match b with
  | Separate p => let '(p', es) := ControlBlockPointer.DecreaseSharedCounter p in (Separate p', es)
  | Combined o => let '(o', es) := ControlBlockObject.DecreaseSharedCounter o in (Combined o', es)
  end.

Definition IncreaseWeakCounter (b : ControlBlock) : ControlBlock * list effect :=
  match b with
  | Separate p => let '(p', es) := ControlBlockPointer.IncreaseWeakCounter p in (Separate p', es)
  | Combined o => let '(o', es) := ControlBlockObject.IncreaseWeakCounter o in (Combined o', es)
  end.

Definition DecreaseWeakCounter (b : ControlBlock) : ControlBlock * list effect :=
  match b with
  | Separate p => let '(p', es) := ControlBlockPointer.DecreaseWeakCounter p in (Separate p', es)
  | Combined o => let '(o', es) := ControlBlockObject.DecreaseWeakCounter o in (Combined o', es)
  end.

Definition GetPointer (this : loc) (b : ControlBlock) : ptr :=
  match b with
  | Separate p => ControlBlockPointer.GetPointer p
  | Combined o => ControlBlockObject.GetPointer this o
  end.

Definition GetSharedCounter (b : ControlBlock) : Z :=
  match b with
  | Separate p => ControlBlockPointer.GetSharedCounter p
  | Combined o => ControlBlockObject.GetSharedCounter o
  end.

(** The weak counter has no accessor in the source; this one is used in
    statements only. *)
Definition weak_counter (b : ControlBlock) : Z :=
  match b with
  | Separate p => ControlBlockPointer.weak_cnt_ p
  | Combined o => ControlBlockObject.weak_cnt_ o
  end.

(** ** One control block under a sequence of counter operations *)

Inductive cb_op : Type := IncShared | DecShared | IncWeak | DecWeak.

#[global] Instance cb_op_eq_dec : EqDecision cb_op.
Proof. solve_decision. Defined.

Definition cb_call (op : cb_op) : ControlBlock -> ControlBlock * list effect :=
  match op with
  | IncShared => IncreaseSharedCounter
  | DecShared => DecreaseSharedCounter
  | IncWeak => IncreaseWeakCounter
  | DecWeak => DecreaseWeakCounter
  end.

(** A block is either still allocated or has run [delete this]. *)
Inductive life : Type :=
| Live (b : ControlBlock)
| Freed.

(** Runs the calls in order and collects their effects.  A call on a block
    that has been deallocated is undefined: [None]. *)
Fixpoint cb_run (ops : list cb_op) (l : life) (seen : list effect)
  : option (life * list effect) :=
  match ops with
  | [] => Some (l, seen)
  | op :: rest =>
      match l with
      | Freed => None
      | Live b =>
          let '(b', es) := cb_call op b in
          cb_run rest
            (if existsb is_delete_this es then Freed else Live b')
            (seen ++ es)
      end
  end.

(** What the handles guarantee before each call: a strong reference is
    added only while one exists and removed only by a holder, a weak
    reference is removed only by a holder, and no counter is at its
    maximum when incremented. *)
Definition cb_guard (op : cb_op) (b : ControlBlock) : bool :=
  match op with
  | IncShared => (0 <? GetSharedCounter b) && (GetSharedCounter b <? SIZE_MAX)
  | DecShared => 0 <? GetSharedCounter b
  | IncWeak => weak_counter b <? SIZE_MAX
  | DecWeak => 0 <? weak_counter b
  end.

Fixpoint cb_guarded (ops : list cb_op) (l : life) : bool :=
  match ops with
  | [] => true
  | op :: rest =>
      match l with
      | Freed => false
      | Live b =>
          cb_guard op b &&
          let '(b', es) := cb_call op b in
          cb_guarded rest (if existsb is_delete_this es then Freed else Live b')
      end
  end.

(** A freshly constructed block of either kind. *)
Definition is_fresh (b : ControlBlock) : Prop :=
  GetSharedCounter b = 1 /\ weak_counter b = 0.

(** ** The heap of control blocks and the effects of a call *)

Record State : Type := mkState {
  heap : gmap loc ControlBlock;   (* the allocated control blocks      *)
  next : loc;                     (* the location [new] returns next   *)
  log : list (loc * effect)       (* what happened so far, oldest first *)
}.

Inductive exn : Type := BadWeakPtr.

Inductive outcome (A : Type) : Type :=
| Ok (a : A) (s : State)        (* normal return                        *)
| Throw (e : exn) (s : State)   (* an exception leaves, in state [s]    *)
| Undefined.                    (* a deallocated block was dereferenced *)

Arguments Ok {A} a s.
Arguments Throw {A} e s.
Arguments Undefined {A}.

Definition M (A : Type) : Type := State -> outcome A.

Definition ret {A : Type} (a : A) : M A := fun s => Ok a s.

Definition bind {A B : Type} (m : M A) (k : A -> M B) : M B :=
  fun s =>
    match m s with
    | Ok a s' => k a s'
    | Throw e s' => Throw e s'
    | Undefined => Undefined
    end.

Definition throw {A : Type} (e : exn) : M A := fun s => Throw e s.

Notation "'let*' x ':=' m 'in' k" := (bind m (fun x => k))
  (at level 10, x name, m at level 100, k at level 200).
Notation "'do' m 'then' k" := (bind m (fun _ => k))
  (at level 10, m at level 100, k at level 200).

(** [new B(...)]: the block is placed at the next unused location. *)
Definition new_block (b : ControlBlock) : M loc :=
  fun s =>
    Ok (next s)
       {| heap := <[next s := b]> (heap s);
          next := S (next s);
          log := log s |}.

(** [c->m()] for a mutating virtual method [m]. *)
Definition call (c : loc) (m : ControlBlock -> ControlBlock * list effect) : M unit :=
  fun s =>
    match heap s !! c with
    | None => Undefined
    | Some b =>
        let '(b', es) := m b in
        Ok tt
           {| heap := if existsb is_delete_this es
                      then delete c (heap s)
                      else <[c := b']> (heap s);
              next := next s;
              log := log s ++ map (pair c) es |}
    end.

(** [c->f()] for a method [f] that only reads. *)
Definition read {A : Type} (c : loc) (f : ControlBlock -> A) : M A :=
  fun s =>
    match heap s !! c with
    | None => Undefined
    | Some b => Ok (f b) s
    end.

Definition is_null (p : ptr) : bool :=
  match p with
  | None => true
  | Some _ => false
  end.

(** ** SharedPtr *)

Module SharedPtr.

Record t : Type := mk {
  cb_ : option loc;
  observed_ : ptr
}.

Definition IncreaseCBCounter (this : t) : M unit :=
  match cb_ this with
  | Some c => call c IncreaseSharedCounter
  | None => ret tt
  end.

Definition DecreaseCBCounter (this : t) : M unit :=
  match cb_ this with
  | Some c => call c DecreaseSharedCounter
  | None => ret tt
  end.

Definition GetCBCounter (this : t) : M Z :=
  match cb_ this with
  | Some c => read c GetSharedCounter
  | None => ret 0
  end.

(** [SharedPtr()] and [SharedPtr(std::nullptr_t)]. *)
Definition ctor_default : t := {| cb_ := None; observed_ := nullptr |}.

Definition ctor_nullptr : t := {| cb_ := None; observed_ := nullptr |}.

(** [explicit SharedPtr(T* ptr)]. *)
Definition ctor_ptr (p : ptr) : M t :=
  let* c := new_block (Separate (ControlBlockPointer.ctor p)) in
  ret {| cb_ := Some c; observed_ := p |}.

(** [SharedPtr(const SharedPtr& other)]. *)
Definition ctor_copy (other : t) : M t :=
  let this := {| cb_ := cb_ other; observed_ := observed_ other |} in
  do IncreaseCBCounter this then
  ret this.

(** [SharedPtr(SharedPtr&& other)]: the new handle and what is left of
    [other]. *)
Definition ctor_move (other : t) : t * t :=
  ({| cb_ := cb_ other; observed_ := observed_ other |},
   {| cb_ := None; observed_ := nullptr |}).

(** Aliasing constructor [SharedPtr(const SharedPtr<Y>& other, T* ptr)]. *)
Definition ctor_alias (other : t) (p : ptr) : M t :=
  let this := {| cb_ := cb_ other; observed_ := p |} in
  do IncreaseCBCounter this then
  ret this.

(** [operator=(const SharedPtr& other)]; [this_at] and [other_at] are the
    addresses of the two handle objects. *)
Definition operator_assign (this_at other_at : nat) (this other : t) : M t :=
  if Nat.eqb this_at other_at then ret this
  else
    do DecreaseCBCounter this then
    let this' := {| cb_ := cb_ other; observed_ := observed_ other |} in
    do IncreaseCBCounter this' then
    ret this'.

(** [operator=(SharedPtr&& other)]: the updated [*this] and [other]. *)
Definition operator_assign_move (this_at other_at : nat) (this other : t)
  : M (t * t) :=
  if Nat.eqb this_at other_at then ret (this, other)
  else
    do DecreaseCBCounter this then
    ret ({| cb_ := cb_ other; observed_ := observed_ other |},
         {| cb_ := None; observed_ := nullptr |}).

(** [~SharedPtr()]. *)
Definition dtor (this : t) : M unit := DecreaseCBCounter this.

(** [void Reset()]. *)
Definition Reset (this : t) : M t :=
  do DecreaseCBCounter this then
  ret {| cb_ := None; observed_ := nullptr |}.

(** [void Reset(T* ptr)]. *)
Definition Reset_ptr (this : t) (p : ptr) : M t :=
  do DecreaseCBCounter this then
  let* c := new_block (Separate (ControlBlockPointer.ctor p)) in
  ret {| cb_ := Some c; observed_ := p |}.

(** [void Swap(SharedPtr& other)]: the updated [*this] and [other]. *)
Definition Swap (this other : t) : t * t :=
  ({| cb_ := cb_ other; observed_ := observed_ other |},
   {| cb_ := cb_ this; observed_ := observed_ this |}).

Definition Get (this : t) : ptr := observed_ this.

Definition UseCount (this : t) : M Z := GetCBCounter this.

Definition operator_bool (this : t) : bool := negb (is_null (observed_ this)).

(** [operator==]: equality of the observed addresses. *)
Definition equal (left right : t) : bool :=
  match Get left, Get right with
  | None, None => true
  | Some (Ext a), Some (Ext b) => Nat.eqb a b
  | Some (Emb a), Some (Emb b) => Nat.eqb a b
  | _, _ => false
  end.

(** [MakeShared<W>(args...)]. *)
Definition MakeShared : M t :=
  let* c := new_block (Combined ControlBlockObject.ctor) in
  let* p := read c (GetPointer c) in
  ret {| cb_ := Some c; observed_ := p |}.

End SharedPtr.

(** ** WeakPtr *)

Module WeakPtr.

Record t : Type := mk {
  cb_ : option loc;
  observed_ : ptr
}.

Definition IncreaseCBCounter (this : t) : M unit :=
  match cb_ this with
  | Some c => call c IncreaseWeakCounter
  | None => ret tt
  end.

Definition DecreaseCBCounter (this : t) : M unit :=
  match cb_ this with
  | Some c => call c DecreaseWeakCounter
  | None => ret tt
  end.

Definition GetCBCounter (this : t) : M Z :=
  match cb_ this with
  | Some c => read c GetSharedCounter
  | None => ret 0
  end.

(** [WeakPtr()]. *)
Definition ctor_default : t := {| cb_ := None; observed_ := nullptr |}.

(** [WeakPtr(const WeakPtr& other)]. *)
Definition ctor_copy (other : t) : M t :=
  let this := {| cb_ := cb_ other; observed_ := observed_ other |} in
  do IncreaseCBCounter this then
  ret this.

(** [WeakPtr(WeakPtr&& other)]: the new handle and what is left of
    [other]. *)
Definition ctor_move (other : t) : t * t :=
  ({| cb_ := cb_ other; observed_ := observed_ other |},
   {| cb_ := None; observed_ := nullptr |}).

(** Demotion [WeakPtr(const SharedPtr<T>& other)]. *)
Definition ctor_shared (other : SharedPtr.t) : M t :=
  let this := {| cb_ := SharedPtr.cb_ other;
                 observed_ := SharedPtr.observed_ other |} in
  if SharedPtr.operator_bool other
  then do IncreaseCBCounter this then ret this
  else ret this.

(** [operator=(const WeakPtr& other)]. *)
Definition operator_assign (this_at other_at : nat) (this other : t) : M t :=
  if Nat.eqb this_at other_at then ret this
  else
    do DecreaseCBCounter this then
    let this' := {| cb_ := cb_ other; observed_ := observed_ other |} in
    do IncreaseCBCounter this' then
    ret this'.

(** [operator=(WeakPtr&& other)]: the updated [*this] and [other]. *)
Definition operator_assign_move (this_at other_at : nat) (this other : t)
  : M (t * t) :=
  if Nat.eqb this_at other_at then ret (this, other)
  else
    do DecreaseCBCounter this then
    ret ({| cb_ := cb_ other; observed_ := observed_ other |},
         {| cb_ := None; observed_ := nullptr |}).

(** [operator=(const SharedPtr<T>& other)]. *)
Definition operator_assign_shared (this : t) (other : SharedPtr.t) : M t :=
  if decide (cb_ this = SharedPtr.cb_ other) then ret this
  else
    do DecreaseCBCounter this then
    let this' := {| cb_ := SharedPtr.cb_ other;
                    observed_ := SharedPtr.observed_ other |} in
    do IncreaseCBCounter this' then
    ret this'.

(** [~WeakPtr()]. *)
Definition dtor (this : t) : M unit := DecreaseCBCounter this.

(** [void Reset()]. *)
Definition Reset (this : t) : M t :=
  do DecreaseCBCounter this then
  ret {| cb_ := None; observed_ := nullptr |}.

(** [void Swap(WeakPtr& other)]: the updated [*this] and [other]. *)
Definition Swap (this other : t) : t * t :=
  ({| cb_ := cb_ other; observed_ := observed_ other |},
   {| cb_ := cb_ this; observed_ := observed_ this |}).

Definition UseCount (this : t) : M Z := GetCBCounter this.

(** [bool Expired() const { return !GetCBCounter(); }]. *)
Definition Expired (this : t) : M bool :=
  let* n := GetCBCounter this in
  ret (n =? 0).

(** [SharedPtr<T> Lock() const]. *)
Definition Lock (this : t) : M SharedPtr.t :=
  let res := SharedPtr.ctor_default in
  let* e := Expired this in
  if e then ret res
  else
    let res := {| SharedPtr.cb_ := cb_ this;
                  SharedPtr.observed_ := observed_ this |} in
    do SharedPtr.IncreaseCBCounter res then
    ret res.

End WeakPtr.

(** Promotion [explicit SharedPtr(const WeakPtr<T>& other)], a constructor
    of [SharedPtr]; it stands here because it needs [WeakPtr], which the
    source forward-declares. *)
Definition SharedPtr_ctor_weak (other : WeakPtr.t) : M SharedPtr.t :=
  let* e := WeakPtr.Expired other in
  if e then throw BadWeakPtr
  else
    let this := {| SharedPtr.cb_ := WeakPtr.cb_ other;
                   SharedPtr.observed_ := WeakPtr.observed_ other |} in
    do SharedPtr.IncreaseCBCounter this then
    ret this.

(** ** The shared-from-this capability *)

Module EnableSharedFromThis.

(** Modelled from the spec: the source only declares the class
    [EnableSharedFromThis] with the members [SharedFromThis] and
    [WeakFromThis]; their definitions, the back-reference member and the
    code that fills it are missing.  The back-reference is "a weak
    (non-owning) link from a payload instance to its own governing
    control block". *)
Record t : Type := mk {
  weak_this_ : WeakPtr.t
}.

(** Modelled from the spec: an instance that "was never wrapped in a
    SharedPtr" has no back-reference. *)
Definition ctor : t := {| weak_this_ := WeakPtr.ctor_default |}.

(** Modelled from the spec: adoption of the instance at address [a], the
    back-reference being "populated at the moment the instance first comes
    under shared ownership".  The handle is built by the source's
    constructor from a raw address, the back-reference by the source's
    demotion. *)
Definition adopt (a : nat) : M (SharedPtr.t * t) :=
  let* s := SharedPtr.ctor_ptr (Some (Ext a)) in
  let* w := WeakPtr.ctor_shared s in
  ret (s, {| weak_this_ := w |}).

(** Modelled from the spec: combined allocation of an instance, with the
    back-reference populated in the same way. *)
Definition make_shared : M (SharedPtr.t * t) :=
  let* s := SharedPtr.MakeShared in
  let* w := WeakPtr.ctor_shared s in
  ret (s, {| weak_this_ := w |}).

(** Modelled from the spec: "returns a new pointer sharing the existing
    block", here by the source's promotion of the back-reference. *)
Definition SharedFromThis (this : t) : M SharedPtr.t :=
  SharedPtr_ctor_weak (weak_this_ this).

(** Modelled from the spec: the weak counterpart, a copy of the
    back-reference. *)
Definition WeakFromThis (this : t) : M WeakPtr.t :=
  WeakPtr.ctor_copy (weak_this_ this).

End EnableSharedFromThis.

(** ** Programs over SharedPtr variables *)

(** A program has numbered [SharedPtr] variables; a variable is either out
    of its lifetime ([None]) or holds a handle.  The number of a variable
    stands for the address of the handle object. *)
Inductive sp_op : Type :=
| NewDefault (x : nat)               (* SharedPtr<T> x;                *)
| NewFromPtr (x : nat) (p : ptr)     (* SharedPtr<T> x(p);             *)
| NewMakeShared (x : nat)            (* auto x = MakeShared<T>(...);   *)
| NewCopy (x y : nat)                (* SharedPtr<T> x(y);             *)
| NewMove (x y : nat)                (* SharedPtr<T> x(std::move(y));  *)
| Assign (x y : nat)                 (* x = y;                         *)
| AssignMove (x y : nat)             (* x = std::move(y);              *)
| DoReset (x : nat)                  (* x.Reset();                     *)
| DoResetPtr (x : nat) (p : ptr)     (* x.Reset(p);                    *)
| Destroy (x : nat).                 (* x.~SharedPtr()                 *)

Abbreviation frame := (list (option SharedPtr.t)).

(** The handle of a variable within its lifetime. *)
Definition live (vars : frame) (x : nat) : option SharedPtr.t :=
  match vars !! x with
  | Some (Some h) => Some h
  | _ => None
  end.

(** The variable exists and is outside its lifetime. *)
Definition dead (vars : frame) (x : nat) : bool :=
  match vars !! x with
  | Some None => true
  | _ => false
  end.

(** One operation; [None] when it uses a variable outside its lifetime or
    constructs one that is already alive. *)
Definition sp_step (op : sp_op) (vars : frame) : option (M frame) :=
  match op with
  | NewDefault x =>
      if dead vars x
      then Some (ret (<[x := Some SharedPtr.ctor_default]> vars))
      else None
  | NewFromPtr x p =>
      if dead vars x
      then Some (let* h := SharedPtr.ctor_ptr p in ret (<[x := Some h]> vars))
      else None
  | NewMakeShared x =>
      if dead vars x
      then Some (let* h := SharedPtr.MakeShared in ret (<[x := Some h]> vars))
      else None
  | NewCopy x y =>
      match dead vars x, live vars y with
      | true, Some hy =>
          Some (let* h := SharedPtr.ctor_copy hy in ret (<[x := Some h]> vars))
      | _, _ => None
      end
  | NewMove x y =>
      match dead vars x, live vars y with
      | true, Some hy =>
          let '(h, hy') := SharedPtr.ctor_move hy in
          Some (ret (<[y := Some hy']> (<[x := Some h]> vars)))
      | _, _ => None
      end
  | Assign x y =>
      match live vars x, live vars y with
      | Some hx, Some hy =>
          Some (let* h := SharedPtr.operator_assign x y hx hy in
                ret (<[x := Some h]> vars))
      | _, _ => None
      end
  | AssignMove x y =>
      match live vars x, live vars y with
      | Some hx, Some hy =>
          Some (let* r := SharedPtr.operator_assign_move x y hx hy in
                ret (<[y := Some (snd r)]> (<[x := Some (fst r)]> vars)))
      | _, _ => None
      end
  | DoReset x =>
      match live vars x with
      | Some hx => Some (let* h := SharedPtr.Reset hx in ret (<[x := Some h]> vars))
      | None => None
      end
  | DoResetPtr x p =>
      match live vars x with
      | Some hx =>
          Some (let* h := SharedPtr.Reset_ptr hx p in ret (<[x := Some h]> vars))
      | None => None
      end
  | Destroy x =>
      match live vars x with
      | Some hx => Some (do SharedPtr.dtor hx then ret (<[x := None]> vars))
      | None => None
      end
  end.

Inductive result : Type :=
| Finished (vars : frame) (s : State)
| Raised (e : exn)
| Faulted              (* undefined behaviour                     *)
| IllScoped.           (* a variable was used outside its lifetime *)

Fixpoint exec (ops : list sp_op) (vars : frame) (s : State) : result :=
  match ops with
  | [] => Finished vars s
  | op :: rest =>
      match sp_step op vars with
      | None => IllScoped
      | Some m =>
          match m s with
          | Ok vars' s' => exec rest vars' s'
          | Throw e _ => Raised e
          | Undefined => Faulted
          end
      end
  end.

(** The start of a program with [n] variables: nothing allocated, no
    variable alive. *)
Definition start : State := {| heap := ∅; next := O; log := [] |}.

Definition no_vars (n : nat) : frame := replicate n None.

Definition holds (c : loc) (v : option SharedPtr.t) : bool :=
  match v with
  | Some h => bool_decide (SharedPtr.cb_ h = Some c)
  | None => false
  end.

(** Number of live handles whose control block is the one at [c]. *)
Fixpoint owners (c : loc) (vars : frame) : nat :=
  match vars with
  | [] => O
  | v :: rest => ((if holds c v then 1 else 0) + owners c rest)%nat
  end.

(** ** Predicates used in the statements *)

(** "observed is empty iff control_block is empty". *)
Definition observed_iff_block (h : SharedPtr.t) : Prop :=
  SharedPtr.observed_ h = nullptr <-> SharedPtr.cb_ h = None.

(** Strong and weak counter of the block at [c], if it is allocated. *)
Definition strong_at (s : State) (c : loc) : option Z :=
  GetSharedCounter <$> heap s !! c.

Definition weak_at (s : State) (c : loc) : option Z :=
  weak_counter <$> heap s !! c.

(** ** Invariants and auxiliary definitions *)

(** The counters of a block are [size_t] values. *)
Definition in_range (b : ControlBlock) : Prop :=
  0 <= GetSharedCounter b <= SIZE_MAX /\ 0 <= weak_counter b <= SIZE_MAX.

(** What holds of a block and the effects seen so far along every guarded
    run that starts from a fresh block. *)
Definition cb_inv (l : life) (seen : list effect) : Prop :=
  match l with
  | Live b =>
      in_range b /\
      block_frees seen = O /\
      payload_releases seen = (if GetSharedCounter b =? 0 then 1%nat else 0%nat) /\
      (GetSharedCounter b = 0 -> 0 < weak_counter b)
  | Freed => block_frees seen = 1%nat /\ payload_releases seen = 1%nat
  end.

(** A state with one separate block at location 0 holding the given
    counters, used to instantiate the statements. *)
Definition one_block (strong weak : Z) (p : ptr) : State :=
  {| heap := {[ O := Separate {| ControlBlockPointer.shared_cnt_ := strong;
                                 ControlBlockPointer.weak_cnt_ := weak;
                                 ControlBlockPointer.ptr_ := p |} ]};
     next := 1%nat;
     log := [] |}.

(** The public operations that write a [SharedPtr]. *)
Inductive sp_make : Type :=
| MkDefault
| MkNullptr
| MkAdopt (p : ptr)
| MkMakeShared
| MkCopy (other : SharedPtr.t)
| MkMove (other : SharedPtr.t)
| MkAlias (other : SharedPtr.t) (p : ptr)
| MkPromote (w : WeakPtr.t)
| MkAssign (x y : nat) (this other : SharedPtr.t)
| MkAssignMove (x y : nat) (this other : SharedPtr.t)
| MkReset (this : SharedPtr.t)
| MkResetPtr (this : SharedPtr.t) (p : ptr)
| MkSwap (this other : SharedPtr.t).

(** Every handle an operation writes: the one it constructs or updates,
    and the source it empties or exchanges. *)
Definition produce (op : sp_make) : M (list SharedPtr.t) :=
  match op with
  | MkDefault => ret [SharedPtr.ctor_default]
  | MkNullptr => ret [SharedPtr.ctor_nullptr]
  | MkAdopt p => let* h := SharedPtr.ctor_ptr p in ret [h]
  | MkMakeShared => let* h := SharedPtr.MakeShared in ret [h]
  | MkCopy other => let* h := SharedPtr.ctor_copy other in ret [h]
  | MkMove other => let '(h, o) := SharedPtr.ctor_move other in ret [h; o]
  | MkAlias other p => let* h := SharedPtr.ctor_alias other p in ret [h]
  | MkPromote w => let* h := SharedPtr_ctor_weak w in ret [h]
  | MkAssign x y this other =>
      let* h := SharedPtr.operator_assign x y this other in ret [h]
  | MkAssignMove x y this other =>
      let* r := SharedPtr.operator_assign_move x y this other in
      ret [fst r; snd r]
  | MkReset this => let* h := SharedPtr.Reset this in ret [h]
  | MkResetPtr this p => let* h := SharedPtr.Reset_ptr this p in ret [h]
  | MkSwap this other => let '(h, o) := SharedPtr.Swap this other in ret [h; o]
  end.

(** What the arguments of an operation have to satisfy for its results to
    have an observed address exactly if they have a block. *)
Definition sources_ok (op : sp_make) : Prop :=
  match op with
  | MkAdopt p | MkResetPtr _ p => p <> nullptr
  | MkCopy other | MkMove other => observed_iff_block other
  | MkAlias other p => p = nullptr <-> SharedPtr.cb_ other = None
  | MkPromote w => WeakPtr.observed_ w = nullptr <-> WeakPtr.cb_ w = None
  | MkAssign _ _ this other | MkAssignMove _ _ this other | MkSwap this other =>
      observed_iff_block this /\ observed_iff_block other
  | MkDefault | MkNullptr | MkMakeShared | MkReset _ => True
  end.

(** A variable that refers to no block: out of its lifetime, or empty. *)
Definition unowning (v : option SharedPtr.t) : Prop :=
  forall c, holds c v = false.

(** The invariant of a program with [n] variables: every allocated block
    has as many strong references as there are live handles on it, at
    least one, and no weak reference; no handle refers to a block that is
    not allocated. *)
Definition counted (n : nat) (vars : frame) (s : State) : Prop :=
  length vars = n /\
  Z.of_nat n <= SIZE_MAX /\
  (forall c, (next s <= c)%nat -> heap s !! c = None) /\
  forall c,
    match heap s !! c with
    | None => owners c vars = O
    | Some b =>
        GetSharedCounter b = Z.of_nat (owners c vars) /\
        (0 < owners c vars)%nat /\
        weak_counter b = 0
    end.

(** ** Programs over SharedPtr and WeakPtr variables *)

Abbreviation wframe := (list (option WeakPtr.t)).

(** The handle of a [WeakPtr] variable within its lifetime. *)
Definition wlive (wvars : wframe) (x : nat) : option WeakPtr.t :=
  match wvars !! x with
  | Some (Some w) => Some w
  | _ => None
  end.

Definition wdead (wvars : wframe) (x : nat) : bool :=
  match wvars !! x with
  | Some None => true
  | _ => false
  end.

(** [try { m } catch (...) { handler }]. *)
Definition try_catch {A : Type} (m : M A) (handler : exn -> M A) : M A :=
  fun s =>
    match m s with
    | Ok a s' => Ok a s'
    | Throw e s' => handler e s'
    | Undefined => Undefined
    end.

(** The operations of both classes.  [x], [y] number [SharedPtr]
    variables, [w], [v] number [WeakPtr] variables. *)
Inductive mp_op : Type :=
| OnShared (op : sp_op)              (* the operations of [sp_op]            *)
| SAlias (x y : nat) (p : ptr)       (* SharedPtr<T> x(y, p);                *)
| SSwap (x y : nat)                  (* x.Swap(y);                           *)
| SPromote (x w : nat)               (* SharedPtr<T> x(w); BadWeakPtr caught *)
| SLock (x w : nat)                  (* auto x = w.Lock();                   *)
| WDefault (w : nat)                 (* WeakPtr<T> w;                        *)
| WCopy (w v : nat)                  (* WeakPtr<T> w(v);                     *)
| WMove (w v : nat)                  (* WeakPtr<T> w(std::move(v));          *)
| WFromShared (w x : nat)            (* WeakPtr<T> w(x);                     *)
| WAssign (w v : nat)                (* w = v;                               *)
| WAssignMove (w v : nat)            (* w = std::move(v);                    *)
| WAssignShared (w x : nat)          (* w = x;                               *)
| WReset (w : nat)                   (* w.Reset();                           *)
| WSwap (w v : nat)                  (* w.Swap(v);                           *)
| WDestroy (w : nat).                (* w.~WeakPtr()                         *)

(** A [SharedPtr] that has a control block and a null observed address:
    the one input on which the demotion constructor does not register the
    new [WeakPtr]. *)
Definition block_without_address (h : SharedPtr.t) : bool :=
  match SharedPtr.cb_ h with
  | Some _ => negb (SharedPtr.operator_bool h)
  | None => false
  end.

(** One operation; [None] when it uses a variable outside its lifetime,
    constructs one that is alive, or demotes a handle that has a block and
    a null address. *)
Definition mp_step (op : mp_op) (vars : frame) (wvars : wframe)
  : option (M (frame * wframe)) :=
  match op with
  | OnShared op =>
      match sp_step op vars with
      | Some m => Some (let* vars' := m in ret (vars', wvars))
      | None => None
      end
  | SAlias x y p =>
      match dead vars x, live vars y with
      | true, Some hy =>
          Some (let* h := SharedPtr.ctor_alias hy p in
                ret (<[x := Some h]> vars, wvars))
      | _, _ => None
      end
  | SSwap x y =>
      match live vars x, live vars y with
      | Some hx, Some hy =>
          let '(hx', hy') := SharedPtr.Swap hx hy in
          Some (ret (<[y := Some hy']> (<[x := Some hx']> vars), wvars))
      | _, _ => None
      end
  | SPromote x w =>
      match dead vars x, wlive wvars w with
      | true, Some hw =>
          Some (try_catch
                  (let* h := SharedPtr_ctor_weak hw in
                   ret (<[x := Some h]> vars, wvars))
                  (fun _ => ret (vars, wvars)))
      | _, _ => None
      end
  | SLock x w =>
      match dead vars x, wlive wvars w with
      | true, Some hw =>
          Some (let* h := WeakPtr.Lock hw in ret (<[x := Some h]> vars, wvars))
      | _, _ => None
      end
  | WDefault w =>
      if wdead wvars w
      then Some (ret (vars, <[w := Some WeakPtr.ctor_default]> wvars))
      else None
  | WCopy w v =>
      match wdead wvars w, wlive wvars v with
      | true, Some hv =>
          Some (let* h := WeakPtr.ctor_copy hv in
                ret (vars, <[w := Some h]> wvars))
      | _, _ => None
      end
  | WMove w v =>
      match wdead wvars w, wlive wvars v with
      | true, Some hv =>
          let '(h, hv') := WeakPtr.ctor_move hv in
          Some (ret (vars, <[v := Some hv']> (<[w := Some h]> wvars)))
      | _, _ => None
      end
  | WFromShared w x =>
      match wdead wvars w, live vars x with
      | true, Some hx =>
          if block_without_address hx then None
          else Some (let* h := WeakPtr.ctor_shared hx in
                     ret (vars, <[w := Some h]> wvars))
      | _, _ => None
      end
  | WAssign w v =>
      match wlive wvars w, wlive wvars v with
      | Some hw, Some hv =>
          Some (let* h := WeakPtr.operator_assign w v hw hv in
                ret (vars, <[w := Some h]> wvars))
      | _, _ => None
      end
  | WAssignMove w v =>
      match wlive wvars w, wlive wvars v with
      | Some hw, Some hv =>
          Some (let* r := WeakPtr.operator_assign_move w v hw hv in
                ret (vars, <[v := Some (snd r)]> (<[w := Some (fst r)]> wvars)))
      | _, _ => None
      end
  | WAssignShared w x =>
      match wlive wvars w, live vars x with
      | Some hw, Some hx =>
          Some (let* h := WeakPtr.operator_assign_shared hw hx in
                ret (vars, <[w := Some h]> wvars))
      | _, _ => None
      end
  | WReset w =>
      match wlive wvars w with
      | Some hw =>
          Some (let* h := WeakPtr.Reset hw in ret (vars, <[w := Some h]> wvars))
      | None => None
      end
  | WSwap w v =>
      match wlive wvars w, wlive wvars v with
      | Some hw, Some hv =>
          let '(hw', hv') := WeakPtr.Swap hw hv in
          Some (ret (vars, <[v := Some hv']> (<[w := Some hw']> wvars)))
      | _, _ => None
      end
  | WDestroy w =>
      match wlive wvars w with
      | Some hw => Some (do WeakPtr.dtor hw then ret (vars, <[w := None]> wvars))
      | None => None
      end
  end.

Inductive mresult : Type :=
| MFinished (vars : frame) (wvars : wframe) (s : State)
| MRaised (e : exn)      (* an exception left the program               *)
| MFaulted               (* undefined behaviour                         *)
| MRejected.             (* an operation was not applicable, see above  *)

Fixpoint mexec (ops : list mp_op) (vars : frame) (wvars : wframe) (s : State)
  : mresult :=
  match ops with
  | [] => MFinished vars wvars s
  | op :: rest =>
      match mp_step op vars wvars with
      | None => MRejected
      | Some m =>
          match m s with
          | Ok (vars', wvars') s' => mexec rest vars' wvars' s'
          | Throw e _ => MRaised e
          | Undefined => MFaulted
          end
      end
  end.

Definition no_wvars (n : nat) : wframe := replicate n None.

Definition wholds (c : loc) (v : option WeakPtr.t) : bool :=
  match v with
  | Some w => bool_decide (WeakPtr.cb_ w = Some c)
  | None => false
  end.

(** Number of live [WeakPtr] handles on the block at [c]. *)
Fixpoint observers (c : loc) (wvars : wframe) : nat :=
  match wvars with
  | [] => O
  | v :: rest => ((if wholds c v then 1 else 0) + observers c rest)%nat
  end.

(** What the log records for the block at [c], in order. *)
Definition events_of (c : loc) (l : list (loc * effect)) : list effect :=
  map snd (filter (fun e => fst e = c) l).

Definition wunowning (v : option WeakPtr.t) : Prop :=
  forall c, wholds c v = false.

(** The invariant of a program over both kinds of variables.  An allocated
    block counts its owners and its observers, has at least one of them,
    has not been deallocated, and has released its payload exactly if it
    has no owner left.  A location that is not allocated has no handle on
    it; if it was handed out by [new] before, its payload has been released
    once and its block deallocated once. *)
Definition balanced (n m : nat) (vars : frame) (wvars : wframe) (s : State) : Prop :=
  length vars = n /\
  length wvars = m /\
  Z.of_nat n <= SIZE_MAX /\
  Z.of_nat m <= SIZE_MAX /\
  (forall c, (next s <= c)%nat -> heap s !! c = None /\ events_of c (log s) = []) /\
  forall c,
    match heap s !! c with
    | Some b =>
        GetSharedCounter b = Z.of_nat (owners c vars) /\
        weak_counter b = Z.of_nat (observers c wvars) /\
        (0 < owners c vars + observers c wvars)%nat /\
        block_frees (events_of c (log s)) = O /\
        payload_releases (events_of c (log s)) =
          (if Nat.eqb (owners c vars) 0 then 1%nat else 0%nat)
    | None =>
        owners c vars = O /\
        observers c wvars = O /\
        ((c < next s)%nat ->
         block_frees (events_of c (log s)) = 1%nat /\
         payload_releases (events_of c (log s)) = 1%nat)
    end.

(** A program over three [SharedPtr] and two [WeakPtr] variables, used to
    instantiate the statements about such programs. *)
Definition mixed_sample : list mp_op :=
  [OnShared (NewMakeShared 0); WFromShared 0 0; SAlias 1 0 (Some (Ext 9));
   WCopy 1 0; OnShared (Destroy 0); SLock 2 1; OnShared (Destroy 1);
   OnShared (Destroy 2); SPromote 0 0; WDestroy 0; WDestroy 1].

(** The effect by which a block releases its payload. *)
Definition release_event (b : ControlBlock) : effect :=
  match b with
  | Separate p => DeletePayload (ControlBlockPointer.ptr_ p)
  | Combined _ => DestroyInPlace
  end.

(** The calls of [WeakPtr] that are not promotions, with their arguments;
    [x] and [y] are the addresses of the handle objects. *)
Inductive wk_call : Type :=
| WkCopy (other : WeakPtr.t)
| WkFromShared (other : SharedPtr.t)
| WkAssign (x y : nat) (this other : WeakPtr.t)
| WkAssignMove (x y : nat) (this other : WeakPtr.t)
| WkAssignShared (this : WeakPtr.t) (other : SharedPtr.t)
| WkDtor (this : WeakPtr.t)
| WkReset (this : WeakPtr.t)
| WkUseCount (this : WeakPtr.t)
| WkExpired (this : WeakPtr.t).

Definition wk_run (op : wk_call) : M unit :=
  match op with
  | WkCopy other => do WeakPtr.ctor_copy other then ret tt
  | WkFromShared other => do WeakPtr.ctor_shared other then ret tt
  | WkAssign x y this other => do WeakPtr.operator_assign x y this other then ret tt
  | WkAssignMove x y this other =>
      do WeakPtr.operator_assign_move x y this other then ret tt
  | WkAssignShared this other =>
      do WeakPtr.operator_assign_shared this other then ret tt
  | WkDtor this => WeakPtr.dtor this
  | WkReset this => do WeakPtr.Reset this then ret tt
  | WkUseCount this => do WeakPtr.UseCount this then ret tt
  | WkExpired this => do WeakPtr.Expired this then ret tt
  end.

(** Between two states: no payload was released, and every block that is
    allocated after was allocated before with the same strong count. *)
Definition strong_untouched (s s' : State) : Prop :=
  payload_releases (map snd (log s')) = payload_releases (map snd (log s)) /\
  forall c b',
    heap s' !! c = Some b' ->
    exists b, heap s !! c = Some b /\ GetSharedCounter b' = GetSharedCounter b.

(** ** The control blocks of shared/shared.h (one counter) *)

(** [ControlBlockPointer<T>] of shared/shared.h. *)
Module SimpleControlBlockPointer.

Record t : Type := mk {
  cnt_ : Z;
  ptr_ : ptr
}.

Definition ctor (p : ptr) : t := {| cnt_ := 1; ptr_ := p |}.

Definition IncreaseCounter (b : t) : t * list effect :=
  ({| cnt_ := pre_incr (cnt_ b); ptr_ := ptr_ b |}, []).

Definition DecreaseCounter (b : t) : t * list effect :=
  let n := pre_decr (cnt_ b) in
  ({| cnt_ := n; ptr_ := ptr_ b |},
   if n =? 0 then [DeletePayload (ptr_ b); DeleteThis] else []).

Definition GetPointer (b : t) : ptr := ptr_ b.

Definition GetCounter (b : t) : Z := cnt_ b.

End SimpleControlBlockPointer.

(** [ControlBlockObject<T>] of shared/shared.h.  The payload is the member
    [obj_]: [delete this] runs its destructor and then frees the block. *)
Module SimpleControlBlockObject.

Record t : Type := mk {
  cnt_ : Z
}.

Definition ctor : t := {| cnt_ := 1 |}.

Definition IncreaseCounter (b : t) : t * list effect :=
  ({| cnt_ := pre_incr (cnt_ b) |}, []).

Definition DecreaseCounter (b : t) : t * list effect :=
  let n := pre_decr (cnt_ b) in
  ({| cnt_ := n |}, if n =? 0 then [DestroyInPlace; DeleteThis] else []).

Definition GetPointer (this : loc) (b : t) : ptr := Some (Emb this).

Definition GetCounter (b : t) : Z := cnt_ b.

End SimpleControlBlockObject.

Inductive SimpleControlBlock : Type :=
| SimpleSeparate (b : SimpleControlBlockPointer.t)
| SimpleCombined (b : SimpleControlBlockObject.t).

Definition IncreaseCounter (b : SimpleControlBlock) : SimpleControlBlock * list effect :=
  match b with
  | SimpleSeparate p =>
      let '(p', es) := SimpleControlBlockPointer.IncreaseCounter p in
      (SimpleSeparate p', es)
  | SimpleCombined o =>
      let '(o', es) := SimpleControlBlockObject.IncreaseCounter o in
      (SimpleCombined o', es)
  end.

Definition DecreaseCounter (b : SimpleControlBlock) : SimpleControlBlock * list effect :=
  match b with
  | SimpleSeparate p =>
      let '(p', es) := SimpleControlBlockPointer.DecreaseCounter p in
      (SimpleSeparate p', es)
  | SimpleCombined o =>
      let '(o', es) := SimpleControlBlockObject.DecreaseCounter o in
      (SimpleCombined o', es)
  end.

Definition GetCounter (b : SimpleControlBlock) : Z :=
  match b with
  | SimpleSeparate p => SimpleControlBlockPointer.GetCounter p
  | SimpleCombined o => SimpleControlBlockObject.GetCounter o
  end.

Definition SimpleGetPointer (this : loc) (b : SimpleControlBlock) : ptr :=
  match b with
  | SimpleSeparate p => SimpleControlBlockPointer.GetPointer p
  | SimpleCombined o => SimpleControlBlockObject.GetPointer this o
  end.

(** [true] is [IncreaseCounter], [false] is [DecreaseCounter]. *)
Definition simple_call (inc : bool)
  : SimpleControlBlock -> SimpleControlBlock * list effect :=
  if inc then IncreaseCounter else DecreaseCounter.

Inductive simple_life : Type :=
| SimpleLive (b : SimpleControlBlock)
| SimpleFreed.

(** As [cb_run], for a block with one counter. *)
Fixpoint simple_run (ops : list bool) (l : simple_life) (seen : list effect)
  : option (simple_life * list effect) :=
  match ops with
  | [] => Some (l, seen)
  | op :: rest =>
      match l with
      | SimpleFreed => None
      | SimpleLive b =>
          let '(b', es) := simple_call op b in
          simple_run rest
            (if existsb is_delete_this es then SimpleFreed else SimpleLive b')
            (seen ++ es)
      end
  end.

(** The block with two counters that has the same strong count, the same
    payload and no weak reference. *)
Definition with_weak (b : SimpleControlBlock) : ControlBlock :=
  match b with
  | SimpleSeparate p =>
      Separate {| ControlBlockPointer.shared_cnt_ := SimpleControlBlockPointer.cnt_ p;
                  ControlBlockPointer.weak_cnt_ := 0;
                  ControlBlockPointer.ptr_ := SimpleControlBlockPointer.ptr_ p |}
  | SimpleCombined o =>
      Combined {| ControlBlockObject.shared_cnt_ := SimpleControlBlockObject.cnt_ o;
                  ControlBlockObject.weak_cnt_ := 0 |}
  end.

Definition with_weak_life (l : simple_life) : life :=
  match l with
  | SimpleLive b => Live (with_weak b)
  | SimpleFreed => Freed
  end.

Definition strong_call (inc : bool) : cb_op := if inc then IncShared else DecShared.

(** ** Intrusive reference counting *)

(** [class SimpleCounter]. *)
Module SimpleCounter.

Record t : Type := mk {
  count_ : Z
}.

Definition ctor : t := {| count_ := 0 |}.

(** [return ++count_;] *)
Definition IncRef (c : t) : t * Z :=
  let n := pre_incr (count_ c) in ({| count_ := n |}, n).

(** [return --count_;] *)
Definition DecRef (c : t) : t * Z :=
  let n := pre_decr (count_ c) in ({| count_ := n |}, n).

Definition RefCount (c : t) : Z := count_ c.

End SimpleCounter.

(** [class RefCounted<Derived, Counter, Deleter>] with [SimpleCounter]. *)
Module RefCounted.

Record t : Type := mk {
  counter_ : SimpleCounter.t
}.

Definition ctor : t := {| counter_ := SimpleCounter.ctor |}.

(** [RefCounted(RefCounted&) {}]: the counter is not copied. *)
Definition ctor_copy (other : t) : t := {| counter_ := SimpleCounter.ctor |}.

(** [operator=(RefCounted&) { return *this; }]. *)
Definition operator_assign (this other : t) : t := this.

Definition IncRef (this : t) : t :=
  {| counter_ := fst (SimpleCounter.IncRef (counter_ this)) |}.

(** The object after the decrement, and whether [Deleter::Destroy(this)]
    was called. *)
Definition DecRef (this : t) : t * bool :=
  let '(c, n) := SimpleCounter.DecRef (counter_ this) in
  ({| counter_ := c |}, n =? 0).

Definition RefCount (this : t) : Z := SimpleCounter.RefCount (counter_ this).

End RefCounted.

(** The objects that derive from [RefCounted]: those that exist, the
    location the next [new] returns, and the objects destroyed so far. *)
Record IState : Type := mkIState {
  objs : gmap loc RefCounted.t;
  inext : loc;
  destroyed : list loc
}.

(** A computation on the objects; [None] when it uses a destroyed one. *)
Definition IM (A : Type) : Type := IState -> option (A * IState).

Definition iret {A : Type} (a : A) : IM A := fun s => Some (a, s).

Definition ibind {A B : Type} (m : IM A) (k : A -> IM B) : IM B :=
  fun s =>
    match m s with
    | Some (a, s') => k a s'
    | None => None
    end.

Notation "'let+' x ':=' m 'in' k" := (ibind m (fun x => k))
  (at level 10, x name, m at level 100, k at level 200).
Notation "'run' m 'then' k" := (ibind m (fun _ => k))
  (at level 10, m at level 100, k at level 200).

(** [class IntrusivePtr<T>]. *)
Module IntrusivePtr.

Record t : Type := mk {
  ptr_ : option loc
}.

Definition IncRef (this : t) : IM unit :=
  fun s =>
    match ptr_ this with
    | None => Some (tt, s)
    | Some o =>
        match objs s !! o with
        | None => None
        | Some r =>
            Some (tt, {| objs := <[o := RefCounted.IncRef r]> (objs s);
                         inext := inext s;
                         destroyed := destroyed s |})
        end
    end.

Definition DecRef (this : t) : IM unit :=
  fun s =>
    match ptr_ this with
    | None => Some (tt, s)
    | Some o =>
        match objs s !! o with
        | None => None
        | Some r =>
            let '(r', gone) := RefCounted.DecRef r in
            Some (tt, {| objs := if gone then delete o (objs s)
                                 else <[o := r']> (objs s);
                         inext := inext s;
                         destroyed := if gone then destroyed s ++ [o]
                                      else destroyed s |})
        end
    end.

Definition RefCount (this : t) : IM Z :=
  fun s =>
    match ptr_ this with
    | None => Some (0, s)
    | Some o =>
        match objs s !! o with
        | None => None
        | Some r => Some (RefCounted.RefCount r, s)
        end
    end.

Definition ctor_default : t := {| ptr_ := None |}.

Definition ctor_nullptr : t := {| ptr_ := None |}.

(** [IntrusivePtr(T* p)]. *)
Definition ctor_ptr (p : option loc) : IM t :=
  let this := {| ptr_ := p |} in
  run IncRef this then iret this.

(** [IntrusivePtr(const IntrusivePtr& other)]. *)
Definition ctor_copy (other : t) : IM t :=
  let this := {| ptr_ := ptr_ other |} in
  run IncRef this then iret this.

(** [IntrusivePtr(IntrusivePtr&& other)]. *)
Definition ctor_move (other : t) : t * t :=
  ({| ptr_ := ptr_ other |}, {| ptr_ := None |}).

Definition operator_assign (this_at other_at : nat) (this other : t) : IM t :=
  if Nat.eqb this_at other_at then iret this
  else
    run DecRef this then
    let this' := {| ptr_ := ptr_ other |} in
    run IncRef this' then
    iret this'.

Definition operator_assign_move (this_at other_at : nat) (this other : t)
  : IM (t * t) :=
  if Nat.eqb this_at other_at then iret (this, other)
  else
    run DecRef this then
    iret ({| ptr_ := ptr_ other |}, {| ptr_ := None |}).

Definition dtor (this : t) : IM unit := DecRef this.

Definition Reset (this : t) : IM t :=
  run DecRef this then iret {| ptr_ := None |}.

(** [void Reset(T* ptr)]. *)
Definition Reset_ptr (this : t) (p : option loc) : IM t :=
  run DecRef this then
  let this' := {| ptr_ := p |} in
  run IncRef this' then
  iret this'.

Definition Swap (this other : t) : t * t :=
  ({| ptr_ := ptr_ other |}, {| ptr_ := ptr_ this |}).

Definition Get (this : t) : option loc := ptr_ this.

Definition UseCount (this : t) : IM Z := RefCount this.

Definition operator_bool (this : t) : bool :=
  match ptr_ this with
  | Some _ => true
  | None => false
  end.

(** [new T(args...)]: the object starts with a counter of 0. *)
Definition new_object : IM (option loc) :=
  fun s =>
    Some (Some (inext s),
          {| objs := <[inext s := RefCounted.ctor]> (objs s);
             inext := S (inext s);
             destroyed := destroyed s |}).


End IntrusivePtr.


Abbreviation iframe := (list (option IntrusivePtr.t)).














(** * [UniquePtr] (unique.h) over [CompressedPair] (compressed_pair.h) *)

(** [class CompressedPair<F, S>]. *)
Module CompressedPair.

(** The four partial specialisations, in the order of the file. *)
Inductive specialisation : Type :=
| BothBases       (* : F, S                 *)
| SecondBase      (* : S  { F first_; }     *)
| FirstBase       (* : F  { S second_; }    *)
| Members.        (* { F first_; S second_; } *)

(** [concept compressed = !std::is_final_v<T> && std::is_empty_v<T>]. *)
Definition compressed (is_final is_empty : bool) : bool :=
  negb is_final && is_empty.

(** The [enable_if] condition of a specialisation, from [compressed<F>],
    [compressed<S>] and [std::is_same_v<F, S>]. *)
Definition enabled (w : specialisation) (cF cS same : bool) : bool :=
  match w with
  | BothBases => (cF && cS && negb same) || (same && negb cF)
  | SecondBase => (negb cF && cS && negb same) || (same && cS)
  | FirstBase => cF && negb cS && negb same
  | Members => negb cF && negb cS && negb same
  end.

(** The two components; a base sub-object and a data member hold a value
    alike. *)
Record t (F S : Type) : Type := mk {
  first_ : F;
  second_ : S
}.

Arguments mk {F S} _ _.
Arguments first_ {F S} _.
Arguments second_ {F S} _.

(** [CompressedPair() : first_(), second_()], given the value-initialised
    components. *)
Definition ctor_default {F S : Type} (f0 : F) (s0 : S) : t F S :=
  {| first_ := f0; second_ := s0 |}.

Definition ctor {F S : Type} (first : F) (second : S) : t F S :=
  {| first_ := first; second_ := second |}.

Definition GetFirst {F S : Type} (p : t F S) : F := first_ p.

Definition GetSecond {F S : Type} (p : t F S) : S := second_ p.

End CompressedPair.

(** The objects made by [new] and not deleted yet, the location the next
    [new] returns, and the arguments the deleter was called with, oldest
    first. *)
Record UState : Type := mkUState {
  allocated : gset loc;
  unext : loc;
  deleter_calls : list (option loc)
}.

(** A computation on these objects; [None] when it deletes an object that
    is not allocated. *)
Definition UM (A : Type) : Type := UState -> option (A * UState).

Definition uret {A : Type} (a : A) : UM A := fun s => Some (a, s).

Definition ubind {A B : Type} (m : UM A) (k : A -> UM B) : UM B :=
  fun s =>
    match m s with
    | Some (a, s') => k a s'
    | None => None
    end.

Notation "'let^' x ':=' m 'in' k" := (ubind m (fun x => k))
  (at level 10, x name, m at level 100, k at level 200).
Notation "'invoke' m 'then' k" := (ubind m (fun _ => k))
  (at level 10, m at level 100, k at level 200).

(** [class DefaultDeleter<T>]: no data members. *)
Module DefaultDeleter.

Inductive t : Type := mk.

(** [void operator()(T* p) const { delete p; }]. *)
Definition call (d : t) (p : option loc) : UM unit :=
  fun s =>
    match p with
    | None =>
        Some (tt, {| allocated := allocated s;
                     unext := unext s;
                     deleter_calls := deleter_calls s ++ [None] |})
    | Some a =>
        if decide (a ∈ allocated s)
        then Some (tt, {| allocated := allocated s ∖ {[a]};
                          unext := unext s;
                          deleter_calls := deleter_calls s ++ [Some a] |})
        else None
    end.

End DefaultDeleter.

(** [class UniquePtr<T, Deleter>] with [Deleter = DefaultDeleter<T>]. *)
Module UniquePtr.

Record t : Type := mk {
  data_ : CompressedPair.t (option loc) DefaultDeleter.t
}.

Definition Get (this : t) : option loc := CompressedPair.GetFirst (data_ this).

Definition GetDeleter (this : t) : DefaultDeleter.t :=
  CompressedPair.GetSecond (data_ this).

(** [explicit UniquePtr(T* ptr = nullptr) : data_(ptr, Deleter())]. *)
Definition ctor_ptr (p : option loc) : t :=
  {| data_ := CompressedPair.ctor p DefaultDeleter.mk |}.

(** [UniquePtr(T* ptr, Deleter deleter)]. *)
Definition ctor_ptr_deleter (p : option loc) (d : DefaultDeleter.t) : t :=
  {| data_ := CompressedPair.ctor p d |}.

(** [T* Release()]: the pointer and the handle afterwards. *)
Definition Release (this : t) : option loc * t :=
  (Get this, {| data_ := CompressedPair.mk None (GetDeleter this) |}).

(** [UniquePtr(UniquePtr<W, D>&& other)]: [data_] is default-constructed,
    its deleter is called on its pointer, then [other] is taken over. *)
Definition ctor_move (other : t) : UM (t * t) :=
  let data := CompressedPair.ctor_default None DefaultDeleter.mk in
  invoke DefaultDeleter.call (CompressedPair.GetSecond data)
                             (CompressedPair.GetFirst data) then
  let '(p, other') := Release other in
  uret ({| data_ := CompressedPair.mk p (GetDeleter other') |}, other').

(** [UniquePtr& operator=(UniquePtr<W, D>&& other)]. *)
Definition operator_assign_move (this other : t) : UM (t * t) :=
  if bool_decide (Get this = Get other) then uret (this, other)
  else
    invoke DefaultDeleter.call (GetDeleter this) (Get this) then
    let '(p, other') := Release other in
    uret ({| data_ := CompressedPair.mk p (GetDeleter other') |}, other').

(** [UniquePtr& operator=(std::nullptr_t)]. *)
Definition operator_assign_nullptr (this : t) : UM t :=
  invoke DefaultDeleter.call (GetDeleter this) (Get this) then
  uret {| data_ := CompressedPair.mk None (GetDeleter this) |}.

Definition dtor (this : t) : UM unit :=
  DefaultDeleter.call (GetDeleter this) (Get this).

(** [void Reset(T* ptr = nullptr)]: the new pointer is stored before the
    previous one is deleted. *)
Definition Reset (this : t) (p : option loc) : UM t :=
  let prev_ptr := Get this in
  let this' := {| data_ := CompressedPair.mk p (GetDeleter this) |} in
  invoke DefaultDeleter.call (GetDeleter this') prev_ptr then
  uret this'.

Definition Swap (this other : t) : t * t :=
  ({| data_ := data_ other |}, {| data_ := data_ this |}).

Definition operator_bool (this : t) : bool :=
  match Get this with
  | Some _ => true
  | None => false
  end.

(** [new T(args...)]. *)
Definition new_object : UM (option loc) :=
  fun s =>
    Some (Some (unext s),
          {| allocated := {[unext s]} ∪ allocated s;
             unext := S (unext s);
             deleter_calls := deleter_calls s |}).

End UniquePtr.

(** Programs over [UniquePtr] variables. *)
Inductive up_op : Type :=
| UNewDefault (x : nat)          (* UniquePtr<T> x;                   *)
| UNew (x : nat)                 (* UniquePtr<T> x(new T);            *)
| UNewMove (x y : nat)           (* UniquePtr<T> x(std::move(y));     *)
| UNewFromRelease (x y : nat)    (* UniquePtr<T> x(y.Release());      *)
| UAssignMove (x y : nat)        (* x = std::move(y);                 *)
| UAssignNull (x : nat)          (* x = nullptr;                      *)
| UReset (x : nat)               (* x.Reset();                        *)
| UResetNew (x : nat)            (* x.Reset(new T);                   *)
| UResetRelease (x y : nat)      (* x.Reset(y.Release());             *)
| USwap (x y : nat)              (* x.Swap(y);                        *)
| UDestroy (x : nat).            (* x.~UniquePtr()                    *)

Abbreviation uframe := (list (option UniquePtr.t)).

Definition ulive (vars : uframe) (x : nat) : option UniquePtr.t :=
  match vars !! x with
  | Some (Some h) => Some h
  | _ => None
  end.

Definition udead (vars : uframe) (x : nat) : bool :=
  match vars !! x with
  | Some None => true
  | _ => false
  end.

Definition up_step (op : up_op) (vars : uframe) : option (UM uframe) :=
  match op with
  | UNewDefault x =>
      if udead vars x
      then Some (uret (<[x := Some (UniquePtr.ctor_ptr None)]> vars))
      else None
  | UNew x =>
      if udead vars x
      then Some (let^ p := UniquePtr.new_object in
                 uret (<[x := Some (UniquePtr.ctor_ptr p)]> vars))
      else None
  | UNewMove x y =>
      match udead vars x, ulive vars y with
      | true, Some hy =>
          Some (let^ r := UniquePtr.ctor_move hy in
                uret (<[y := Some (snd r)]> (<[x := Some (fst r)]> vars)))
      | _, _ => None
      end
  | UNewFromRelease x y =>
      match udead vars x, ulive vars y with
      | true, Some hy =>
          let '(p, hy') := UniquePtr.Release hy in
          Some (uret (<[y := Some hy']> (<[x := Some (UniquePtr.ctor_ptr p)]> vars)))
      | _, _ => None
      end
  | UAssignMove x y =>
      match ulive vars x, ulive vars y with
      | Some hx, Some hy =>
          Some (let^ r := UniquePtr.operator_assign_move hx hy in
                uret (<[y := Some (snd r)]> (<[x := Some (fst r)]> vars)))
      | _, _ => None
      end
  | UAssignNull x =>
      match ulive vars x with
      | Some hx =>
          Some (let^ h := UniquePtr.operator_assign_nullptr hx in
                uret (<[x := Some h]> vars))
      | None => None
      end
  | UReset x =>
      match ulive vars x with
      | Some hx =>
          Some (let^ h := UniquePtr.Reset hx None in uret (<[x := Some h]> vars))
      | None => None
      end
  | UResetNew x =>
      match ulive vars x with
      | Some hx =>
          Some (let^ h := (let^ p := UniquePtr.new_object in
                           UniquePtr.Reset hx p) in
                uret (<[x := Some h]> vars))
      | None => None
      end
  | UResetRelease x y =>
      match ulive vars x, ulive vars y with
      | Some hx, Some hy =>
          let '(p, hy') := UniquePtr.Release hy in
          let this := if Nat.eqb x y then hy' else hx in
          Some (let^ h := UniquePtr.Reset this p in
                uret (<[x := Some h]> (<[y := Some hy']> vars)))
      | _, _ => None
      end
  | USwap x y =>
      match ulive vars x, ulive vars y with
      | Some hx, Some hy =>
          let '(hx', hy') := UniquePtr.Swap hx hy in
          Some (uret (<[y := Some hy']> (<[x := Some hx']> vars)))
      | _, _ => None
      end
  | UDestroy x =>
      match ulive vars x with
      | Some hx => Some (invoke UniquePtr.dtor hx then uret (<[x := None]> vars))
      | None => None
      end
  end.

Inductive uresult : Type :=
| UFinished (vars : uframe) (s : UState)
| UFaulted             (* an object was deleted that is not allocated *)
| URejected.           (* an operation was not applicable             *)

Fixpoint uexec (ops : list up_op) (vars : uframe) (s : UState) : uresult :=
  match ops with
  | [] => UFinished vars s
  | op :: rest =>
      match up_step op vars with
      | None => URejected
      | Some m =>
          match m s with
          | Some (vars', s') => uexec rest vars' s'
          | None => UFaulted
          end
      end
  end.

Definition ustart : UState :=
  {| allocated := ∅; unext := O; deleter_calls := [] |}.

Definition no_uvars (n : nat) : uframe := replicate n None.

Definition uholds (o : loc) (v : option UniquePtr.t) : bool :=
  match v with
  | Some h => bool_decide (UniquePtr.Get h = Some o)
  | None => false
  end.

(** Number of live handles that hold the object at [o]. *)
Fixpoint uholders (o : loc) (vars : uframe) : nat :=
  match vars with
  | [] => O
  | v :: rest => ((if uholds o v then 1 else 0) + uholders o rest)%nat
  end.

(** How often the deleter was called on the object at [o]. *)
Definition deletions (o : loc) (l : list (option loc)) : nat :=
  length (filter (fun x => x = Some o) l).

(** The invariant of a program with [n] variables: an allocated object is
    held by exactly one handle and was never passed to the deleter; an
    object that is not allocated is held by none, and was passed to the
    deleter once if it was ever made. *)
Definition uowned (n : nat) (vars : uframe) (s : UState) : Prop :=
  length vars = n /\
  forall o,
    if decide (o ∈ allocated s)
    then (o < unext s)%nat /\
         uholders o vars = 1%nat /\
         deletions o (deleter_calls s) = O
    else uholders o vars = O /\
         deletions o (deleter_calls s) =
           (if decide (o < unext s)%nat then 1%nat else O).

Definition uunowning (v : option UniquePtr.t) : Prop :=
  forall o, uholds o v = false.

(** * [SharedPtr] of shared/shared.h, over the blocks with one counter *)

Record SimpleState : Type := mkSimpleState {
  sheap : gmap loc SimpleControlBlock;   (* the allocated control blocks       *)
  snext : loc;                           (* the location [new] returns next    *)
  slog : list (loc * effect)             (* what happened so far, oldest first *)
}.

(** A computation on these blocks; [None] when it dereferences a
    deallocated block.  No operation of this class throws. *)
Definition SM (A : Type) : Type := SimpleState -> option (A * SimpleState).

Definition sret {A : Type} (a : A) : SM A := fun s => Some (a, s).

Definition sbind {A B : Type} (m : SM A) (k : A -> SM B) : SM B :=
  fun s =>
    match m s with
    | Some (a, s') => k a s'
    | None => None
    end.

Notation "'let~' x ':=' m 'in' k" := (sbind m (fun x => k))
  (at level 10, x name, m at level 100, k at level 200).
Notation "'perform' m 'then' k" := (sbind m (fun _ => k))
  (at level 10, m at level 100, k at level 200).

Definition simple_new_block (b : SimpleControlBlock) : SM loc :=
  fun s =>
    Some (snext s,
          {| sheap := <[snext s := b]> (sheap s);
             snext := S (snext s);
             slog := slog s |}).

Definition simple_method (c : loc)
           (m : SimpleControlBlock -> SimpleControlBlock * list effect) : SM unit :=
  fun s =>
    match sheap s !! c with
    | None => None
    | Some b =>
        let '(b', es) := m b in
        Some (tt,
              {| sheap := if existsb is_delete_this es
                          then delete c (sheap s)
                          else <[c := b']> (sheap s);
                 snext := snext s;
                 slog := slog s ++ map (pair c) es |})
    end.

Definition simple_read {A : Type} (c : loc) (f : SimpleControlBlock -> A) : SM A :=
  fun s =>
    match sheap s !! c with
    | None => None
    | Some b => Some (f b, s)
    end.

(** [class SharedPtr<T>] of shared/shared.h.  The handle has the two
    fields [cb_] and [observed_] of [SharedPtr.t], whose record is used. *)
Module SimpleSharedPtr.

Abbreviation t := SharedPtr.t.

Definition IncreaseCBCounter (this : t) : SM unit :=
  match SharedPtr.cb_ this with
  | Some c => simple_method c IncreaseCounter
  | None => sret tt
  end.

Definition DecreaseCBCounter (this : t) : SM unit :=
  match SharedPtr.cb_ this with
  | Some c => simple_method c DecreaseCounter
  | None => sret tt
  end.

Definition GetCBCounter (this : t) : SM Z :=
  match SharedPtr.cb_ this with
  | Some c => simple_read c GetCounter
  | None => sret 0
  end.

Definition ctor_default : t :=
  {| SharedPtr.cb_ := None; SharedPtr.observed_ := nullptr |}.

Definition ctor_ptr (p : ptr) : SM t :=
  let~ c := simple_new_block (SimpleSeparate (SimpleControlBlockPointer.ctor p)) in
  sret {| SharedPtr.cb_ := Some c; SharedPtr.observed_ := p |}.

Definition ctor_copy (other : t) : SM t :=
  let this := {| SharedPtr.cb_ := SharedPtr.cb_ other;
                 SharedPtr.observed_ := SharedPtr.observed_ other |} in
  perform IncreaseCBCounter this then
  sret this.

Definition ctor_move (other : t) : t * t :=
  ({| SharedPtr.cb_ := SharedPtr.cb_ other;
      SharedPtr.observed_ := SharedPtr.observed_ other |},
   {| SharedPtr.cb_ := None; SharedPtr.observed_ := nullptr |}).

Definition ctor_alias (other : t) (p : ptr) : SM t :=
  let this := {| SharedPtr.cb_ := SharedPtr.cb_ other;
                 SharedPtr.observed_ := p |} in
  perform IncreaseCBCounter this then
  sret this.

Definition operator_assign (this_at other_at : nat) (this other : t) : SM t :=
  if Nat.eqb this_at other_at then sret this
  else
    perform DecreaseCBCounter this then
    let this' := {| SharedPtr.cb_ := SharedPtr.cb_ other;
                    SharedPtr.observed_ := SharedPtr.observed_ other |} in
    perform IncreaseCBCounter this' then
    sret this'.

Definition operator_assign_move (this_at other_at : nat) (this other : t)
  : SM (t * t) :=
  if Nat.eqb this_at other_at then sret (this, other)
  else
    perform DecreaseCBCounter this then
    sret ({| SharedPtr.cb_ := SharedPtr.cb_ other;
             SharedPtr.observed_ := SharedPtr.observed_ other |},
          {| SharedPtr.cb_ := None; SharedPtr.observed_ := nullptr |}).

Definition dtor (this : t) : SM unit := DecreaseCBCounter this.

Definition Reset (this : t) : SM t :=
  perform DecreaseCBCounter this then
  sret {| SharedPtr.cb_ := None; SharedPtr.observed_ := nullptr |}.

Definition Reset_ptr (this : t) (p : ptr) : SM t :=
  perform DecreaseCBCounter this then
  let~ c := simple_new_block (SimpleSeparate (SimpleControlBlockPointer.ctor p)) in
  sret {| SharedPtr.cb_ := Some c; SharedPtr.observed_ := p |}.

Definition Swap (this other : t) : t * t :=
  ({| SharedPtr.cb_ := SharedPtr.cb_ other;
      SharedPtr.observed_ := SharedPtr.observed_ other |},
   {| SharedPtr.cb_ := SharedPtr.cb_ this;
      SharedPtr.observed_ := SharedPtr.observed_ this |}).

Definition Get (this : t) : ptr := SharedPtr.observed_ this.

Definition UseCount (this : t) : SM Z := GetCBCounter this.

Definition operator_bool (this : t) : bool :=
  negb (is_null (SharedPtr.observed_ this)).

Definition MakeShared : SM t :=
  let~ c := simple_new_block (SimpleCombined SimpleControlBlockObject.ctor) in
  let~ p := simple_read c (SimpleGetPointer c) in
  sret {| SharedPtr.cb_ := Some c; SharedPtr.observed_ := p |}.

End SimpleSharedPtr.

(** Programs over the [SharedPtr] variables of shared/shared.h: the
    operations of [sp_op], the aliasing constructor and [Swap]. *)
Inductive so_op : Type :=
| SPlain (op : sp_op)
| SAliasOf (x y : nat) (p : ptr)     (* SharedPtr<T> x(y, p); *)
| SSwapWith (x y : nat).             (* x.Swap(y);            *)

Definition simple_step (op : so_op) (vars : frame) : option (SM frame) :=
  match op with
  | SPlain (NewDefault x) =>
      if dead vars x
      then Some (sret (<[x := Some SimpleSharedPtr.ctor_default]> vars))
      else None
  | SPlain (NewFromPtr x p) =>
      if dead vars x
      then Some (let~ h := SimpleSharedPtr.ctor_ptr p in sret (<[x := Some h]> vars))
      else None
  | SPlain (NewMakeShared x) =>
      if dead vars x
      then Some (let~ h := SimpleSharedPtr.MakeShared in sret (<[x := Some h]> vars))
      else None
  | SPlain (NewCopy x y) =>
      match dead vars x, live vars y with
      | true, Some hy =>
          Some (let~ h := SimpleSharedPtr.ctor_copy hy in sret (<[x := Some h]> vars))
      | _, _ => None
      end
  | SPlain (NewMove x y) =>
      match dead vars x, live vars y with
      | true, Some hy =>
          let '(h, hy') := SimpleSharedPtr.ctor_move hy in
          Some (sret (<[y := Some hy']> (<[x := Some h]> vars)))
      | _, _ => None
      end
  | SPlain (Assign x y) =>
      match live vars x, live vars y with
      | Some hx, Some hy =>
          Some (let~ h := SimpleSharedPtr.operator_assign x y hx hy in
                sret (<[x := Some h]> vars))
      | _, _ => None
      end
  | SPlain (AssignMove x y) =>
      match live vars x, live vars y with
      | Some hx, Some hy =>
          Some (let~ r := SimpleSharedPtr.operator_assign_move x y hx hy in
                sret (<[y := Some (snd r)]> (<[x := Some (fst r)]> vars)))
      | _, _ => None
      end
  | SPlain (DoReset x) =>
      match live vars x with
      | Some hx =>
          Some (let~ h := SimpleSharedPtr.Reset hx in sret (<[x := Some h]> vars))
      | None => None
      end
  | SPlain (DoResetPtr x p) =>
      match live vars x with
      | Some hx =>
          Some (let~ h := SimpleSharedPtr.Reset_ptr hx p in
                sret (<[x := Some h]> vars))
      | None => None
      end
  | SPlain (Destroy x) =>
      match live vars x with
      | Some hx =>
          Some (perform SimpleSharedPtr.dtor hx then sret (<[x := None]> vars))
      | None => None
      end
  | SAliasOf x y p =>
      match dead vars x, live vars y with
      | true, Some hy =>
          Some (let~ h := SimpleSharedPtr.ctor_alias hy p in
                sret (<[x := Some h]> vars))
      | _, _ => None
      end
  | SSwapWith x y =>
      match live vars x, live vars y with
      | Some hx, Some hy =>
          let '(hx', hy') := SimpleSharedPtr.Swap hx hy in
          Some (sret (<[y := Some hy']> (<[x := Some hx']> vars)))
      | _, _ => None
      end
  end.

Inductive sresult : Type :=
| SFinished (vars : frame) (s : SimpleState)
| SFaulted             (* a deallocated block was dereferenced *)
| SRejected.           (* an operation was not applicable      *)

Fixpoint simple_exec (ops : list so_op) (vars : frame) (s : SimpleState)
  : sresult :=
  match ops with
  | [] => SFinished vars s
  | op :: rest =>
      match simple_step op vars with
      | None => SRejected
      | Some m =>
          match m s with
          | Some (vars', s') => simple_exec rest vars' s'
          | None => SFaulted
          end
      end
  end.

Definition simple_start : SimpleState :=
  {| sheap := ∅; snext := O; slog := [] |}.

(** The same program on the handles of shared-from-this/shared.h. *)
Definition as_mixed (op : so_op) : mp_op :=
  match op with
  | SPlain op => OnShared op
  | SAliasOf x y p => SAlias x y p
  | SSwapWith x y => SSwap x y
  end.

(** The state of two-counter blocks that corresponds to a state of
    one-counter blocks: every block gets a weak count of 0. *)
Definition two_counters (s : SimpleState) : State :=
  {| heap := with_weak <$> sheap s; next := snext s; log := slog s |}.

(** A computation on two-counter blocks does what a computation on
    one-counter blocks does. *)
Definition agree {A : Type} (m : M A) (sm : SM A) : Prop :=
  forall s,
    m (two_counters s) =
    match sm s with
    | Some (a, s') => Ok a (two_counters s')
    | None => Undefined
    end.
(** * Properties *)

(** ** Arithmetic of the counters *)

Lemma pre_incr_small (x : Z) : 0 <= x < SIZE_MAX -> pre_incr x = x + 1.
Proof.
  unfold pre_incr, SIZE_MAX. intros H. apply Z.mod_small. lia.
Qed.

Lemma pre_decr_pos (x : Z) : 0 < x <= SIZE_MAX -> pre_decr x = x - 1.
Proof.
  unfold pre_decr, SIZE_MAX. intros H. apply Z.mod_small. lia.
Qed.

Lemma SIZE_MAX_pos : 0 < SIZE_MAX.
Proof. reflexivity. Qed.

(** In range, [--x] is zero exactly when [x] was one. *)
Lemma pre_decr_eqb_0 (x : Z) :
  0 <= x <= SIZE_MAX -> (pre_decr x =? 0) = (x =? 1).
Proof.
  intros H. destruct (Z.eq_dec x 0) as [-> | Hx].
  - reflexivity.
  - rewrite pre_decr_pos by lia.
    destruct (Z.eqb_spec (x - 1) 0), (Z.eqb_spec x 1); lia.
Qed.

(** ** C1: one control block *)

Ltac eqb_cases :=
  repeat match goal with
         | |- context [?x =? ?y] => destruct (Z.eqb_spec x y)
         end.

Lemma payload_releases_app (es fs : list effect) :
  payload_releases (es ++ fs) = (payload_releases es + payload_releases fs)%nat.
Proof. unfold payload_releases. by rewrite filter_app, length_app. Qed.

Lemma block_frees_app (es fs : list effect) :
  block_frees (es ++ fs) = (block_frees es + block_frees fs)%nat.
Proof. unfold block_frees. by rewrite filter_app, length_app. Qed.

(** The four calls, on a block of either kind, in terms of the counters. *)
Lemma cb_call_counters (op : cb_op) (b : ControlBlock) :
  let s := GetSharedCounter b in
  let w := weak_counter b in
  let '(b', es) := cb_call op b in
  match op with
  | IncShared =>
      GetSharedCounter b' = pre_incr s /\ weak_counter b' = w /\ es = []
  | DecShared =>
      GetSharedCounter b' = pre_decr s /\ weak_counter b' = w /\
      payload_releases es = (if pre_decr s =? 0 then 1%nat else 0%nat) /\
      block_frees es = (if (w =? 0) && (pre_decr s =? 0) then 1%nat else 0%nat) /\
      existsb is_delete_this es = (w =? 0) && (pre_decr s =? 0)
  | IncWeak =>
      GetSharedCounter b' = s /\ weak_counter b' = pre_incr w /\ es = []
  | DecWeak =>
      GetSharedCounter b' = s /\ weak_counter b' = pre_decr w /\
      payload_releases es = O /\
      block_frees es = (if (pre_decr w =? 0) && (s =? 0) then 1%nat else 0%nat) /\
      existsb is_delete_this es = (pre_decr w =? 0) && (s =? 0)
  end.
Proof.
  destruct op, b as [[s w p] | [s w]]; simpl;
    repeat split; try reflexivity;
    destruct (pre_decr s =? 0), (pre_decr w =? 0), (w =? 0), (s =? 0);
    reflexivity.
Qed.

(** Payload destruction and deallocation by one call on an allocated
    block whose counters are in range. *)
Lemma cb_call_effects (op : cb_op) (b : ControlBlock) :
  in_range b ->
  payload_releases (snd (cb_call op b)) =
    (if bool_decide (op = DecShared /\ GetSharedCounter b = 1) then 1%nat else 0%nat) /\
  existsb is_delete_this (snd (cb_call op b)) =
    bool_decide
      ((op = DecShared /\ GetSharedCounter b = 1 /\ weak_counter b = 0) \/
       (op = DecWeak /\ weak_counter b = 1 /\ GetSharedCounter b = 0)).
Proof.
  intros [Hs Hw]. pose proof (cb_call_counters op b) as H. cbn zeta in H.
  destruct (cb_call op b) as [b' es]. cbn [snd].
  destruct op.
  - destruct H as (_ & _ & ->).
    split; case_bool_decide; intuition (congruence || lia).
  - destruct H as (_ & _ & Hp & _ & Hd). rewrite Hp, Hd.
    rewrite pre_decr_eqb_0 by done.
    destruct (Z.eqb_spec (GetSharedCounter b) 1),
      (Z.eqb_spec (weak_counter b) 0);
      split; case_bool_decide; intuition (congruence || lia).
  - destruct H as (_ & _ & ->).
    split; case_bool_decide; intuition (congruence || lia).
  - destruct H as (_ & _ & Hp & _ & Hd). rewrite Hp, Hd.
    rewrite pre_decr_eqb_0 by done.
    destruct (Z.eqb_spec (weak_counter b) 1),
      (Z.eqb_spec (GetSharedCounter b) 0);
      split; case_bool_decide; intuition (congruence || lia).
Qed.

(** One guarded call keeps the invariant. *)
Lemma cb_inv_step (op : cb_op) (b : ControlBlock) (seen : list effect) :
  cb_inv (Live b) seen ->
  cb_guard op b = true ->
  cb_inv (if existsb is_delete_this (snd (cb_call op b))
          then Freed else Live (fst (cb_call op b)))
         (seen ++ snd (cb_call op b)).
Proof.
  intros ([Hs Hw] & Hf & Hp & Hz) Hg.
  pose proof (cb_call_counters op b) as H. cbn zeta in H.
  destruct (cb_call op b) as [b' es]. cbn [fst snd].
  pose proof SIZE_MAX_pos.
  destruct op; simpl in Hg.
  - destruct H as (Es & Ew & ->). simpl. rewrite app_nil_r.
    apply andb_prop in Hg as [G1 G2].
    apply Z.ltb_lt in G1. apply Z.ltb_lt in G2.
    rewrite pre_incr_small in Es by lia.
    unfold in_range. rewrite Es, Ew. revert Hp. eqb_cases; intros Hp.
    all: repeat split; solve [done | lia].
  - destruct H as (Es & Ew & Ep & Efr & Hd). rewrite Hd.
    apply Z.ltb_lt in Hg.
    rewrite pre_decr_pos in * by lia.
    revert Ep Efr Hp. eqb_cases; simpl; intros Ep Efr Hp.
    all: unfold in_range;
      rewrite ?payload_releases_app, ?block_frees_app, ?Es, ?Ew, ?Ep, ?Efr, ?Hp, ?Hf.
    all: eqb_cases; repeat split; solve [done | lia].
  - destruct H as (Es & Ew & ->). simpl. rewrite app_nil_r.
    apply Z.ltb_lt in Hg.
    rewrite pre_incr_small in Ew by lia.
    unfold in_range. rewrite Es, Ew.
    repeat split; solve [done | lia].
  - destruct H as (Es & Ew & Ep & Efr & Hd). rewrite Hd.
    apply Z.ltb_lt in Hg.
    rewrite pre_decr_pos in * by lia.
    revert Ep Efr Hp. eqb_cases; simpl; intros Ep Efr Hp.
    all: unfold in_range;
      rewrite ?payload_releases_app, ?block_frees_app, ?Es, ?Ew, ?Ep, ?Efr, ?Hp, ?Hf.
    all: eqb_cases; repeat split; solve [done | lia].
Qed.

(** A guarded run never touches a deallocated block, keeps the invariant,
    and can be cut at any point. *)
Lemma cb_run_split (pre rest : list cb_op) (l : life) (seen : list effect) :
  cb_inv l seen ->
  cb_guarded (pre ++ rest) l = true ->
  exists l' seen',
    cb_run pre l seen = Some (l', seen') /\
    cb_inv l' seen' /\
    cb_guarded rest l' = true /\
    cb_run (pre ++ rest) l seen = cb_run rest l' seen'.
Proof.
  revert l seen. induction pre as [| op pre IH]; intros l seen Hinv Hg.
  - exists l, seen. done.
  - simpl in Hg. destruct l as [b |]; [|done].
    apply andb_prop in Hg as [Hg1 Hg2].
    pose proof (cb_inv_step op b seen Hinv Hg1) as Hstep.
    simpl. destruct (cb_call op b) as [b' es]. simpl in Hstep.
    apply (IH _ _ Hstep Hg2).
Qed.

Lemma cb_inv_fresh (b : ControlBlock) : is_fresh b -> cb_inv (Live b) [].
Proof.
  intros [Hs Hw]. unfold cb_inv, in_range. rewrite Hs, Hw.
  pose proof SIZE_MAX_pos. repeat split; try done; lia.
Qed.

(** C1 (as stated, refuted).  "Every interleaving" of the four calls
    includes one that brings the strong counter back from zero: with one
    weak reference held, the strong counter goes 1 -> 0 -> 1 -> 0 and the
    block releases its payload twice.  The control block has no guard
    against it; the handles have (promotion tests [Expired] first). *)
Lemma payload_released_twice :
  cb_run [IncWeak; DecShared; IncShared; DecShared]
         (Live (Separate (ControlBlockPointer.ctor (Some (Ext 7))))) [] =
    Some (Live (Separate {| ControlBlockPointer.shared_cnt_ := 0;
                            ControlBlockPointer.weak_cnt_ := 1;
                            ControlBlockPointer.ptr_ := Some (Ext 7) |}),
          [DeletePayload (Some (Ext 7)); DeletePayload (Some (Ext 7))]) /\
  payload_releases [DeletePayload (Some (Ext 7)); DeletePayload (Some (Ext 7))]
    = 2%nat.
Proof. split; reflexivity. Qed.

(** C1 (amended).  For a fresh control block of either kind (strong = 1,
    weak = 0) and every sequence of increments and decrements in which no
    counter wraps around, the strong counter is never incremented once it
    is zero and nothing is called on the block after its deallocation:
    - the run is defined; at its end the payload has been released once if
      the strong counter is zero and not at all otherwise, and the block has
      been deallocated (once) exactly if both counters are zero: a block
      that is still allocated with strong = 0 has weak > 0, so it outlives
      its payload while weak references remain;
    - at every point of the run the block is allocated and its counters are
      not both zero, the next call releases the payload exactly if it is
      [DecreaseSharedCounter] at strong = 1 (whatever the weak counter),
      and it deallocates the block exactly if it is [DecreaseSharedCounter]
      at strong = 1, weak = 0 or [DecreaseWeakCounter] at weak = 1,
      strong = 0. *)
Theorem control_block_lifecycle (b : ControlBlock) (ops : list cb_op) :
  is_fresh b ->
  cb_guarded ops (Live b) = true ->
  (exists l es,
      cb_run ops (Live b) [] = Some (l, es) /\
      match l with
      | Live b' =>
          block_frees es = O /\
          payload_releases es =
            (if GetSharedCounter b' =? 0 then 1%nat else 0%nat) /\
          (GetSharedCounter b' = 0 -> 0 < weak_counter b')
      | Freed => block_frees es = 1%nat /\ payload_releases es = 1%nat
      end) /\
  (forall pre op post,
      ops = pre ++ op :: post ->
      exists b1 es1,
        cb_run pre (Live b) [] = Some (Live b1, es1) /\
        ~ (GetSharedCounter b1 = 0 /\ weak_counter b1 = 0) /\
        payload_releases (snd (cb_call op b1)) =
          (if bool_decide (op = DecShared /\ GetSharedCounter b1 = 1)
           then 1%nat else 0%nat) /\
        existsb is_delete_this (snd (cb_call op b1)) =
          bool_decide
            ((op = DecShared /\ GetSharedCounter b1 = 1 /\ weak_counter b1 = 0) \/
             (op = DecWeak /\ weak_counter b1 = 1 /\ GetSharedCounter b1 = 0))).
Proof.
  intros Hfresh Hg. apply cb_inv_fresh in Hfresh. split.
  - destruct (cb_run_split ops [] (Live b) [] Hfresh) as (l & es & Hrun & Hinv & _).
    { by rewrite app_nil_r. }
    exists l, es. split; [done|].
    destruct l as [b' |]; [|done].
    destruct Hinv as (_ & ? & ? & ?). done.
  - intros pre op post ->.
    destruct (cb_run_split pre (op :: post) (Live b) [] Hfresh Hg)
      as (l & es & Hrun & Hinv & Hg' & _).
    destruct l as [b1 |]; [|done].
    exists b1, es. split; [done|].
    destruct Hinv as (Hr & _ & _ & Hz).
    split; [intros [E0 E1]; specialize (Hz E0); lia|].
    apply (cb_call_effects op b1 Hr).
Qed.

Lemma control_block_lifecycle_witness :
  exists l es,
    cb_run [IncWeak; IncShared; DecShared; DecShared; DecWeak]
           (Live (Combined ControlBlockObject.ctor)) [] = Some (l, es) /\
    match l with
    | Live b' =>
        block_frees es = O /\
        payload_releases es =
          (if GetSharedCounter b' =? 0 then 1%nat else 0%nat) /\
        (GetSharedCounter b' = 0 -> 0 < weak_counter b')
    | Freed => block_frees es = 1%nat /\ payload_releases es = 1%nat
    end.
Proof.
  apply (control_block_lifecycle
           (Combined ControlBlockObject.ctor)
           [IncWeak; IncShared; DecShared; DecShared; DecWeak]).
  - split; reflexivity.
  - vm_compute. reflexivity.
Defined.

(** ** Calls through a pointer to an allocated block *)

Lemma IncreaseSharedCounter_spec (b : ControlBlock) :
  GetSharedCounter (fst (IncreaseSharedCounter b)) = pre_incr (GetSharedCounter b) /\
  weak_counter (fst (IncreaseSharedCounter b)) = weak_counter b /\
  snd (IncreaseSharedCounter b) = [].
Proof.
  pose proof (cb_call_counters IncShared b) as H. cbn in H.
  by destruct (IncreaseSharedCounter b).
Qed.

Lemma IncreaseWeakCounter_spec (b : ControlBlock) :
  GetSharedCounter (fst (IncreaseWeakCounter b)) = GetSharedCounter b /\
  weak_counter (fst (IncreaseWeakCounter b)) = pre_incr (weak_counter b) /\
  snd (IncreaseWeakCounter b) = [].
Proof.
  pose proof (cb_call_counters IncWeak b) as H. cbn in H.
  by destruct (IncreaseWeakCounter b).
Qed.

Lemma call_IncreaseSharedCounter (c : loc) (s : State) (b : ControlBlock) :
  heap s !! c = Some b ->
  call c IncreaseSharedCounter s =
    Ok tt {| heap := <[c := fst (IncreaseSharedCounter b)]> (heap s);
             next := next s;
             log := log s |}.
Proof.
  intros Hb. unfold call. rewrite Hb.
  destruct (IncreaseSharedCounter_spec b) as (_ & _ & He).
  destruct (IncreaseSharedCounter b) as [b' es]. simpl in *. subst es.
  simpl. by rewrite app_nil_r.
Qed.

Lemma call_IncreaseWeakCounter (c : loc) (s : State) (b : ControlBlock) :
  heap s !! c = Some b ->
  call c IncreaseWeakCounter s =
    Ok tt {| heap := <[c := fst (IncreaseWeakCounter b)]> (heap s);
             next := next s;
             log := log s |}.
Proof.
  intros Hb. unfold call. rewrite Hb.
  destruct (IncreaseWeakCounter_spec b) as (_ & _ & He).
  destruct (IncreaseWeakCounter b) as [b' es]. simpl in *. subst es.
  simpl. by rewrite app_nil_r.
Qed.

(** What a handle reports as the strong count of its block. *)
Lemma WeakPtr_GetCBCounter_spec (w : WeakPtr.t) (s : State) (n : Z) :
  WeakPtr.GetCBCounter w s = Ok n s <->
  (WeakPtr.cb_ w = None /\ n = 0) \/
  (exists c, WeakPtr.cb_ w = Some c /\ strong_at s c = Some n).
Proof.
  unfold WeakPtr.GetCBCounter, strong_at, read, ret.
  destruct (WeakPtr.cb_ w) as [c |].
  - split.
    + destruct (heap s !! c) as [b |] eqn:Hb; [|done].
      intros [= <-]. right. exists c. by rewrite Hb.
    + intros [[? _] | (c' & [= <-] & Hn)]; [done|].
      destruct (heap s !! c) as [b |]; [|done].
      by injection Hn as ->.
  - split.
    + intros [= <-]. by left.
    + intros [[_ ->] | (c & ? & _)]; done.
Qed.

Lemma WeakPtr_GetCBCounter_cases (w : WeakPtr.t) (s : State) :
  (exists n, WeakPtr.GetCBCounter w s = Ok n s) \/
  WeakPtr.GetCBCounter w s = Undefined.
Proof.
  unfold WeakPtr.GetCBCounter, read, ret.
  destruct (WeakPtr.cb_ w) as [c |]; [destruct (heap s !! c) |]; eauto.
Qed.

(** A live, unexpired block gains exactly one strong reference when a
    handle on it is made from the fields of a weak one. *)
Lemma acquire_from_weak (w : WeakPtr.t) (s : State) (c : loc) (n : Z) :
  WeakPtr.cb_ w = Some c ->
  strong_at s c = Some n ->
  0 < n < SIZE_MAX ->
  exists s',
    SharedPtr.IncreaseCBCounter
      {| SharedPtr.cb_ := WeakPtr.cb_ w;
         SharedPtr.observed_ := WeakPtr.observed_ w |} s = Ok tt s' /\
    strong_at s' c = Some (n + 1) /\
    weak_at s' c = weak_at s c /\
    (forall c', c' <> c -> heap s' !! c' = heap s !! c') /\
    next s' = next s /\
    log s' = log s.
Proof.
  intros Hc Hn Hr. unfold strong_at in Hn.
  destruct (heap s !! c) as [b |] eqn:Hb; [|done].
  injection Hn as Hn.
  unfold SharedPtr.IncreaseCBCounter. simpl. rewrite Hc.
  rewrite (call_IncreaseSharedCounter c s b Hb).
  eexists. split; [reflexivity|].
  destruct (IncreaseSharedCounter_spec b) as (Es & Ew & _).
  unfold strong_at, weak_at. simpl.
  rewrite lookup_insert_eq, Hb. simpl. rewrite Es, Ew, Hn.
  rewrite pre_incr_small by lia.
  repeat split; try done.
  intros c' Hne. by rewrite lookup_insert_ne.
Qed.

(** ** C3: tolerant promotion *)

(** C3.  [Lock()] on an expired [WeakPtr] (no block, or a block whose
    strong count is 0) returns an empty [SharedPtr] and leaves the state as
    it is.  Otherwise, the strong count [n] being positive and below the
    largest [size_t] value, it returns a [SharedPtr] with the block and the
    observed address of the [WeakPtr]; the strong count of the block is then
    [n + 1], its weak count and every other block are unchanged, and
    nothing is allocated, destroyed or deallocated. *)
Theorem Lock_spec (w : WeakPtr.t) (s : State) :
  (WeakPtr.cb_ w = None \/
   (exists c, WeakPtr.cb_ w = Some c /\ strong_at s c = Some 0) ->
   WeakPtr.Lock w s = Ok SharedPtr.ctor_default s) /\
  (forall c n,
      WeakPtr.cb_ w = Some c ->
      strong_at s c = Some n ->
      0 < n < SIZE_MAX ->
      exists s',
        WeakPtr.Lock w s =
          Ok {| SharedPtr.cb_ := Some c;
                SharedPtr.observed_ := WeakPtr.observed_ w |} s' /\
        strong_at s' c = Some (n + 1) /\
        weak_at s' c = weak_at s c /\
        (forall c', c' <> c -> heap s' !! c' = heap s !! c') /\
        next s' = next s /\
        log s' = log s).
Proof.
  split.
  - intros Hexp.
    assert (WeakPtr.GetCBCounter w s = Ok 0 s) as Hget.
    { apply WeakPtr_GetCBCounter_spec. destruct Hexp as [? | ?]; auto. }
    unfold WeakPtr.Lock, WeakPtr.Expired, bind. by rewrite Hget.
  - intros c n Hc Hn Hr.
    assert (WeakPtr.GetCBCounter w s = Ok n s) as Hget.
    { apply WeakPtr_GetCBCounter_spec. right. by exists c. }
    destruct (acquire_from_weak w s c n Hc Hn Hr) as (s' & Hinc & Hrest).
    exists s'. split; [|done].
    unfold WeakPtr.Lock, WeakPtr.Expired, bind. rewrite Hget. simpl.
    destruct (Z.eqb_spec n 0); [lia|].
    rewrite Hinc. simpl. unfold ret. by rewrite Hc.
Qed.

Lemma Lock_spec_witness :
  WeakPtr.Lock {| WeakPtr.cb_ := Some O; WeakPtr.observed_ := Some (Ext 5) |}
               (one_block 0 1 (Some (Ext 5))) =
    Ok SharedPtr.ctor_default (one_block 0 1 (Some (Ext 5))) /\
  exists s',
    WeakPtr.Lock {| WeakPtr.cb_ := Some O; WeakPtr.observed_ := Some (Ext 5) |}
                 (one_block 2 1 (Some (Ext 5))) =
      Ok {| SharedPtr.cb_ := Some O; SharedPtr.observed_ := Some (Ext 5) |} s' /\
    strong_at s' O = Some (2 + 1) /\
    weak_at s' O = weak_at (one_block 2 1 (Some (Ext 5))) O /\
    (forall c', c' <> O ->
                heap s' !! c' = heap (one_block 2 1 (Some (Ext 5))) !! c') /\
    next s' = next (one_block 2 1 (Some (Ext 5))) /\
    log s' = log (one_block 2 1 (Some (Ext 5))).
Proof.
  split.
  - apply (Lock_spec {| WeakPtr.cb_ := Some O; WeakPtr.observed_ := Some (Ext 5) |}
                     (one_block 0 1 (Some (Ext 5)))).
    right. exists O. split; reflexivity.
  - apply (Lock_spec {| WeakPtr.cb_ := Some O; WeakPtr.observed_ := Some (Ext 5) |}
                     (one_block 2 1 (Some (Ext 5)))).
    + reflexivity.
    + reflexivity.
    + unfold SIZE_MAX. lia.
Defined.

(** ** C4: strict promotion *)

(** Strict promotion throws only [BadWeakPtr], only when the strong count
    reported is 0, and leaves the state as it was. *)
Lemma promotion_throws (w : WeakPtr.t) (s : State) (e : exn) (s' : State) :
  SharedPtr_ctor_weak w s = Throw e s' ->
  e = BadWeakPtr /\ s' = s /\ WeakPtr.UseCount w s = Ok 0 s.
Proof.
  unfold SharedPtr_ctor_weak, WeakPtr.Expired, WeakPtr.UseCount, bind.
  destruct (WeakPtr_GetCBCounter_cases w s) as [[n Hget] | Hget];
    rewrite Hget; [|done]. simpl.
  destruct (Z.eqb_spec n 0) as [-> | Hn].
  - unfold throw. intros [= <- <-]. done.
  - unfold SharedPtr.IncreaseCBCounter. simpl.
    destruct (WeakPtr.cb_ w) as [c |]; [|done].
    unfold call. destruct (heap s !! c) as [b |]; [|done].
    by destruct (IncreaseSharedCounter b).
Qed.

(** Strict promotion from a [WeakPtr] whose block still has owners. *)
Lemma promotion_unexpired (w : WeakPtr.t) (s : State) (c : loc) (n : Z) :
  WeakPtr.cb_ w = Some c ->
  strong_at s c = Some n ->
  0 < n < SIZE_MAX ->
  exists s',
    SharedPtr_ctor_weak w s =
      Ok {| SharedPtr.cb_ := Some c;
            SharedPtr.observed_ := WeakPtr.observed_ w |} s' /\
    strong_at s' c = Some (n + 1) /\
    weak_at s' c = weak_at s c /\
    (forall c', c' <> c -> heap s' !! c' = heap s !! c') /\
    next s' = next s /\
    log s' = log s.
Proof.
  intros Hc Hn Hr.
  assert (WeakPtr.GetCBCounter w s = Ok n s) as Hget.
  { apply WeakPtr_GetCBCounter_spec. right. by exists c. }
  destruct (acquire_from_weak w s c n Hc Hn Hr) as (s' & Hinc & Hrest).
  exists s'. split; [|done].
  unfold SharedPtr_ctor_weak, WeakPtr.Expired, bind. rewrite Hget. simpl.
  destruct (Z.eqb_spec n 0); [lia|].
  rewrite Hinc. simpl. unfold ret. by rewrite Hc.
Qed.

(** C4.  Constructing a [SharedPtr] from a [WeakPtr] throws [BadWeakPtr]
    exactly if the [WeakPtr] reports a strong count of 0 (it has no block,
    or its block's strong count is 0), and then the state is the one
    before the call.  When the strong count [n] is positive (and below the
    largest [size_t] value) the new [SharedPtr] has the block and the
    observed address of the [WeakPtr], the strong count of the block is
    [n + 1], and nothing else changes. *)
Theorem promotion_spec (w : WeakPtr.t) (s : State) :
  ((exists e s', SharedPtr_ctor_weak w s = Throw e s') <->
   WeakPtr.UseCount w s = Ok 0 s) /\
  (WeakPtr.UseCount w s = Ok 0 s <->
   WeakPtr.cb_ w = None \/
   (exists c, WeakPtr.cb_ w = Some c /\ strong_at s c = Some 0)) /\
  (forall e s', SharedPtr_ctor_weak w s = Throw e s' -> e = BadWeakPtr /\ s' = s) /\
  (forall c n,
      WeakPtr.cb_ w = Some c ->
      strong_at s c = Some n ->
      0 < n < SIZE_MAX ->
      exists s',
        SharedPtr_ctor_weak w s =
          Ok {| SharedPtr.cb_ := Some c;
                SharedPtr.observed_ := WeakPtr.observed_ w |} s' /\
        strong_at s' c = Some (n + 1) /\
        weak_at s' c = weak_at s c /\
        (forall c', c' <> c -> heap s' !! c' = heap s !! c') /\
        next s' = next s /\
        log s' = log s).
Proof.
  repeat split.
  - intros (e & s' & H). by apply promotion_throws in H as (_ & _ & ?).
  - intros Hget. exists BadWeakPtr, s.
    unfold WeakPtr.UseCount in Hget.
    unfold SharedPtr_ctor_weak, WeakPtr.Expired, bind. by rewrite Hget.
  - intros Hget. apply WeakPtr_GetCBCounter_spec in Hget as [[? _] | ?]; auto.
  - intros H. apply WeakPtr_GetCBCounter_spec. destruct H; auto.
  - by apply promotion_throws in H as (? & _ & _).
  - by apply promotion_throws in H as (_ & ? & _).
  - apply promotion_unexpired.
Qed.

Lemma promotion_spec_witness :
  exists s',
    SharedPtr_ctor_weak
      {| WeakPtr.cb_ := Some O; WeakPtr.observed_ := Some (Ext 5) |}
      (one_block 1 1 (Some (Ext 5))) =
      Ok {| SharedPtr.cb_ := Some O; SharedPtr.observed_ := Some (Ext 5) |} s' /\
    strong_at s' O = Some (1 + 1) /\
    weak_at s' O = weak_at (one_block 1 1 (Some (Ext 5))) O /\
    (forall c', c' <> O ->
                heap s' !! c' = heap (one_block 1 1 (Some (Ext 5))) !! c') /\
    next s' = next (one_block 1 1 (Some (Ext 5))) /\
    log s' = log (one_block 1 1 (Some (Ext 5))).
Proof.
  apply (promotion_spec
           {| WeakPtr.cb_ := Some O; WeakPtr.observed_ := Some (Ext 5) |}
           (one_block 1 1 (Some (Ext 5)))).
  - reflexivity.
  - reflexivity.
  - unfold SIZE_MAX. lia.
Defined.

(** ** C5: expiry *)

Lemma Expired_spec (w : WeakPtr.t) (s : State) :
  WeakPtr.Expired w s = Ok true s <->
  WeakPtr.cb_ w = None \/
  (exists c, WeakPtr.cb_ w = Some c /\ strong_at s c = Some 0).
Proof.
  unfold WeakPtr.Expired, bind, ret. split.
  - destruct (WeakPtr_GetCBCounter_cases w s) as [[n Hget] | Hget];
      rewrite Hget; [|done].
    destruct (Z.eqb_spec n 0) as [-> | Hn]; [|done]. intros _.
    apply WeakPtr_GetCBCounter_spec in Hget as [[? _] | ?]; auto.
  - intros H.
    assert (WeakPtr.GetCBCounter w s = Ok 0 s) as ->; [|done].
    apply WeakPtr_GetCBCounter_spec. destruct H; auto.
Qed.

Lemma Expired_false_spec (w : WeakPtr.t) (s : State) :
  WeakPtr.Expired w s = Ok false s <->
  exists c n, WeakPtr.cb_ w = Some c /\ strong_at s c = Some n /\ n <> 0.
Proof.
  unfold WeakPtr.Expired, bind, ret. split.
  - destruct (WeakPtr_GetCBCounter_cases w s) as [[n Hget] | Hget];
      rewrite Hget; [|done].
    destruct (Z.eqb_spec n 0) as [-> | Hn]; [done|]. intros _.
    apply WeakPtr_GetCBCounter_spec in Hget as [[_ ?] | (c & ? & ?)]; [done|].
    by exists c, n.
  - intros (c & n & Hc & Hn & Hne).
    assert (WeakPtr.GetCBCounter w s = Ok n s) as ->.
    { apply WeakPtr_GetCBCounter_spec. right. by exists c. }
    by destruct (Z.eqb_spec n 0).
Qed.

(** Destruction of the last owner of a block that is still observed. *)
Lemma last_owner_dtor (h : SharedPtr.t) (s : State) (c : loc) (b : ControlBlock) :
  SharedPtr.cb_ h = Some c ->
  heap s !! c = Some b ->
  GetSharedCounter b = 1 ->
  0 < weak_counter b ->
  exists s',
    SharedPtr.dtor h s = Ok tt s' /\
    strong_at s' c = Some 0 /\
    weak_at s' c = Some (weak_counter b) /\
    payload_releases (map snd (log s')) = S (payload_releases (map snd (log s))) /\
    block_frees (map snd (log s')) = block_frees (map snd (log s)).
Proof.
  intros Hc Hb Hs Hw.
  unfold SharedPtr.dtor, SharedPtr.DecreaseCBCounter, call. rewrite Hc, Hb.
  pose proof (cb_call_counters DecShared b) as H. cbn in H.
  destruct (DecreaseSharedCounter b) as [b' es].
  destruct H as (Es & Ew & Ep & Ef & Hd).
  rewrite Hs in *. change (pre_decr 1) with 0 in *.
  destruct (Z.eqb_spec (weak_counter b) 0); [lia|]. simpl in *.
  rewrite Hd. eexists. split; [reflexivity|].
  unfold strong_at, weak_at. simpl. rewrite lookup_insert_eq. simpl.
  rewrite Es, Ew, map_app, map_map. simpl. rewrite map_id.
  rewrite payload_releases_app, block_frees_app, Ep, Ef.
  repeat split; lia.
Qed.

(** C5.  [Expired()] returns true exactly if the [WeakPtr] has no control
    block or the strong count of its block is 0, and false exactly if the
    strong count of its block is not 0.  In particular, when the last owner
    of a block with weak references is destroyed, the strong count is 0,
    the payload has been released, the block stays allocated with its weak
    count, and every [WeakPtr] on that block reports [Expired() == true]. *)
Theorem Expired_iff (w : WeakPtr.t) (s : State) :
  (WeakPtr.Expired w s = Ok true s <->
   WeakPtr.cb_ w = None \/
   (exists c, WeakPtr.cb_ w = Some c /\ strong_at s c = Some 0)) /\
  (WeakPtr.Expired w s = Ok false s <->
   exists c n, WeakPtr.cb_ w = Some c /\ strong_at s c = Some n /\ n <> 0) /\
  (forall h c b,
      WeakPtr.cb_ w = Some c ->
      SharedPtr.cb_ h = Some c ->
      heap s !! c = Some b ->
      GetSharedCounter b = 1 ->
      0 < weak_counter b ->
      exists s',
        SharedPtr.dtor h s = Ok tt s' /\
        strong_at s' c = Some 0 /\
        weak_at s' c = Some (weak_counter b) /\
        payload_releases (map snd (log s')) =
          S (payload_releases (map snd (log s))) /\
        WeakPtr.Expired w s' = Ok true s').
Proof.
  split; [apply Expired_spec|]. split; [apply Expired_false_spec|].
  intros h c b Hw Hh Hb Hs Hpos.
  destruct (last_owner_dtor h s c b Hh Hb Hs Hpos) as (s' & Hd & H0 & Hwk & Hp & _).
  exists s'. repeat split; try done.
  apply Expired_spec. right. by exists c.
Qed.

Lemma Expired_iff_witness :
  exists s',
    SharedPtr.dtor {| SharedPtr.cb_ := Some O; SharedPtr.observed_ := Some (Ext 5) |}
                   (one_block 1 2 (Some (Ext 5))) = Ok tt s' /\
    strong_at s' O = Some 0 /\
    weak_at s' O = Some 2 /\
    payload_releases (map snd (log s')) = 1%nat /\
    WeakPtr.Expired {| WeakPtr.cb_ := Some O; WeakPtr.observed_ := nullptr |} s'
      = Ok true s'.
Proof.
  apply (proj2 (proj2 (Expired_iff
                  {| WeakPtr.cb_ := Some O; WeakPtr.observed_ := nullptr |}
                  (one_block 1 2 (Some (Ext 5)))))
           {| SharedPtr.cb_ := Some O; SharedPtr.observed_ := Some (Ext 5) |}
           O
           (Separate {| ControlBlockPointer.shared_cnt_ := 1;
                        ControlBlockPointer.weak_cnt_ := 2;
                        ControlBlockPointer.ptr_ := Some (Ext 5) |})).
  - reflexivity.
  - reflexivity.
  - reflexivity.
  - reflexivity.
  - reflexivity.
Defined.

(** ** C9: assignment of a SharedPtr to a WeakPtr on the same block *)

(** C9.  [w = s] returns at once when [w] already refers to the control
    block of [s]: [w] keeps its observed address, also when [s] exposes
    another one, and the state (every counter) is as before. *)
Theorem assign_shared_same_block (w : WeakPtr.t) (other : SharedPtr.t) (s : State) :
  WeakPtr.cb_ w = SharedPtr.cb_ other ->
  WeakPtr.operator_assign_shared w other s = Ok w s.
Proof.
  intros H. unfold WeakPtr.operator_assign_shared.
  by destruct (decide (WeakPtr.cb_ w = SharedPtr.cb_ other)).
Qed.

Lemma assign_shared_same_block_witness :
  WeakPtr.operator_assign_shared
    {| WeakPtr.cb_ := Some O; WeakPtr.observed_ := Some (Ext 5) |}
    {| SharedPtr.cb_ := Some O; SharedPtr.observed_ := Some (Ext 9) |}
    (one_block 2 1 (Some (Ext 5))) =
  Ok {| WeakPtr.cb_ := Some O; WeakPtr.observed_ := Some (Ext 5) |}
     (one_block 2 1 (Some (Ext 5))).
Proof.
  apply (assign_shared_same_block
           {| WeakPtr.cb_ := Some O; WeakPtr.observed_ := Some (Ext 5) |}
           {| SharedPtr.cb_ := Some O; SharedPtr.observed_ := Some (Ext 9) |}
           (one_block 2 1 (Some (Ext 5)))).
  reflexivity.
Defined.

(** ** C10: handles without a control block *)

(** C10 (as stated, refuted).  The aliasing constructor applied to an
    empty source and a non-null address gives a handle without a control
    block whose [operator bool()] is true: the conversion tests the
    observed address, not the block. *)
Lemma empty_alias_converts_to_true :
  SharedPtr.ctor_alias SharedPtr.ctor_default (Some (Ext 1)) start =
    Ok {| SharedPtr.cb_ := None; SharedPtr.observed_ := Some (Ext 1) |} start /\
  SharedPtr.cb_ {| SharedPtr.cb_ := None; SharedPtr.observed_ := Some (Ext 1) |}
    = None /\
  SharedPtr.operator_bool
    {| SharedPtr.cb_ := None; SharedPtr.observed_ := Some (Ext 1) |} = true.
Proof. repeat split. Qed.

(** C10 (amended).  In any state, also one in which no block is allocated,
    the operations on a [SharedPtr] [h] and a [WeakPtr] [w] without a
    control block return normally and leave the state as it is:
    destruction, [Reset], copy and move construction, copy and move
    assignment between two such handles, and [Swap] (which only exchanges
    the fields); [UseCount()] is 0; [w.Expired()] is true and [w.Lock()] is
    an empty handle.  [operator bool()] of [h] is false exactly if the
    observed address of [h] is null. *)
Theorem empty_handle_operations
  (h other : SharedPtr.t) (w wother : WeakPtr.t) (x y : nat) (s : State) :
  SharedPtr.cb_ h = None ->
  WeakPtr.cb_ w = None ->
  (SharedPtr.dtor h s = Ok tt s /\
   SharedPtr.Reset h s = Ok SharedPtr.ctor_default s /\
   SharedPtr.ctor_copy h s = Ok h s /\
   SharedPtr.ctor_move h = (h, SharedPtr.ctor_default) /\
   (SharedPtr.cb_ other = None ->
    SharedPtr.operator_assign x y h other s =
      Ok (if Nat.eqb x y then h else other) s /\
    SharedPtr.operator_assign_move x y h other s =
      Ok (if Nat.eqb x y then (h, other) else (other, SharedPtr.ctor_default)) s) /\
   SharedPtr.Swap h other = (other, h) /\
   SharedPtr.UseCount h s = Ok 0 s /\
   (SharedPtr.operator_bool h = false <-> SharedPtr.observed_ h = nullptr)) /\
  (WeakPtr.dtor w s = Ok tt s /\
   WeakPtr.Reset w s = Ok WeakPtr.ctor_default s /\
   WeakPtr.ctor_copy w s = Ok w s /\
   WeakPtr.ctor_move w = (w, WeakPtr.ctor_default) /\
   (WeakPtr.cb_ wother = None ->
    WeakPtr.operator_assign x y w wother s =
      Ok (if Nat.eqb x y then w else wother) s /\
    WeakPtr.operator_assign_move x y w wother s =
      Ok (if Nat.eqb x y then (w, wother) else (wother, WeakPtr.ctor_default)) s) /\
   WeakPtr.Swap w wother = (wother, w) /\
   WeakPtr.UseCount w s = Ok 0 s /\
   WeakPtr.Expired w s = Ok true s /\
   WeakPtr.Lock w s = Ok SharedPtr.ctor_default s).
Proof.
  destruct h as [hc ho], other as [oc oo], w as [wc wo], wother as [vc vo].
  simpl. intros -> ->.
  split; repeat split; simpl in *; subst;
    unfold SharedPtr.operator_assign, SharedPtr.operator_assign_move,
      WeakPtr.operator_assign, WeakPtr.operator_assign_move;
    try (destruct (Nat.eqb x y); reflexivity);
    by destruct ho.
Qed.

Lemma empty_handle_operations_witness :
  SharedPtr.dtor {| SharedPtr.cb_ := None; SharedPtr.observed_ := Some (Ext 1) |}
                 start = Ok tt start /\
  WeakPtr.Expired WeakPtr.ctor_default start = Ok true start.
Proof.
  pose proof (empty_handle_operations
                {| SharedPtr.cb_ := None; SharedPtr.observed_ := Some (Ext 1) |}
                SharedPtr.ctor_default WeakPtr.ctor_default WeakPtr.ctor_default
                O 1%nat start) as H.
  split; apply H; reflexivity.
Defined.

(** ** C6: demotion *)

(** The demotion constructor copies both fields; it adds a weak reference
    only if the observed address is not null and there is a block. *)
Lemma ctor_shared_spec (other : SharedPtr.t) (s : State) :
  let w := {| WeakPtr.cb_ := SharedPtr.cb_ other;
              WeakPtr.observed_ := SharedPtr.observed_ other |} in
  (SharedPtr.cb_ other = None \/ SharedPtr.observed_ other = nullptr ->
   WeakPtr.ctor_shared other s = Ok w s) /\
  (forall c b,
      SharedPtr.cb_ other = Some c ->
      SharedPtr.observed_ other <> nullptr ->
      heap s !! c = Some b ->
      WeakPtr.ctor_shared other s =
        Ok w {| heap := <[c := fst (IncreaseWeakCounter b)]> (heap s);
                next := next s;
                log := log s |}).
Proof.
  destruct other as [oc oo]. simpl. split.
  - unfold WeakPtr.ctor_shared, SharedPtr.operator_bool. simpl.
    intros [-> | ->]; [by destruct oo | done].
  - intros c b -> Ho Hb.
    unfold WeakPtr.ctor_shared, SharedPtr.operator_bool. simpl.
    destruct oo as [a |]; [|done]. simpl.
    unfold bind, WeakPtr.IncreaseCBCounter. simpl.
    by rewrite (call_IncreaseWeakCounter c s b Hb).
Qed.

(** C6 (the code departs from the claim).  A [SharedPtr] made from a null
    raw address holds a control block and observes nothing.  Demoting it
    gives a [WeakPtr] on that block without adding a weak reference: the
    state is unchanged and the weak count is still 0.  The assignment
    [w = s] from the same handle does add one.  The unregistered [WeakPtr]
    then takes a reference away when it is destroyed: the weak count wraps
    around to the largest [size_t] value.  And if the [SharedPtr] is
    destroyed first, the block is deallocated under the [WeakPtr], whose
    [Expired()] then reads deallocated memory. *)
Theorem demotion_of_null_observed :
  let sp := {| SharedPtr.cb_ := Some O; SharedPtr.observed_ := nullptr |} in
  let w := {| WeakPtr.cb_ := Some O; WeakPtr.observed_ := nullptr |} in
  SharedPtr.ctor_ptr nullptr start = Ok sp (one_block 1 0 nullptr) /\
  WeakPtr.ctor_shared sp (one_block 1 0 nullptr) = Ok w (one_block 1 0 nullptr) /\
  weak_at (one_block 1 0 nullptr) O = Some 0 /\
  WeakPtr.operator_assign_shared WeakPtr.ctor_default sp (one_block 1 0 nullptr)
    = Ok w (one_block 1 1 nullptr) /\
  WeakPtr.dtor w (one_block 1 0 nullptr) = Ok tt (one_block 1 SIZE_MAX nullptr) /\
  SharedPtr.dtor sp (one_block 1 0 nullptr) =
    Ok tt {| heap := ∅; next := 1%nat;
             log := [(O, DeletePayload nullptr); (O, DeleteThis)] |} /\
  WeakPtr.Expired w {| heap := ∅; next := 1%nat;
                       log := [(O, DeletePayload nullptr); (O, DeleteThis)] |}
    = Undefined.
Proof. repeat split. Qed.

(** ** C7: observed address and control block *)

(** C7 (as stated, refuted).  Adoption of a null raw address allocates a
    control block all the same: the handle has a block and no observed
    address. *)
Lemma adopted_null_has_block :
  SharedPtr.ctor_ptr nullptr start =
    Ok {| SharedPtr.cb_ := Some O; SharedPtr.observed_ := nullptr |}
       (one_block 1 0 nullptr) /\
  ~ observed_iff_block {| SharedPtr.cb_ := Some O; SharedPtr.observed_ := nullptr |}.
Proof.
  split; [reflexivity|]. unfold observed_iff_block. simpl.
  intros [H _]. by specialize (H eq_refl).
Qed.

Lemma bind_Ok {A B : Type} (m : M A) (k : A -> M B) (s s' : State) (b : B) :
  bind m k s = Ok b s' ->
  exists a s1, m s = Ok a s1 /\ k a s1 = Ok b s'.
Proof.
  unfold bind. destruct (m s) as [a s1 | |]; [|done|done]. eauto.
Qed.

(** Takes apart the hypotheses that say a computation returned. *)
Ltac monad_inv :=
  repeat match goal with
         | H : bind _ _ _ = Ok _ _ |- _ =>
             apply bind_Ok in H as (? & ? & ? & H)
         | H : ret _ _ = Ok _ _ |- _ => unfold ret in H; simplify_eq
         | H : throw _ _ = Ok _ _ |- _ => discriminate H
         | H : (if ?b then _ else _) _ = Ok _ _ |- _ => destruct b eqn:?
         end.

Ltac handles :=
  repeat match goal with |- Forall _ _ => constructor end;
  auto;
  try (unfold observed_iff_block, nullptr in *; simpl;
       first [assumption | split; congruence]).

Lemma observed_iff_block_empty :
  observed_iff_block {| SharedPtr.cb_ := None; SharedPtr.observed_ := nullptr |}.
Proof. done. Qed.

Lemma observed_iff_block_eta (h : SharedPtr.t) :
  observed_iff_block h ->
  observed_iff_block {| SharedPtr.cb_ := SharedPtr.cb_ h;
                        SharedPtr.observed_ := SharedPtr.observed_ h |}.
Proof. by destruct h. Qed.

(** C7 (amended).  Default and null construction, [MakeShared] and
    [Reset()] give a handle whose observed address is null exactly if it
    has no control block.  Copy and move (construction and assignment),
    promotion and [Swap] give handles with the fields of their sources, so
    the same holds of the results when it holds of the sources.  Adoption
    of a raw address (by the constructor or by [Reset(ptr)]) always gives
    a handle with a control block, so it holds when the address is not
    null.  The aliasing constructor takes the block of its source and the
    address it is given, so it holds when that address is null exactly if
    the source has no block. *)
Theorem observed_iff_block_produced
  (op : sp_make) (s : State) (hs : list SharedPtr.t) (s' : State) :
  sources_ok op ->
  produce op s = Ok hs s' ->
  Forall observed_iff_block hs.
Proof.
  pose proof observed_iff_block_empty as He.
  pose proof observed_iff_block_eta as Hh.
  intros Hok Hrun.
  destruct op; unfold produce in Hrun; unfold sources_ok in Hok;
    unfold SharedPtr.ctor_ptr, SharedPtr.MakeShared, SharedPtr.ctor_copy,
      SharedPtr.ctor_move, SharedPtr.ctor_alias, SharedPtr_ctor_weak,
      SharedPtr.operator_assign, SharedPtr.operator_assign_move,
      SharedPtr.Reset, SharedPtr.Reset_ptr, SharedPtr.Swap in Hrun;
    monad_inv;
    try match type of Hok with _ /\ _ => destruct Hok end;
    cbn [fst snd]; handles.
  unfold new_block in *. simplify_eq.
  unfold read in *. simpl in *. rewrite lookup_insert_eq in *.
  simplify_eq. unfold GetPointer, ControlBlockObject.GetPointer. handles.
Qed.

Lemma observed_iff_block_produced_witness :
  Forall observed_iff_block
         [{| SharedPtr.cb_ := Some O; SharedPtr.observed_ := Some (Ext 9) |}].
Proof.
  apply (observed_iff_block_produced
           (MkAlias {| SharedPtr.cb_ := Some O; SharedPtr.observed_ := Some (Ext 5) |}
                    (Some (Ext 9)))
           (one_block 1 0 (Some (Ext 5)))
           [{| SharedPtr.cb_ := Some O; SharedPtr.observed_ := Some (Ext 9) |}]
           (one_block 2 0 (Some (Ext 5)))).
  - simpl. split; discriminate.
  - reflexivity.
Defined.

(** ** C8: shared-from-this *)

(** After the back-reference is filled, the block of the new handle holds
    one strong and one weak reference. *)
Lemma backref_after_creation (sp : SharedPtr.t) (s : State) (c : loc) (b : ControlBlock) :
  SharedPtr.cb_ sp = Some c ->
  SharedPtr.observed_ sp <> nullptr ->
  heap s !! c = Some b ->
  is_fresh b ->
  exists s',
    WeakPtr.ctor_shared sp s =
      Ok {| WeakPtr.cb_ := Some c; WeakPtr.observed_ := SharedPtr.observed_ sp |} s' /\
    strong_at s' c = Some 1 /\
    weak_at s' c = Some 1.
Proof.
  intros Hc Ho Hb [Hs Hw].
  destruct (ctor_shared_spec sp s) as [_ H].
  rewrite (H c b Hc Ho Hb), Hc. eexists. split; [reflexivity|].
  destruct (IncreaseWeakCounter_spec b) as (Es & Ew & _).
  unfold strong_at, weak_at. simpl. rewrite lookup_insert_eq. simpl.
  by rewrite Es, Ew, Hs, Hw.
Qed.

(** A copy of a [WeakPtr] on an allocated block adds one weak reference. *)
Lemma WeakPtr_ctor_copy_spec (w : WeakPtr.t) (s : State) (c : loc) (n m : Z) :
  WeakPtr.cb_ w = Some c ->
  strong_at s c = Some n ->
  weak_at s c = Some m ->
  0 <= m < SIZE_MAX ->
  exists s',
    WeakPtr.ctor_copy w s = Ok w s' /\
    strong_at s' c = Some n /\
    weak_at s' c = Some (m + 1) /\
    (forall c', c' <> c -> heap s' !! c' = heap s !! c') /\
    next s' = next s.
Proof.
  intros Hc Hn Hm Hr. unfold strong_at, weak_at in *.
  destruct (heap s !! c) as [b |] eqn:Hb; [|done].
  injection Hn as Hn. injection Hm as Hm.
  unfold WeakPtr.ctor_copy, bind, WeakPtr.IncreaseCBCounter. simpl. rewrite Hc.
  rewrite (call_IncreaseWeakCounter c s b Hb). unfold ret.
  eexists. split; [by destruct w; simpl in *; subst|].
  destruct (IncreaseWeakCounter_spec b) as (Es & Ew & _).
  simpl. rewrite lookup_insert_eq. simpl. rewrite Es, Ew, Hn, Hm.
  rewrite pre_incr_small by done. repeat split; try done.
  intros c' Hne. by rewrite lookup_insert_ne.
Qed.

(** C8.  With the back-reference modelled as the specification describes
    it: placing an instance under shared ownership, by adoption of its
    address or by combined allocation, gives a handle on a block [c] with
    one strong reference and a back-reference to the same block.  In every
    later state in which that block still has owners, [SharedFromThis]
    returns a [SharedPtr] on [c] and [WeakFromThis] a [WeakPtr] on [c]; the
    strong (resp. weak) count of [c] goes up by one, no block is allocated
    and no other block changes. *)
Theorem from_this_shares_block (combined : bool) (a : nat) (s : State) :
  exists sp o s1 c,
    (if combined
     then EnableSharedFromThis.make_shared
     else EnableSharedFromThis.adopt a) s = Ok (sp, o) s1 /\
    SharedPtr.cb_ sp = Some c /\
    WeakPtr.cb_ (EnableSharedFromThis.weak_this_ o) = Some c /\
    strong_at s1 c = Some 1 /\
    weak_at s1 c = Some 1 /\
    forall s2 n m,
      strong_at s2 c = Some n ->
      weak_at s2 c = Some m ->
      0 < n < SIZE_MAX ->
      0 <= m < SIZE_MAX ->
      (exists r s3,
          EnableSharedFromThis.SharedFromThis o s2 = Ok r s3 /\
          SharedPtr.cb_ r = Some c /\
          strong_at s3 c = Some (n + 1) /\
          weak_at s3 c = Some m /\
          (forall c', c' <> c -> heap s3 !! c' = heap s2 !! c') /\
          next s3 = next s2) /\
      (exists v s3,
          EnableSharedFromThis.WeakFromThis o s2 = Ok v s3 /\
          WeakPtr.cb_ v = Some c /\
          strong_at s3 c = Some n /\
          weak_at s3 c = Some (m + 1) /\
          (forall c', c' <> c -> heap s3 !! c' = heap s2 !! c') /\
          next s3 = next s2).
Proof.
  assert (exists sp o s1 c,
             (if combined
              then EnableSharedFromThis.make_shared
              else EnableSharedFromThis.adopt a) s = Ok (sp, o) s1 /\
             SharedPtr.cb_ sp = Some c /\
             WeakPtr.cb_ (EnableSharedFromThis.weak_this_ o) = Some c /\
             strong_at s1 c = Some 1 /\
             weak_at s1 c = Some 1) as (sp & o & s1 & c & Hrun & Hsp & Ho & H1 & H2).
  { destruct combined.
    - unfold EnableSharedFromThis.make_shared, SharedPtr.MakeShared.
      unfold bind at 1 2. unfold new_block at 1. unfold bind at 1.
      unfold read. simpl. rewrite lookup_insert_eq. unfold ret at 2. simpl.
      edestruct (backref_after_creation
                   {| SharedPtr.cb_ := Some (next s);
                      SharedPtr.observed_ := Some (Emb (next s)) |})
        as (s1 & Hw & Hs1 & Hw1); [reflexivity | done | | | ].
      3: { unfold bind at 1. unfold ControlBlockObject.GetPointer.
           rewrite Hw. unfold ret. simpl.
           eexists _, _, _, _. split; [reflexivity|]. simpl. eauto. }
      + simpl. apply lookup_insert_eq.
      + done.
    - unfold EnableSharedFromThis.adopt, SharedPtr.ctor_ptr.
      unfold bind at 1 2. unfold new_block at 1. unfold ret at 1. simpl.
      edestruct (backref_after_creation
                   {| SharedPtr.cb_ := Some (next s);
                      SharedPtr.observed_ := Some (Ext a) |})
        as (s1 & Hw & Hs1 & Hw1); [reflexivity | done | | | ].
      3: { unfold bind at 1. rewrite Hw. unfold ret. simpl.
           eexists _, _, _, _. split; [reflexivity|]. simpl. eauto. }
      + simpl. apply lookup_insert_eq.
      + done. }
  exists sp, o, s1, c. repeat (split; [done|]).
  intros s2 n m Hn Hm Hrn Hrm. split.
  - destruct (promotion_unexpired (EnableSharedFromThis.weak_this_ o) s2 c n
                Ho Hn Hrn) as (s3 & Hp & Hs3 & Hw3 & Hother & Hnext & _).
    eexists _, s3. split; [exact Hp|]. simpl.
    rewrite Hw3. done.
  - destruct (WeakPtr_ctor_copy_spec (EnableSharedFromThis.weak_this_ o) s2 c n m
                Ho Hn Hm Hrm) as (s3 & Hp & Hs3 & Hw3 & Hother & Hnext).
    eexists _, s3. split; [exact Hp|]. done.
Qed.

Lemma from_this_shares_block_witness :
  exists sp o s1 c r s3,
    EnableSharedFromThis.adopt 7 start = Ok (sp, o) s1 /\
    SharedPtr.cb_ sp = Some c /\
    EnableSharedFromThis.SharedFromThis o s1 = Ok r s3 /\
    SharedPtr.cb_ r = Some c /\
    strong_at s3 c = Some (1 + 1) /\
    next s3 = next s1.
Proof.
  destruct (from_this_shares_block false 7 start)
    as (sp & o & s1 & c & Hrun & Hsp & _ & H1 & H2 & H).
  destruct (H s1 1 1 H1 H2) as [(r & s3 & Hr & Hc & Hs & _ & _ & Hn) _].
  - unfold SIZE_MAX. lia.
  - unfold SIZE_MAX. lia.
  - exists sp, o, s1, c, r, s3. done.
Defined.

(** ** C2: the strong count is the number of owners *)

Lemma live_Some (vars : frame) (x : nat) (h : SharedPtr.t) :
  live vars x = Some h <-> vars !! x = Some (Some h).
Proof.
  unfold live. destruct (vars !! x) as [[h' |] |]; split; congruence.
Qed.

Lemma dead_true (vars : frame) (x : nat) :
  dead vars x = true <-> vars !! x = Some None.
Proof.
  unfold dead. destruct (vars !! x) as [[h' |] |]; split; congruence.
Qed.

Lemma holds_true (c : loc) (h : SharedPtr.t) :
  holds c (Some h) = true <-> SharedPtr.cb_ h = Some c.
Proof. simpl. apply bool_decide_eq_true. Qed.

Lemma holds_false (c : loc) (h : SharedPtr.t) :
  holds c (Some h) = false <-> SharedPtr.cb_ h <> Some c.
Proof. simpl. apply bool_decide_eq_false. Qed.

Lemma unowning_None : unowning None.
Proof. done. Qed.

Lemma unowning_empty :
  unowning (Some {| SharedPtr.cb_ := None; SharedPtr.observed_ := nullptr |}).
Proof. done. Qed.

Lemma owners_insert (c : loc) (vars : frame) (x : nat) (v v' : option SharedPtr.t) :
  vars !! x = Some v ->
  (owners c (<[x := v']> vars) + (if holds c v then 1 else 0) =
   owners c vars + (if holds c v' then 1 else 0))%nat.
Proof.
  revert x. induction vars as [| u vars IH]; intros [| x] Hx; simpl in *;
    simplify_eq.
  - destruct (holds c v), (holds c v'); lia.
  - specialize (IH x Hx). destruct (holds c u); lia.
Qed.

Lemma owners_le_length (c : loc) (vars : frame) :
  (owners c vars <= length vars)%nat.
Proof.
  induction vars as [| u vars IH]; simpl; [lia|].
  destruct (holds c u); lia.
Qed.

Lemma owners_replicate_None (c : loc) (n : nat) : owners c (replicate n None) = O.
Proof. induction n; simpl; auto. Qed.

Lemma owners_insert_same (c : loc) (vars : frame) (x : nat) (v v' : option SharedPtr.t) :
  vars !! x = Some v ->
  holds c v = holds c v' ->
  owners c (<[x := v']> vars) = owners c vars.
Proof.
  intros Hx Hv. pose proof (owners_insert c vars x v v' Hx) as H.
  rewrite Hv in H. destruct (holds c v'); lia.
Qed.

Lemma owners_insert_release (c : loc) (vars : frame) (x : nat) (v v' : option SharedPtr.t) :
  vars !! x = Some v ->
  holds c v = true ->
  holds c v' = false ->
  owners c vars = S (owners c (<[x := v']> vars)).
Proof.
  intros Hx Hv Hv'. pose proof (owners_insert c vars x v v' Hx) as H.
  rewrite Hv, Hv' in H. lia.
Qed.

Lemma owners_insert_acquire (c : loc) (vars : frame) (x : nat) (v v' : option SharedPtr.t) :
  vars !! x = Some v ->
  holds c v = false ->
  holds c v' = true ->
  owners c (<[x := v']> vars) = S (owners c vars).
Proof.
  intros Hx Hv Hv'. pose proof (owners_insert c vars x v v' Hx) as H.
  rewrite Hv, Hv' in H. lia.
Qed.

Lemma owners_live (c : loc) (vars : frame) (x : nat) (h : SharedPtr.t) :
  vars !! x = Some (Some h) ->
  SharedPtr.cb_ h = Some c ->
  (0 < owners c vars)%nat.
Proof.
  intros Hx Hc.
  pose proof (owners_insert c vars x (Some h) None Hx) as H.
  apply holds_true in Hc. rewrite Hc in H. simpl in H. lia.
Qed.

(** The block of a live handle is allocated and counts its owners. *)
Lemma counted_block (n : nat) (vars : frame) (s : State)
      (x : nat) (h : SharedPtr.t) (c : loc) :
  counted n vars s ->
  vars !! x = Some (Some h) ->
  SharedPtr.cb_ h = Some c ->
  exists b,
    heap s !! c = Some b /\
    GetSharedCounter b = Z.of_nat (owners c vars) /\
    (0 < owners c vars <= n)%nat /\
    weak_counter b = 0.
Proof.
  intros (Hlen & Hn & Hnext & Hcnt) Hx Hc.
  pose proof (owners_live c vars x h Hx Hc) as Hpos.
  pose proof (owners_le_length c vars) as Hle.
  specialize (Hcnt c). destruct (heap s !! c) as [b |]; [|lia].
  exists b. destruct Hcnt as (? & ? & ?). repeat split; try done. lia.
Qed.

(** Giving up the reference of a live handle: the variable becomes
    [v'], which refers to nothing. *)
Lemma counted_release (n : nat) (vars : frame) (s : State)
      (x : nat) (h : SharedPtr.t) (v' : option SharedPtr.t) :
  counted n vars s ->
  vars !! x = Some (Some h) ->
  unowning v' ->
  exists s',
    SharedPtr.DecreaseCBCounter h s = Ok tt s' /\
    counted n (<[x := v']> vars) s'.
Proof.
  intros Hcnt Hx Hv'.
  destruct (SharedPtr.cb_ h) as [c0 |] eqn:Hc.
  - destruct (counted_block _ _ _ _ _ _ Hcnt Hx Hc) as (b & Hb & Hs & [Hpos Hle] & Hw).
    destruct Hcnt as (Hlen & Hn & Hnext & Hall).
    assert (owners c0 vars = S (owners c0 (<[x := v']> vars))) as Hrel.
    { apply owners_insert_release with (Some h); [done | by apply holds_true | apply Hv']. }
    assert (forall c, c <> c0 -> owners c (<[x := v']> vars) = owners c vars) as Hsame.
    { intros c Hne. apply owners_insert_same with (Some h); [done|].
      rewrite Hv'. apply holds_false. congruence. }
    unfold SharedPtr.DecreaseCBCounter, call. rewrite Hc, Hb.
    pose proof (cb_call_counters DecShared b) as H. cbn in H.
    destruct (DecreaseSharedCounter b) as [b' es].
    destruct H as (Es & Ew & _ & _ & Hd). rewrite Hd, Hw.
    rewrite pre_decr_pos in * by lia. simpl.
    eexists. split; [reflexivity|].
    unfold counted. simpl. rewrite length_insert.
    split; [done|]. split; [done|]. split.
    + intros c Hge. destruct (decide (c = c0)) as [-> | Hne].
      { rewrite (Hnext c0 Hge) in Hb. done. }
      destruct (GetSharedCounter b - 1 =? 0).
      * rewrite lookup_delete_ne by done. auto.
      * rewrite lookup_insert_ne by done. auto.
    + intros c. destruct (decide (c = c0)) as [-> | Hne].
      * destruct (Z.eqb_spec (GetSharedCounter b - 1) 0).
        -- rewrite lookup_delete_eq. lia.
        -- rewrite lookup_insert_eq. repeat split; lia.
      * specialize (Hall c). rewrite (Hsame c Hne).
        destruct (GetSharedCounter b - 1 =? 0).
        -- by rewrite lookup_delete_ne.
        -- by rewrite lookup_insert_ne.
  - unfold SharedPtr.DecreaseCBCounter. rewrite Hc. exists s. split; [done|].
    destruct Hcnt as (Hlen & Hn & Hnext & Hall).
    unfold counted. rewrite length_insert. repeat (split; [done|]).
    intros c. specialize (Hall c).
    rewrite (owners_insert_same c vars x (Some h) v'); [done | done |].
    rewrite Hv'. apply holds_false. congruence.
Qed.

(** Taking a reference on a block that has an owner, into a variable that
    refers to nothing. *)
Lemma counted_acquire (n : nat) (vars : frame) (s : State)
      (x : nat) (v : option SharedPtr.t) (h' : SharedPtr.t) :
  counted n vars s ->
  vars !! x = Some v ->
  unowning v ->
  (forall c, SharedPtr.cb_ h' = Some c -> (0 < owners c vars)%nat) ->
  exists s',
    SharedPtr.IncreaseCBCounter h' s = Ok tt s' /\
    counted n (<[x := Some h']> vars) s'.
Proof.
  intros (Hlen & Hn & Hnext & Hall) Hx Hv Hown.
  destruct (SharedPtr.cb_ h') as [c0 |] eqn:Hc.
  - specialize (Hown c0 eq_refl).
    pose proof (Hall c0) as H0.
    destruct (heap s !! c0) as [b |] eqn:Hb; [|lia].
    destruct H0 as (Hs & _ & Hw).
    assert (owners c0 (<[x := Some h']> vars) = S (owners c0 vars)) as Hacq.
    { apply owners_insert_acquire with v; [done | apply Hv | by apply holds_true]. }
    assert (forall c, c <> c0 -> owners c (<[x := Some h']> vars) = owners c vars) as Hsame.
    { intros c Hne. apply owners_insert_same with v; [done|].
      rewrite Hv. symmetry. apply holds_false. congruence. }
    pose proof (owners_le_length c0 (<[x := Some h']> vars)) as Hle.
    rewrite length_insert in Hle.
    unfold SharedPtr.IncreaseCBCounter. rewrite Hc.
    rewrite (call_IncreaseSharedCounter c0 s b Hb).
    eexists. split; [reflexivity|].
    destruct (IncreaseSharedCounter_spec b) as (Es & Ew & _).
    rewrite pre_incr_small in Es by lia.
    unfold counted. simpl. rewrite length_insert.
    split; [done|]. split; [done|]. split.
    + intros c Hge. destruct (decide (c = c0)) as [-> | Hne].
      { rewrite (Hnext c0 Hge) in Hb. done. }
      rewrite lookup_insert_ne by done. auto.
    + intros c. destruct (decide (c = c0)) as [-> | Hne].
      * rewrite lookup_insert_eq. repeat split; lia.
      * rewrite lookup_insert_ne by done. rewrite (Hsame c Hne). apply Hall.
  - unfold SharedPtr.IncreaseCBCounter. rewrite Hc. exists s. split; [done|].
    unfold counted. rewrite length_insert. repeat (split; [done|]).
    intros c. specialize (Hall c).
    rewrite (owners_insert_same c vars x v (Some h')); [done | done |].
    rewrite Hv. symmetry. apply holds_false. congruence.
Qed.

(** A new block for a variable that refers to nothing. *)
Lemma counted_alloc (n : nat) (vars : frame) (s : State)
      (x : nat) (v : option SharedPtr.t) (b0 : ControlBlock) (p : ptr) :
  counted n vars s ->
  vars !! x = Some v ->
  unowning v ->
  is_fresh b0 ->
  counted n
    (<[x := Some {| SharedPtr.cb_ := Some (next s); SharedPtr.observed_ := p |}]> vars)
    {| heap := <[next s := b0]> (heap s); next := S (next s); log := log s |}.
Proof.
  intros (Hlen & Hn & Hnext & Hall) Hx Hv [Hs Hw].
  set (h' := {| SharedPtr.cb_ := Some (next s); SharedPtr.observed_ := p |}).
  assert (owners (next s) vars = O) as Hzero.
  { pose proof (Hall (next s)) as H. by rewrite (Hnext (next s)) in H by lia. }
  assert (owners (next s) (<[x := Some h']> vars) = S (owners (next s) vars)) as Hacq.
  { apply owners_insert_acquire with v; [done | apply Hv | by apply holds_true]. }
  assert (forall c, c <> next s -> owners c (<[x := Some h']> vars) = owners c vars) as Hsame.
  { intros c Hne. apply owners_insert_same with v; [done|].
    rewrite Hv. symmetry. apply holds_false. simpl. congruence. }
  unfold counted. simpl. rewrite length_insert.
  split; [done|]. split; [done|]. split.
  - intros c Hge. rewrite lookup_insert_ne by lia. apply Hnext. lia.
  - intros c. destruct (decide (c = next s)) as [-> | Hne].
    + rewrite lookup_insert_eq. repeat split; lia.
    + rewrite lookup_insert_ne by done. rewrite (Hsame c Hne). apply Hall.
Qed.

(** A variable that refers to nothing may hold any other such value. *)
Lemma counted_replace (n : nat) (vars : frame) (s : State)
      (x : nat) (v v' : option SharedPtr.t) :
  counted n vars s ->
  vars !! x = Some v ->
  unowning v ->
  unowning v' ->
  counted n (<[x := v']> vars) s.
Proof.
  intros (Hlen & Hn & Hnext & Hall) Hx Hv Hv'.
  unfold counted. rewrite length_insert. repeat (split; [done|]).
  intros c. specialize (Hall c).
  rewrite (owners_insert_same c vars x v v'); [done | done |].
  by rewrite Hv, Hv'.
Qed.

(** Moving a handle from [y] into [x], which refers to nothing. *)
Lemma counted_move (n : nat) (vars : frame) (s : State)
      (x y : nat) (v : option SharedPtr.t) (hy : SharedPtr.t) :
  counted n vars s ->
  vars !! x = Some v ->
  unowning v ->
  vars !! y = Some (Some hy) ->
  x <> y ->
  counted n
    (<[y := Some {| SharedPtr.cb_ := None; SharedPtr.observed_ := nullptr |}]>
       (<[x := Some {| SharedPtr.cb_ := SharedPtr.cb_ hy;
                       SharedPtr.observed_ := SharedPtr.observed_ hy |}]> vars))
    s.
Proof.
  intros (Hlen & Hn & Hnext & Hall) Hx Hv Hy Hne.
  unfold counted. rewrite !length_insert. repeat (split; [done|]).
  intros c. specialize (Hall c).
  set (h := {| SharedPtr.cb_ := SharedPtr.cb_ hy;
               SharedPtr.observed_ := SharedPtr.observed_ hy |}).
  set (e := {| SharedPtr.cb_ := None; SharedPtr.observed_ := nullptr |}).
  assert ((<[x := Some h]> vars) !! y = Some (Some hy)) as Hy'.
  { by rewrite list_lookup_insert_ne. }
  pose proof (owners_insert c vars x v (Some h) Hx) as H1.
  pose proof (owners_insert c (<[x := Some h]> vars) y (Some hy) (Some e) Hy') as H2.
  rewrite Hv in H1.
  change (holds c (Some e)) with false in H2.
  change (holds c (Some h)) with (holds c (Some hy)) in H1.
  assert (owners c (<[y := Some e]> (<[x := Some h]> vars)) = owners c vars) as ->.
  { destruct (holds c (Some hy)); lia. }
  done.
Qed.

(** Every operation of a well-scoped program returns and keeps the
    invariant. *)
Lemma sp_step_counted (n : nat) (op : sp_op) (vars : frame) (s : State) (m : M frame) :
  counted n vars s ->
  sp_step op vars = Some m ->
  exists vars' s', m s = Ok vars' s' /\ counted n vars' s'.
Proof.
  intros Hcnt Hstep. destruct op; simpl in Hstep.
  - (* NewDefault *)
    destruct (dead vars x) eqn:Hd; [|done]. apply dead_true in Hd.
    injection Hstep as <-. eexists _, s. split; [reflexivity|].
    eapply counted_replace; eauto using unowning_None, unowning_empty.
  - (* NewFromPtr *)
    destruct (dead vars x) eqn:Hd; [|done]. apply dead_true in Hd.
    injection Hstep as <-. eexists _, _. split; [reflexivity|].
    eapply counted_alloc; eauto using unowning_None. by split.
  - (* NewMakeShared *)
    destruct (dead vars x) eqn:Hd; [|done]. apply dead_true in Hd.
    injection Hstep as <-.
    unfold SharedPtr.MakeShared, bind, new_block, read. simpl.
    rewrite lookup_insert_eq. unfold ret.
    eexists _, _. split; [reflexivity|].
    eapply counted_alloc; eauto using unowning_None. by split.
  - (* NewCopy *)
    destruct (dead vars x) eqn:Hd; [|done]. apply dead_true in Hd.
    destruct (live vars y) as [hy |] eqn:Hy; [|done]. apply live_Some in Hy.
    injection Hstep as <-.
    destruct (counted_acquire n vars s x None
                {| SharedPtr.cb_ := SharedPtr.cb_ hy;
                   SharedPtr.observed_ := SharedPtr.observed_ hy |}
                Hcnt Hd unowning_None) as (s' & Hinc & Hcnt').
    { intros c Hc. by apply (owners_live c vars y hy). }
    unfold SharedPtr.ctor_copy, bind. rewrite Hinc. unfold ret.
    eexists _, _. split; [reflexivity | done].
  - (* NewMove *)
    destruct (dead vars x) eqn:Hd; [|done]. apply dead_true in Hd.
    destruct (live vars y) as [hy |] eqn:Hy; [|done]. apply live_Some in Hy.
    injection Hstep as <-. eexists _, s. split; [reflexivity|].
    eapply counted_move; eauto using unowning_None. congruence.
  - (* Assign *)
    destruct (live vars x) as [hx |] eqn:Hx; [|done]. apply live_Some in Hx.
    destruct (live vars y) as [hy |] eqn:Hy; [|done]. apply live_Some in Hy.
    injection Hstep as <-. unfold SharedPtr.operator_assign, bind.
    destruct (Nat.eqb_spec x y) as [-> | Hne].
    + unfold ret. eexists _, s. split; [reflexivity|]. by rewrite list_insert_id.
    + destruct (counted_release n vars s x hx _ Hcnt Hx unowning_empty)
        as (s1 & Hdec & Hcnt1).
      rewrite Hdec.
      assert (<[x := Some {| SharedPtr.cb_ := None; SharedPtr.observed_ := nullptr |}]>
                vars !! x = Some (Some {| SharedPtr.cb_ := None;
                                          SharedPtr.observed_ := nullptr |})) as Hx1.
      { apply list_lookup_insert_eq. by apply lookup_lt_Some in Hx. }
      destruct (counted_acquire n _ s1 x _
                  {| SharedPtr.cb_ := SharedPtr.cb_ hy;
                     SharedPtr.observed_ := SharedPtr.observed_ hy |}
                  Hcnt1 Hx1 unowning_empty) as (s2 & Hinc & Hcnt2).
      { intros c Hc. apply (owners_live c _ y hy); [|done].
        by rewrite list_lookup_insert_ne. }
      rewrite Hinc. unfold ret. rewrite list_insert_insert_eq in Hcnt2.
      eexists _, _. split; [reflexivity | done].
  - (* AssignMove *)
    destruct (live vars x) as [hx |] eqn:Hx; [|done]. apply live_Some in Hx.
    destruct (live vars y) as [hy |] eqn:Hy; [|done]. apply live_Some in Hy.
    injection Hstep as <-. unfold SharedPtr.operator_assign_move, bind.
    destruct (Nat.eqb_spec x y) as [-> | Hne].
    + unfold ret. simpl. eexists _, s. split; [reflexivity|].
      rewrite (list_insert_id vars y (Some hx)) by done.
      by rewrite list_insert_id.
    + destruct (counted_release n vars s x hx _ Hcnt Hx unowning_empty)
        as (s1 & Hdec & Hcnt1).
      rewrite Hdec. unfold ret. simpl.
      eexists _, _. split; [reflexivity|].
      assert (<[x := Some {| SharedPtr.cb_ := None; SharedPtr.observed_ := nullptr |}]>
                vars !! x = Some (Some {| SharedPtr.cb_ := None;
                                          SharedPtr.observed_ := nullptr |})) as Hx1.
      { apply list_lookup_insert_eq. by apply lookup_lt_Some in Hx. }
      pose proof (counted_move n _ s1 x y _ hy Hcnt1 Hx1 unowning_empty) as Hmv.
      rewrite list_insert_insert_eq in Hmv. apply Hmv; [|done].
      by rewrite list_lookup_insert_ne.
  - (* DoReset *)
    destruct (live vars x) as [hx |] eqn:Hx; [|done]. apply live_Some in Hx.
    injection Hstep as <-. unfold SharedPtr.Reset, bind.
    destruct (counted_release n vars s x hx _ Hcnt Hx unowning_empty)
      as (s1 & Hdec & Hcnt1).
    rewrite Hdec. unfold ret. eexists _, _. split; [reflexivity | done].
  - (* DoResetPtr *)
    destruct (live vars x) as [hx |] eqn:Hx; [|done]. apply live_Some in Hx.
    injection Hstep as <-. unfold SharedPtr.Reset_ptr, bind.
    destruct (counted_release n vars s x hx _ Hcnt Hx unowning_empty)
      as (s1 & Hdec & Hcnt1).
    rewrite Hdec. unfold new_block, ret.
    eexists _, _. split; [reflexivity|].
    assert (<[x := Some {| SharedPtr.cb_ := None; SharedPtr.observed_ := nullptr |}]>
              vars !! x = Some (Some {| SharedPtr.cb_ := None;
                                        SharedPtr.observed_ := nullptr |})) as Hx1.
    { apply list_lookup_insert_eq. by apply lookup_lt_Some in Hx. }
    pose proof (counted_alloc n _ s1 x _ (Separate (ControlBlockPointer.ctor p)) p
                  Hcnt1 Hx1 unowning_empty) as Hal.
    rewrite list_insert_insert_eq in Hal. apply Hal. by split.
  - (* Destroy *)
    destruct (live vars x) as [hx |] eqn:Hx; [|done]. apply live_Some in Hx.
    injection Hstep as <-. unfold SharedPtr.dtor, bind.
    destruct (counted_release n vars s x hx None Hcnt Hx unowning_None)
      as (s1 & Hdec & Hcnt1).
    rewrite Hdec. unfold ret. eexists _, _. split; [reflexivity | done].
Qed.

Lemma exec_counted (n : nat) (ops : list sp_op) (vars : frame) (s : State) :
  counted n vars s ->
  exec ops vars s <> IllScoped ->
  exists vars' s', exec ops vars s = Finished vars' s' /\ counted n vars' s'.
Proof.
  revert vars s. induction ops as [| op ops IH]; intros vars s Hcnt Hsc.
  - by exists vars, s.
  - simpl in *. destruct (sp_step op vars) as [m |] eqn:Hstep; [|done].
    destruct (sp_step_counted n op vars s m Hcnt Hstep) as (vars1 & s1 & Hm & Hcnt1).
    rewrite Hm in *. by apply IH.
Qed.

Lemma counted_start (n : nat) :
  Z.of_nat n <= SIZE_MAX -> counted n (no_vars n) start.
Proof.
  intros Hn. unfold counted, no_vars. rewrite length_replicate.
  repeat (split; [done|]). intros c. simpl. rewrite lookup_empty.
  apply owners_replicate_None.
Qed.

(** A well-scoped run is well scoped up to any of its points. *)
Lemma exec_prefix_scoped (pre post : list sp_op) (vars : frame) (s : State) :
  exec (pre ++ post) vars s <> IllScoped ->
  exec pre vars s <> IllScoped.
Proof.
  revert vars s. induction pre as [| op pre IH]; intros vars s H; [done|].
  simpl in *. destruct (sp_step op vars) as [m |]; [|done].
  destruct (m s) as [vars1 s1 | |]; [by apply IH | done | done].
Qed.

(** C2.  A program with [n] [SharedPtr] variables ([n] at most the largest
    [size_t] value) runs any sequence of constructions (default, from a raw
    address, [MakeShared], copy, move), assignments (copy, move), [Reset]s
    and destructions that uses each variable within its lifetime.  After
    any number [k] of its operations the run has returned without touching
    a deallocated block, and [UseCount()] of every live handle that has a
    control block is the number of live handles on that block. *)
Theorem use_count_counts_owners (n : nat) (ops : list sp_op) (k : nat) :
  Z.of_nat n <= SIZE_MAX ->
  exec ops (no_vars n) start <> IllScoped ->
  exists vars s,
    exec (take k ops) (no_vars n) start = Finished vars s /\
    forall x h c,
      live vars x = Some h ->
      SharedPtr.cb_ h = Some c ->
      SharedPtr.UseCount h s = Ok (Z.of_nat (owners c vars)) s.
Proof.
  intros Hn Hsc.
  rewrite <- (take_drop k ops) in Hsc. apply exec_prefix_scoped in Hsc.
  destruct (exec_counted n (take k ops) (no_vars n) start (counted_start n Hn) Hsc)
    as (vars & s & Hrun & Hcnt).
  exists vars, s. split; [done|].
  intros x h c Hx Hc. apply live_Some in Hx.
  destruct (counted_block n vars s x h c Hcnt Hx Hc) as (b & Hb & Hs & _ & _).
  unfold SharedPtr.UseCount, SharedPtr.GetCBCounter, read.
  by rewrite Hc, Hb, Hs.
Qed.

Lemma use_count_counts_owners_witness :
  exists vars s,
    exec (take 5 [NewMakeShared 0; NewCopy 1 0; NewFromPtr 2 (Some (Ext 4));
                  Assign 2 0; DoReset 0; AssignMove 0 1; Destroy 2])
         (no_vars 3) start = Finished vars s /\
    forall x h c,
      live vars x = Some h ->
      SharedPtr.cb_ h = Some c ->
      SharedPtr.UseCount h s = Ok (Z.of_nat (owners c vars)) s.
Proof.
  apply (use_count_counts_owners 3
           [NewMakeShared 0; NewCopy 1 0; NewFromPtr 2 (Some (Ext 4));
            Assign 2 0; DoReset 0; AssignMove 0 1; Destroy 2] 5).
  - unfold SIZE_MAX. lia.
  - vm_compute. discriminate.
Defined.

(** The state of that program after its first five operations: the block
    made by [MakeShared] has two owners, the variables 1 and 2, and the
    adopted payload has been deleted with its block. *)
Example program_after_five :
  exists s,
    exec (take 5 [NewMakeShared 0; NewCopy 1 0; NewFromPtr 2 (Some (Ext 4));
                  Assign 2 0; DoReset 0; AssignMove 0 1; Destroy 2])
         (no_vars 3) start =
      Finished [Some SharedPtr.ctor_default;
                Some {| SharedPtr.cb_ := Some O; SharedPtr.observed_ := Some (Emb O) |};
                Some {| SharedPtr.cb_ := Some O; SharedPtr.observed_ := Some (Emb O) |}]
               s /\
    strong_at s O = Some 2 /\
    heap s !! 1%nat = None /\
    log s = [(1%nat, DeletePayload (Some (Ext 4))); (1%nat, DeleteThis)].
Proof. eexists. repeat split. Qed.

(** ** The scenarios of the specification, run *)

(** [a = MakeShared(42)]; [b = a]; [a.Reset()]; [b.Reset()]: the counts are
    1, then 2 and 2, then 1 with [a] empty, and at the end the payload has
    been destroyed once and the block deallocated. *)
Example scenario_make_copy_reset :
  exists a1 s1 b2 s2 a3 s3 b4 s4,
    SharedPtr.MakeShared start = Ok a1 s1 /\
    SharedPtr.UseCount a1 s1 = Ok 1 s1 /\
    SharedPtr.ctor_copy a1 s1 = Ok b2 s2 /\
    SharedPtr.UseCount a1 s2 = Ok 2 s2 /\
    SharedPtr.UseCount b2 s2 = Ok 2 s2 /\
    SharedPtr.Reset a1 s2 = Ok a3 s3 /\
    SharedPtr.UseCount b2 s3 = Ok 1 s3 /\
    a3 = SharedPtr.ctor_default /\
    SharedPtr.Reset b2 s3 = Ok b4 s4 /\
    log s4 = [(O, DestroyInPlace); (O, DeleteThis)] /\
    heap s4 !! O = None.
Proof. repeat eexists. Qed.

(** [w = WeakPtr(b)] taken before [b.Reset()]: afterwards [w] is expired,
    [w.Lock()] is empty, and the block is still allocated for [w]. *)
Example scenario_weak_after_reset :
  exists b s1 w s2 b' s3,
    SharedPtr.ctor_ptr (Some (Ext 4)) start = Ok b s1 /\
    WeakPtr.ctor_shared b s1 = Ok w s2 /\
    SharedPtr.Reset b s2 = Ok b' s3 /\
    WeakPtr.Expired w s3 = Ok true s3 /\
    WeakPtr.Lock w s3 = Ok SharedPtr.ctor_default s3 /\
    log s3 = [(O, DeletePayload (Some (Ext 4)))] /\
    strong_at s3 O = Some 0 /\
    weak_at s3 O = Some 1.
Proof. repeat eexists. Qed.

(** * Further properties of the code *)

(** ** Counting observers, and the events of one block *)

Lemma wlive_Some (wvars : wframe) (x : nat) (w : WeakPtr.t) :
  wlive wvars x = Some w <-> wvars !! x = Some (Some w).
Proof.
  unfold wlive. destruct (wvars !! x) as [[w' |] |]; split; congruence.
Qed.

Lemma wdead_true (wvars : wframe) (x : nat) :
  wdead wvars x = true <-> wvars !! x = Some None.
Proof.
  unfold wdead. destruct (wvars !! x) as [[w' |] |]; split; congruence.
Qed.

Lemma wholds_true (c : loc) (w : WeakPtr.t) :
  wholds c (Some w) = true <-> WeakPtr.cb_ w = Some c.
Proof. simpl. apply bool_decide_eq_true. Qed.

Lemma wholds_false (c : loc) (w : WeakPtr.t) :
  wholds c (Some w) = false <-> WeakPtr.cb_ w <> Some c.
Proof. simpl. apply bool_decide_eq_false. Qed.

Lemma wunowning_None : wunowning None.
Proof. done. Qed.

Lemma wunowning_empty :
  wunowning (Some {| WeakPtr.cb_ := None; WeakPtr.observed_ := nullptr |}).
Proof. done. Qed.

Lemma observers_insert (c : loc) (wvars : wframe) (x : nat) (v v' : option WeakPtr.t) :
  wvars !! x = Some v ->
  (observers c (<[x := v']> wvars) + (if wholds c v then 1 else 0) =
   observers c wvars + (if wholds c v' then 1 else 0))%nat.
Proof.
  revert x. induction wvars as [| u wvars IH]; intros [| x] Hx; simpl in *;
    simplify_eq.
  - destruct (wholds c v), (wholds c v'); lia.
  - specialize (IH x Hx). destruct (wholds c u); lia.
Qed.

Lemma observers_le_length (c : loc) (wvars : wframe) :
  (observers c wvars <= length wvars)%nat.
Proof.
  induction wvars as [| u wvars IH]; simpl; [lia|].
  destruct (wholds c u); lia.
Qed.

Lemma observers_replicate_None (c : loc) (n : nat) :
  observers c (replicate n None) = O.
Proof. induction n; simpl; auto. Qed.

Lemma observers_insert_same (c : loc) (wvars : wframe) (x : nat) (v v' : option WeakPtr.t) :
  wvars !! x = Some v ->
  wholds c v = wholds c v' ->
  observers c (<[x := v']> wvars) = observers c wvars.
Proof.
  intros Hx Hv. pose proof (observers_insert c wvars x v v' Hx) as H.
  rewrite Hv in H. destruct (wholds c v'); lia.
Qed.

Lemma observers_insert_release (c : loc) (wvars : wframe) (x : nat) (v v' : option WeakPtr.t) :
  wvars !! x = Some v ->
  wholds c v = true ->
  wholds c v' = false ->
  observers c wvars = S (observers c (<[x := v']> wvars)).
Proof.
  intros Hx Hv Hv'. pose proof (observers_insert c wvars x v v' Hx) as H.
  rewrite Hv, Hv' in H. lia.
Qed.

Lemma observers_insert_acquire (c : loc) (wvars : wframe) (x : nat) (v v' : option WeakPtr.t) :
  wvars !! x = Some v ->
  wholds c v = false ->
  wholds c v' = true ->
  observers c (<[x := v']> wvars) = S (observers c wvars).
Proof.
  intros Hx Hv Hv'. pose proof (observers_insert c wvars x v v' Hx) as H.
  rewrite Hv, Hv' in H. lia.
Qed.

Lemma observers_live (c : loc) (wvars : wframe) (x : nat) (w : WeakPtr.t) :
  wvars !! x = Some (Some w) ->
  WeakPtr.cb_ w = Some c ->
  (0 < observers c wvars)%nat.
Proof.
  intros Hx Hc.
  pose proof (observers_insert c wvars x (Some w) None Hx) as H.
  apply wholds_true in Hc. rewrite Hc in H. simpl in H. lia.
Qed.

(** Exchanging or moving handles between two variables changes no count. *)
Lemma owners_insert2 (c : loc) (vars : frame) (x y : nat)
      (vx vy vx' vy' : option SharedPtr.t) :
  vars !! x = Some vx ->
  vars !! y = Some vy ->
  x <> y ->
  ((if holds c vx' then 1 else 0) + (if holds c vy' then 1 else 0) =
   (if holds c vx then 1 else 0) + (if holds c vy then 1 else 0))%nat ->
  owners c (<[y := vy']> (<[x := vx']> vars)) = owners c vars.
Proof.
  intros Hx Hy Hne Hsum.
  assert ((<[x := vx']> vars) !! y = Some vy) as Hy'.
  { by rewrite list_lookup_insert_ne. }
  pose proof (owners_insert c vars x vx vx' Hx) as H1.
  pose proof (owners_insert c (<[x := vx']> vars) y vy vy' Hy') as H2.
  destruct (holds c vx), (holds c vy), (holds c vx'), (holds c vy'); lia.
Qed.

Lemma observers_insert2 (c : loc) (wvars : wframe) (x y : nat)
      (vx vy vx' vy' : option WeakPtr.t) :
  wvars !! x = Some vx ->
  wvars !! y = Some vy ->
  x <> y ->
  ((if wholds c vx' then 1 else 0) + (if wholds c vy' then 1 else 0) =
   (if wholds c vx then 1 else 0) + (if wholds c vy then 1 else 0))%nat ->
  observers c (<[y := vy']> (<[x := vx']> wvars)) = observers c wvars.
Proof.
  intros Hx Hy Hne Hsum.
  assert ((<[x := vx']> wvars) !! y = Some vy) as Hy'.
  { by rewrite list_lookup_insert_ne. }
  pose proof (observers_insert c wvars x vx vx' Hx) as H1.
  pose proof (observers_insert c (<[x := vx']> wvars) y vy vy' Hy') as H2.
  destruct (wholds c vx), (wholds c vy), (wholds c vx'), (wholds c vy'); lia.
Qed.

Lemma events_of_app (c : loc) (l1 l2 : list (loc * effect)) :
  events_of c (l1 ++ l2) = events_of c l1 ++ events_of c l2.
Proof. unfold events_of. by rewrite filter_app, map_app. Qed.

Lemma events_of_tagged (c c0 : loc) (es : list effect) :
  events_of c (map (pair c0) es) = if decide (c = c0) then es else [].
Proof.
  unfold events_of. induction es as [| e es IH]; simpl.
  - by destruct (decide (c = c0)).
  - rewrite filter_cons. simpl. destruct (decide (c0 = c)) as [-> | Hne].
    + simpl. rewrite IH. by destruct (decide (c = c)).
    + rewrite IH. destruct (decide (c = c0)); [congruence | done].
Qed.

Lemma events_of_call (c c0 : loc) (l : list (loc * effect)) (es : list effect) :
  events_of c (l ++ map (pair c0) es) =
    events_of c l ++ (if decide (c = c0) then es else []).
Proof. by rewrite events_of_app, events_of_tagged. Qed.

(** ** The invariant of programs over both kinds of handles *)

Ltac nat_eqb_cases :=
  repeat match goal with
         | |- context [Nat.eqb ?x ?y] => destruct (Nat.eqb_spec x y)
         | H : context [Nat.eqb ?x ?y] |- _ => destruct (Nat.eqb_spec x y)
         end.

(** The invariant only depends on the frames through their lengths and
    the counts of handles per block. *)
Lemma balanced_ext (n m : nat) (vars vars' : frame) (wvars wvars' : wframe) (s : State) :
  balanced n m vars wvars s ->
  length vars' = length vars ->
  length wvars' = length wvars ->
  (forall c, owners c vars' = owners c vars) ->
  (forall c, observers c wvars' = observers c wvars) ->
  balanced n m vars' wvars' s.
Proof.
  intros (Hn & Hm & Bn & Bm & Hnext & Hall) Hl Hwl Ho Hw.
  unfold balanced. rewrite Hl, Hwl. repeat (split; [done|]).
  intros c. specialize (Hall c). by rewrite Ho, Hw.
Qed.

(** An allocated block is below [next]. *)
Lemma balanced_allocated (n m : nat) (vars : frame) (wvars : wframe) (s : State)
      (c : loc) (b : ControlBlock) :
  balanced n m vars wvars s ->
  heap s !! c = Some b ->
  (c < next s)%nat.
Proof.
  intros (_ & _ & _ & _ & Hnext & _) Hb.
  destruct (decide (c < next s)%nat) as [| Hge]; [done|].
  destruct (Hnext c) as [Hnone _]; [lia|]. congruence.
Qed.

(** The block of a live [SharedPtr]. *)
Lemma balanced_owned (n m : nat) (vars : frame) (wvars : wframe) (s : State)
      (x : nat) (h : SharedPtr.t) (c : loc) :
  balanced n m vars wvars s ->
  vars !! x = Some (Some h) ->
  SharedPtr.cb_ h = Some c ->
  exists b,
    heap s !! c = Some b /\
    GetSharedCounter b = Z.of_nat (owners c vars) /\
    weak_counter b = Z.of_nat (observers c wvars) /\
    (0 < owners c vars <= n)%nat /\
    (observers c wvars <= m)%nat.
Proof.
  intros (Hn & Hm & Bn & Bm & Hnext & Hall) Hx Hc.
  pose proof (owners_live c vars x h Hx Hc) as Hpos.
  pose proof (owners_le_length c vars) as Hle.
  pose proof (observers_le_length c wvars) as Hwle.
  specialize (Hall c). destruct (heap s !! c) as [b |]; [|lia].
  exists b. destruct Hall as (? & ? & _). repeat split; try done; lia.
Qed.

(** The block of a live [WeakPtr] is allocated. *)
Lemma balanced_observed (n m : nat) (vars : frame) (wvars : wframe) (s : State)
      (x : nat) (w : WeakPtr.t) (c : loc) :
  balanced n m vars wvars s ->
  wvars !! x = Some (Some w) ->
  WeakPtr.cb_ w = Some c ->
  exists b,
    heap s !! c = Some b /\
    GetSharedCounter b = Z.of_nat (owners c vars) /\
    weak_counter b = Z.of_nat (observers c wvars) /\
    (owners c vars <= n)%nat /\
    (0 < observers c wvars <= m)%nat.
Proof.
  intros (Hn & Hm & Bn & Bm & Hnext & Hall) Hx Hc.
  pose proof (observers_live c wvars x w Hx Hc) as Hpos.
  pose proof (owners_le_length c vars) as Hle.
  pose proof (observers_le_length c wvars) as Hwle.
  specialize (Hall c). destruct (heap s !! c) as [b |]; [|lia].
  exists b. destruct Hall as (? & ? & _). repeat split; try done; lia.
Qed.

(** A [SharedPtr] gives up its reference. *)
Lemma balanced_release (n m : nat) (vars : frame) (wvars : wframe) (s : State)
      (x : nat) (h : SharedPtr.t) (v' : option SharedPtr.t) :
  balanced n m vars wvars s ->
  vars !! x = Some (Some h) ->
  unowning v' ->
  exists s',
    SharedPtr.DecreaseCBCounter h s = Ok tt s' /\
    balanced n m (<[x := v']> vars) wvars s'.
Proof.
  intros Hbal Hx Hv'.
  destruct (SharedPtr.cb_ h) as [c0 |] eqn:Hc.
  - destruct (balanced_owned _ _ _ _ _ _ _ _ Hbal Hx Hc)
      as (b & Hb & Hs & Hw & [Hpos Hle] & Hwle).
    pose proof (balanced_allocated _ _ _ _ _ _ _ Hbal Hb) as Hlt.
    destruct Hbal as (Hn & Hm & Bn & Bm & Hnext & Hall).
    assert (owners c0 vars = S (owners c0 (<[x := v']> vars))) as Hrel.
    { apply owners_insert_release with (Some h); [done | by apply holds_true | apply Hv']. }
    assert (forall c, c <> c0 -> owners c (<[x := v']> vars) = owners c vars) as Hsame.
    { intros c Hne. apply owners_insert_same with (Some h); [done|].
      rewrite Hv'. apply holds_false. congruence. }
    pose proof (Hall c0) as H0. rewrite Hb in H0.
    destruct H0 as (_ & _ & _ & Hfr & Hpr).
    unfold SharedPtr.DecreaseCBCounter, call. rewrite Hc, Hb.
    pose proof (cb_call_counters DecShared b) as H. cbn in H.
    destruct (DecreaseSharedCounter b) as [b' es].
    destruct H as (Es & Ew & Ep & Ef & Hd). rewrite Hd.
    rewrite pre_decr_pos in * by lia.
    eexists. split; [reflexivity|].
    unfold balanced. cbn [heap next log]. rewrite length_insert.
    repeat (split; [done|]). split.
    + intros c Hge. destruct (Hnext c Hge) as [Hnone Hev].
      assert (c <> c0) as Hne by lia.
      rewrite events_of_call, Hev. destruct (decide (c = c0)); [done|].
      split; [|done].
      destruct ((weak_counter b =? 0) && (GetSharedCounter b - 1 =? 0)).
      * by rewrite lookup_delete_ne.
      * by rewrite lookup_insert_ne.
    + intros c. rewrite events_of_call.
      destruct (decide (c = c0)) as [-> | Hne].
      * rewrite payload_releases_app, block_frees_app, Hfr, Hpr, Ep, Ef.
        destruct (Z.eqb_spec (weak_counter b) 0) as [W0 | W0],
          (Z.eqb_spec (GetSharedCounter b - 1) 0) as [S0 | S0]; simpl;
          rewrite ?lookup_delete_eq, ?lookup_insert_eq;
          nat_eqb_cases; repeat split; try lia.
      * rewrite app_nil_r. specialize (Hall c). rewrite (Hsame c Hne).
        destruct ((weak_counter b =? 0) && (GetSharedCounter b - 1 =? 0)).
        -- by rewrite lookup_delete_ne.
        -- by rewrite lookup_insert_ne.
  - unfold SharedPtr.DecreaseCBCounter. rewrite Hc. exists s. split; [done|].
    eapply balanced_ext; eauto using length_insert.
    intros c. apply owners_insert_same with (Some h); [done|].
    rewrite Hv'. apply holds_false. congruence.
Qed.

(** A [SharedPtr] variable that refers to nothing takes a reference on a
    block that has an owner. *)
Lemma balanced_acquire (n m : nat) (vars : frame) (wvars : wframe) (s : State)
      (x : nat) (v : option SharedPtr.t) (h' : SharedPtr.t) :
  balanced n m vars wvars s ->
  vars !! x = Some v ->
  unowning v ->
  (forall c, SharedPtr.cb_ h' = Some c -> (0 < owners c vars)%nat) ->
  exists s',
    SharedPtr.IncreaseCBCounter h' s = Ok tt s' /\
    balanced n m (<[x := Some h']> vars) wvars s'.
Proof.
  intros Hbal Hx Hv Hown.
  destruct (SharedPtr.cb_ h') as [c0 |] eqn:Hc.
  - specialize (Hown c0 eq_refl).
    destruct Hbal as (Hn & Hm & Bn & Bm & Hnext & Hall).
    pose proof (Hall c0) as H0.
    destruct (heap s !! c0) as [b |] eqn:Hb; [|lia].
    destruct H0 as (Hs & Hw & _ & Hfr & Hpr).
    assert (owners c0 (<[x := Some h']> vars) = S (owners c0 vars)) as Hacq.
    { apply owners_insert_acquire with v; [done | apply Hv | by apply holds_true]. }
    assert (forall c, c <> c0 -> owners c (<[x := Some h']> vars) = owners c vars) as Hsame.
    { intros c Hne. apply owners_insert_same with v; [done|].
      rewrite Hv. symmetry. apply holds_false. congruence. }
    pose proof (owners_le_length c0 (<[x := Some h']> vars)) as Hle.
    rewrite length_insert in Hle.
    unfold SharedPtr.IncreaseCBCounter. rewrite Hc.
    rewrite (call_IncreaseSharedCounter c0 s b Hb).
    eexists. split; [reflexivity|].
    destruct (IncreaseSharedCounter_spec b) as (Es & Ew & _).
    rewrite pre_incr_small in Es by lia.
    unfold balanced. cbn [heap next log]. rewrite length_insert.
    repeat (split; [done|]). split.
    + intros c Hge. destruct (Hnext c Hge) as [Hnone Hev].
      split; [|done]. rewrite lookup_insert_ne; [done|]. congruence.
    + intros c. destruct (decide (c = c0)) as [-> | Hne].
      * rewrite lookup_insert_eq, Hfr, Hpr.
        nat_eqb_cases; repeat split; try lia.
      * rewrite lookup_insert_ne by done. rewrite (Hsame c Hne). apply Hall.
  - unfold SharedPtr.IncreaseCBCounter. rewrite Hc. exists s. split; [done|].
    eapply balanced_ext; eauto using length_insert.
    intros c. apply owners_insert_same with v; [done|].
    rewrite Hv. symmetry. apply holds_false. congruence.
Qed.

(** A new block for a [SharedPtr] variable that refers to nothing. *)
Lemma balanced_alloc (n m : nat) (vars : frame) (wvars : wframe) (s : State)
      (x : nat) (v : option SharedPtr.t) (b0 : ControlBlock) (p : ptr) :
  balanced n m vars wvars s ->
  vars !! x = Some v ->
  unowning v ->
  is_fresh b0 ->
  balanced n m
    (<[x := Some {| SharedPtr.cb_ := Some (next s); SharedPtr.observed_ := p |}]> vars)
    wvars
    {| heap := <[next s := b0]> (heap s); next := S (next s); log := log s |}.
Proof.
  intros (Hn & Hm & Bn & Bm & Hnext & Hall) Hx Hv [Hs Hw].
  set (h' := {| SharedPtr.cb_ := Some (next s); SharedPtr.observed_ := p |}).
  destruct (Hnext (next s)) as [Hnone Hev]; [lia|].
  pose proof (Hall (next s)) as H0. rewrite Hnone in H0.
  destruct H0 as (Hzero & Hwzero & _).
  assert (owners (next s) (<[x := Some h']> vars) = S (owners (next s) vars)) as Hacq.
  { apply owners_insert_acquire with v; [done | apply Hv | by apply holds_true]. }
  assert (forall c, c <> next s -> owners c (<[x := Some h']> vars) = owners c vars) as Hsame.
  { intros c Hne. apply owners_insert_same with v; [done|].
    rewrite Hv. symmetry. apply holds_false. simpl. congruence. }
  unfold balanced. cbn [heap next log]. rewrite length_insert.
  repeat (split; [done|]). split.
  - intros c Hge. destruct (Hnext c) as [? ?]; [lia|].
    split; [|done]. rewrite lookup_insert_ne by lia. done.
  - intros c. destruct (decide (c = next s)) as [-> | Hne].
    + rewrite lookup_insert_eq, Hev, Hacq, Hzero, Hwzero, Hs, Hw.
      repeat split; simpl; lia.
    + rewrite lookup_insert_ne by done. rewrite (Hsame c Hne).
      specialize (Hall c). destruct (heap s !! c); [done|].
      destruct Hall as (? & ? & Hlog). split; [done|]. split; [done|].
      intros Hlt. apply Hlog. lia.
Qed.

(** A [WeakPtr] gives up its reference. *)
Lemma balanced_wrelease (n m : nat) (vars : frame) (wvars : wframe) (s : State)
      (x : nat) (w : WeakPtr.t) (v' : option WeakPtr.t) :
  balanced n m vars wvars s ->
  wvars !! x = Some (Some w) ->
  wunowning v' ->
  exists s',
    WeakPtr.DecreaseCBCounter w s = Ok tt s' /\
    balanced n m vars (<[x := v']> wvars) s'.
Proof.
  intros Hbal Hx Hv'.
  destruct (WeakPtr.cb_ w) as [c0 |] eqn:Hc.
  - destruct (balanced_observed _ _ _ _ _ _ _ _ Hbal Hx Hc)
      as (b & Hb & Hs & Hw & Hle & [Hpos Hwle]).
    pose proof (balanced_allocated _ _ _ _ _ _ _ Hbal Hb) as Hlt.
    destruct Hbal as (Hn & Hm & Bn & Bm & Hnext & Hall).
    assert (observers c0 wvars = S (observers c0 (<[x := v']> wvars))) as Hrel.
    { apply observers_insert_release with (Some w);
        [done | by apply wholds_true | apply Hv']. }
    assert (forall c, c <> c0 ->
                      observers c (<[x := v']> wvars) = observers c wvars) as Hsame.
    { intros c Hne. apply observers_insert_same with (Some w); [done|].
      rewrite Hv'. apply wholds_false. congruence. }
    pose proof (Hall c0) as H0. rewrite Hb in H0.
    destruct H0 as (_ & _ & _ & Hfr & Hpr).
    unfold WeakPtr.DecreaseCBCounter, call. rewrite Hc, Hb.
    pose proof (cb_call_counters DecWeak b) as H. cbn in H.
    destruct (DecreaseWeakCounter b) as [b' es].
    destruct H as (Es & Ew & Ep & Ef & Hd). rewrite Hd.
    rewrite pre_decr_pos in * by lia.
    eexists. split; [reflexivity|].
    unfold balanced. cbn [heap next log]. rewrite length_insert.
    repeat (split; [done|]). split.
    + intros c Hge. destruct (Hnext c Hge) as [Hnone Hev].
      assert (c <> c0) as Hne by lia.
      rewrite events_of_call, Hev. destruct (decide (c = c0)); [done|].
      split; [|done].
      destruct ((weak_counter b - 1 =? 0) && (GetSharedCounter b =? 0)).
      * by rewrite lookup_delete_ne.
      * by rewrite lookup_insert_ne.
    + intros c. rewrite events_of_call.
      destruct (decide (c = c0)) as [-> | Hne].
      * rewrite payload_releases_app, block_frees_app, Hfr, Hpr, Ep, Ef.
        destruct (Z.eqb_spec (weak_counter b - 1) 0) as [W0 | W0],
          (Z.eqb_spec (GetSharedCounter b) 0) as [S0 | S0]; simpl;
          rewrite ?lookup_delete_eq, ?lookup_insert_eq;
          nat_eqb_cases; repeat split; try lia.
      * rewrite app_nil_r. specialize (Hall c). rewrite (Hsame c Hne).
        destruct ((weak_counter b - 1 =? 0) && (GetSharedCounter b =? 0)).
        -- by rewrite lookup_delete_ne.
        -- by rewrite lookup_insert_ne.
  - unfold WeakPtr.DecreaseCBCounter. rewrite Hc. exists s. split; [done|].
    eapply balanced_ext; eauto using length_insert.
    intros c. apply observers_insert_same with (Some w); [done|].
    rewrite Hv'. apply wholds_false. congruence.
Qed.

(** A [WeakPtr] variable that refers to nothing takes a reference on an
    allocated block. *)
Lemma balanced_wacquire (n m : nat) (vars : frame) (wvars : wframe) (s : State)
      (x : nat) (v : option WeakPtr.t) (w' : WeakPtr.t) :
  balanced n m vars wvars s ->
  wvars !! x = Some v ->
  wunowning v ->
  (forall c, WeakPtr.cb_ w' = Some c ->
             (0 < owners c vars + observers c wvars)%nat) ->
  exists s',
    WeakPtr.IncreaseCBCounter w' s = Ok tt s' /\
    balanced n m vars (<[x := Some w']> wvars) s'.
Proof.
  intros Hbal Hx Hv Hown.
  destruct (WeakPtr.cb_ w') as [c0 |] eqn:Hc.
  - specialize (Hown c0 eq_refl).
    destruct Hbal as (Hn & Hm & Bn & Bm & Hnext & Hall).
    pose proof (Hall c0) as H0.
    destruct (heap s !! c0) as [b |] eqn:Hb; [|lia].
    destruct H0 as (Hs & Hw & _ & Hfr & Hpr).
    assert (observers c0 (<[x := Some w']> wvars) = S (observers c0 wvars)) as Hacq.
    { apply observers_insert_acquire with v;
        [done | apply Hv | by apply wholds_true]. }
    assert (forall c, c <> c0 ->
                      observers c (<[x := Some w']> wvars) = observers c wvars) as Hsame.
    { intros c Hne. apply observers_insert_same with v; [done|].
      rewrite Hv. symmetry. apply wholds_false. congruence. }
    pose proof (observers_le_length c0 (<[x := Some w']> wvars)) as Hle.
    rewrite length_insert in Hle.
    unfold WeakPtr.IncreaseCBCounter. rewrite Hc.
    rewrite (call_IncreaseWeakCounter c0 s b Hb).
    eexists. split; [reflexivity|].
    destruct (IncreaseWeakCounter_spec b) as (Es & Ew & _).
    rewrite pre_incr_small in Ew by lia.
    unfold balanced. cbn [heap next log]. rewrite length_insert.
    repeat (split; [done|]). split.
    + intros c Hge. destruct (Hnext c Hge) as [Hnone Hev].
      split; [|done]. rewrite lookup_insert_ne; [done|]. congruence.
    + intros c. destruct (decide (c = c0)) as [-> | Hne].
      * rewrite lookup_insert_eq, Hfr, Hpr.
        nat_eqb_cases; repeat split; try lia.
      * rewrite lookup_insert_ne by done. rewrite (Hsame c Hne). apply Hall.
  - unfold WeakPtr.IncreaseCBCounter. rewrite Hc. exists s. split; [done|].
    eapply balanced_ext; eauto using length_insert.
    intros c. apply observers_insert_same with v; [done|].
    rewrite Hv. symmetry. apply wholds_false. congruence.
Qed.

(** The operations on [SharedPtr] variables keep any invariant that is
    kept by releasing, acquiring, allocating, and by changes of the frame
    that change no count. *)
Section sp_step_invariant.

Variable Inv : frame -> State -> Prop.

Hypothesis Inv_release :
  forall vars s x h v',
    Inv vars s -> vars !! x = Some (Some h) -> unowning v' ->
    exists s', SharedPtr.DecreaseCBCounter h s = Ok tt s' /\ Inv (<[x := v']> vars) s'.

Hypothesis Inv_acquire :
  forall vars s x v h',
    Inv vars s -> vars !! x = Some v -> unowning v ->
    (forall c, SharedPtr.cb_ h' = Some c -> (0 < owners c vars)%nat) ->
    exists s', SharedPtr.IncreaseCBCounter h' s = Ok tt s' /\
               Inv (<[x := Some h']> vars) s'.

Hypothesis Inv_alloc :
  forall vars s x v b0 p,
    Inv vars s -> vars !! x = Some v -> unowning v -> is_fresh b0 ->
    Inv (<[x := Some {| SharedPtr.cb_ := Some (next s); SharedPtr.observed_ := p |}]> vars)
        {| heap := <[next s := b0]> (heap s); next := S (next s); log := log s |}.

Hypothesis Inv_ext :
  forall vars vars' s,
    Inv vars s -> length vars' = length vars ->
    (forall c, owners c vars' = owners c vars) ->
    Inv vars' s.

Lemma sp_step_keeps (op : sp_op) (vars : frame) (s : State) (m : M frame) :
  Inv vars s ->
  sp_step op vars = Some m ->
  exists vars' s', m s = Ok vars' s' /\ Inv vars' s'.
Proof.
  pose proof unowning_None as UN. pose proof unowning_empty as UE.
  intros Hinv Hstep. destruct op; simpl in Hstep.
  - destruct (dead vars x) eqn:Hd; [|done]. apply dead_true in Hd.
    injection Hstep as <-. eexists _, s. split; [reflexivity|].
    apply (Inv_ext vars); [done | by rewrite length_insert |].
    intros c. by apply owners_insert_same with None.
  - destruct (dead vars x) eqn:Hd; [|done]. apply dead_true in Hd.
    injection Hstep as <-. eexists _, _. split; [reflexivity|].
    apply Inv_alloc with None; try done.
  - destruct (dead vars x) eqn:Hd; [|done]. apply dead_true in Hd.
    injection Hstep as <-.
    unfold SharedPtr.MakeShared, bind, new_block, read. simpl.
    rewrite lookup_insert_eq. unfold ret.
    eexists _, _. split; [reflexivity|].
    apply Inv_alloc with None; try done.
  - destruct (dead vars x) eqn:Hd; [|done]. apply dead_true in Hd.
    destruct (live vars y) as [hy |] eqn:Hy; [|done]. apply live_Some in Hy.
    injection Hstep as <-.
    destruct (Inv_acquire vars s x None
                {| SharedPtr.cb_ := SharedPtr.cb_ hy;
                   SharedPtr.observed_ := SharedPtr.observed_ hy |}
                Hinv Hd UN) as (s' & Hinc & Hinv').
    { intros c Hc. by apply (owners_live c vars y hy). }
    unfold SharedPtr.ctor_copy, bind. rewrite Hinc. unfold ret.
    eexists _, _. split; [reflexivity | done].
  - destruct (dead vars x) eqn:Hd; [|done]. apply dead_true in Hd.
    destruct (live vars y) as [hy |] eqn:Hy; [|done]. apply live_Some in Hy.
    injection Hstep as <-. eexists _, s. split; [reflexivity|].
    apply (Inv_ext vars); [done | by rewrite !length_insert |].
    intros c. apply owners_insert2 with None (Some hy); try done. congruence.
  - destruct (live vars x) as [hx |] eqn:Hx; [|done]. apply live_Some in Hx.
    destruct (live vars y) as [hy |] eqn:Hy; [|done]. apply live_Some in Hy.
    injection Hstep as <-. unfold SharedPtr.operator_assign, bind.
    destruct (Nat.eqb_spec x y) as [-> | Hne].
    + unfold ret. eexists _, s. split; [reflexivity|]. by rewrite list_insert_id.
    + destruct (Inv_release vars s x hx _ Hinv Hx UE) as (s1 & Hdec & Hinv1).
      rewrite Hdec.
      destruct (Inv_acquire _ s1 x
                  (Some {| SharedPtr.cb_ := None; SharedPtr.observed_ := nullptr |})
                  {| SharedPtr.cb_ := SharedPtr.cb_ hy;
                     SharedPtr.observed_ := SharedPtr.observed_ hy |}
                  Hinv1) as (s2 & Hinc & Hinv2).
      { apply list_lookup_insert_eq. by apply lookup_lt_Some in Hx. }
      { done. }
      { intros c Hc. apply (owners_live c _ y hy); [|done].
        by rewrite list_lookup_insert_ne. }
      rewrite Hinc. unfold ret. rewrite list_insert_insert_eq in Hinv2.
      eexists _, _. split; [reflexivity | done].
  - destruct (live vars x) as [hx |] eqn:Hx; [|done]. apply live_Some in Hx.
    destruct (live vars y) as [hy |] eqn:Hy; [|done]. apply live_Some in Hy.
    injection Hstep as <-. unfold SharedPtr.operator_assign_move, bind.
    destruct (Nat.eqb_spec x y) as [-> | Hne].
    + unfold ret. simpl. eexists _, s. split; [reflexivity|].
      rewrite (list_insert_id vars y (Some hx)) by done.
      by rewrite list_insert_id.
    + destruct (Inv_release vars s x hx _ Hinv Hx UE) as (s1 & Hdec & Hinv1).
      rewrite Hdec. unfold ret. simpl.
      eexists _, _. split; [reflexivity|].
      rewrite <- (list_insert_insert_eq vars x
                    (Some {| SharedPtr.cb_ := SharedPtr.cb_ hy;
                             SharedPtr.observed_ := SharedPtr.observed_ hy |})
                    (Some {| SharedPtr.cb_ := None; SharedPtr.observed_ := nullptr |})).
      apply (Inv_ext _ _ _ Hinv1); [by rewrite !length_insert|].
      intros c.
      apply owners_insert2
        with (Some {| SharedPtr.cb_ := None; SharedPtr.observed_ := nullptr |})
             (Some hy); try done.
      * apply list_lookup_insert_eq. by apply lookup_lt_Some in Hx.
      * by rewrite list_lookup_insert_ne.
  - destruct (live vars x) as [hx |] eqn:Hx; [|done]. apply live_Some in Hx.
    injection Hstep as <-. unfold SharedPtr.Reset, bind.
    destruct (Inv_release vars s x hx _ Hinv Hx UE) as (s1 & Hdec & Hinv1).
    rewrite Hdec. unfold ret. eexists _, _. split; [reflexivity | done].
  - destruct (live vars x) as [hx |] eqn:Hx; [|done]. apply live_Some in Hx.
    injection Hstep as <-. unfold SharedPtr.Reset_ptr, bind.
    destruct (Inv_release vars s x hx _ Hinv Hx UE) as (s1 & Hdec & Hinv1).
    rewrite Hdec. unfold new_block, ret.
    eexists _, _. split; [reflexivity|].
    rewrite <- (list_insert_insert_eq vars x
                  (Some {| SharedPtr.cb_ := Some (next s1); SharedPtr.observed_ := p |})
                  (Some {| SharedPtr.cb_ := None; SharedPtr.observed_ := nullptr |})).
    apply Inv_alloc
      with (Some {| SharedPtr.cb_ := None; SharedPtr.observed_ := nullptr |});
      try done.
    apply list_lookup_insert_eq. by apply lookup_lt_Some in Hx.
  - destruct (live vars x) as [hx |] eqn:Hx; [|done]. apply live_Some in Hx.
    injection Hstep as <-. unfold SharedPtr.dtor, bind.
    destruct (Inv_release vars s x hx None Hinv Hx UN) as (s1 & Hdec & Hinv1).
    rewrite Hdec. unfold ret. eexists _, _. split; [reflexivity | done].
Qed.

End sp_step_invariant.

(** What a live [WeakPtr] reports. *)
Lemma balanced_GetCBCounter (n m : nat) (vars : frame) (wvars : wframe) (s : State)
      (x : nat) (w : WeakPtr.t) :
  balanced n m vars wvars s ->
  wvars !! x = Some (Some w) ->
  WeakPtr.GetCBCounter w s =
    Ok (match WeakPtr.cb_ w with
        | Some c => Z.of_nat (owners c vars)
        | None => 0
        end) s.
Proof.
  intros Hbal Hx. unfold WeakPtr.GetCBCounter, read.
  destruct (WeakPtr.cb_ w) as [c |] eqn:Hc; [|done].
  destruct (balanced_observed _ _ _ _ _ _ _ _ Hbal Hx Hc) as (b & Hb & Hs & _).
  by rewrite Hb, Hs.
Qed.

Lemma balanced_Expired (n m : nat) (vars : frame) (wvars : wframe) (s : State)
      (x : nat) (w : WeakPtr.t) :
  balanced n m vars wvars s ->
  wvars !! x = Some (Some w) ->
  WeakPtr.Expired w s =
    Ok (match WeakPtr.cb_ w with
        | Some c => Nat.eqb (owners c vars) 0
        | None => true
        end) s.
Proof.
  intros Hbal Hx. unfold WeakPtr.Expired, bind.
  rewrite (balanced_GetCBCounter _ _ _ _ _ _ _ Hbal Hx). unfold ret.
  destruct (WeakPtr.cb_ w) as [c |]; [|done].
  f_equal. destruct (Nat.eqb_spec (owners c vars) 0), (Z.eqb_spec (Z.of_nat (owners c vars)) 0);
    (done || lia).
Qed.

(** Every applicable operation of a program over both kinds of variables
    returns normally and keeps the invariant. *)
Lemma mp_step_balanced (n m : nat) (op : mp_op) (vars : frame) (wvars : wframe)
      (s : State) (k : M (frame * wframe)) :
  balanced n m vars wvars s ->
  mp_step op vars wvars = Some k ->
  exists vars' wvars' s',
    k s = Ok (vars', wvars') s' /\ balanced n m vars' wvars' s'.
Proof.
  pose proof unowning_None as UN. pose proof unowning_empty as UE.
  pose proof wunowning_None as WN. pose proof wunowning_empty as WE.
  intros Hbal Hstep. destruct op; simpl in Hstep.
  - (* OnShared *)
    destruct (sp_step op vars) as [k0 |] eqn:Hsp; [|done].
    injection Hstep as <-.
    destruct (sp_step_keeps (fun vs st => balanced n m vs wvars st)) with op vars s k0
      as (vars' & s' & Hk & Hbal'); try done.
    + intros. by apply balanced_release.
    + intros. by apply balanced_acquire with v.
    + intros. by apply balanced_alloc with v.
    + intros vs vs' st H Hl Ho. by apply (balanced_ext n m vs vs' wvars wvars st).
    + exists vars', wvars, s'. unfold bind. rewrite Hk. done.
  - (* SAlias *)
    destruct (dead vars x) eqn:Hd; [|done]. apply dead_true in Hd.
    destruct (live vars y) as [hy |] eqn:Hy; [|done]. apply live_Some in Hy.
    injection Hstep as <-.
    destruct (balanced_acquire n m vars wvars s x None
                {| SharedPtr.cb_ := SharedPtr.cb_ hy; SharedPtr.observed_ := p |}
                Hbal Hd UN) as (s' & Hinc & Hbal').
    { intros c Hc. by apply (owners_live c vars y hy). }
    unfold SharedPtr.ctor_alias, bind. rewrite Hinc. unfold ret.
    eexists _, _, _. split; [reflexivity | done].
  - (* SSwap *)
    destruct (live vars x) as [hx |] eqn:Hx; [|done]. apply live_Some in Hx.
    destruct (live vars y) as [hy |] eqn:Hy; [|done]. apply live_Some in Hy.
    injection Hstep as <-. eexists _, _, s. split; [reflexivity|].
    apply (balanced_ext n m vars _ wvars wvars s Hbal);
      [by rewrite !length_insert | done | | done].
    intros c. destruct (decide (x = y)) as [-> | Hne].
    + rewrite list_insert_insert_eq. simplify_eq.
      by apply owners_insert_same with (Some hx).
    + apply owners_insert2 with (Some hx) (Some hy); try done. simpl. lia.
  - (* SPromote *)
    destruct (dead vars x) eqn:Hd; [|done]. apply dead_true in Hd.
    destruct (wlive wvars w) as [hw |] eqn:Hw; [|done]. apply wlive_Some in Hw.
    injection Hstep as <-.
    unfold try_catch, SharedPtr_ctor_weak. unfold bind at 1 2.
    rewrite (balanced_Expired _ _ _ _ _ _ _ Hbal Hw).
    destruct (WeakPtr.cb_ hw) as [c |] eqn:Hc.
    + destruct (Nat.eqb_spec (owners c vars) 0) as [E0 | E0].
      * unfold throw, ret. eexists _, _, _. split; [reflexivity | done].
      * destruct (balanced_acquire n m vars wvars s x None
                    {| SharedPtr.cb_ := Some c;
                       SharedPtr.observed_ := WeakPtr.observed_ hw |}
                    Hbal Hd UN) as (s' & Hinc & Hbal').
        { simpl. intros c' Hc'. simplify_eq. lia. }
        unfold bind. rewrite Hinc. unfold ret.
        eexists _, _, _. split; [reflexivity | done].
    + unfold throw, ret. eexists _, _, _. split; [reflexivity | done].
  - (* SLock *)
    destruct (dead vars x) eqn:Hd; [|done]. apply dead_true in Hd.
    destruct (wlive wvars w) as [hw |] eqn:Hw; [|done]. apply wlive_Some in Hw.
    injection Hstep as <-.
    unfold WeakPtr.Lock. unfold bind at 1 2.
    rewrite (balanced_Expired _ _ _ _ _ _ _ Hbal Hw).
    assert (balanced n m (<[x := Some SharedPtr.ctor_default]> vars) wvars s) as Hdef.
    { apply (balanced_ext n m vars _ wvars wvars s Hbal);
        [by rewrite length_insert | done | | done].
      intros c. by apply owners_insert_same with None. }
    destruct (WeakPtr.cb_ hw) as [c |] eqn:Hc.
    + destruct (Nat.eqb_spec (owners c vars) 0) as [E0 | E0].
      * unfold ret. eexists _, _, _. split; [reflexivity | done].
      * destruct (balanced_acquire n m vars wvars s x None
                    {| SharedPtr.cb_ := Some c;
                       SharedPtr.observed_ := WeakPtr.observed_ hw |}
                    Hbal Hd UN) as (s' & Hinc & Hbal').
        { simpl. intros c' Hc'. simplify_eq. lia. }
        unfold bind. rewrite Hinc. unfold ret.
        eexists _, _, _. split; [reflexivity | done].
    + unfold ret. eexists _, _, _. split; [reflexivity | done].
  - (* WDefault *)
    destruct (wdead wvars w) eqn:Hd; [|done]. apply wdead_true in Hd.
    injection Hstep as <-. eexists _, _, s. split; [reflexivity|].
    apply (balanced_ext n m vars vars wvars _ s Hbal);
      [done | by rewrite length_insert | done |].
    intros c. by apply observers_insert_same with None.
  - (* WCopy *)
    destruct (wdead wvars w) eqn:Hd; [|done]. apply wdead_true in Hd.
    destruct (wlive wvars v) as [hv |] eqn:Hv; [|done]. apply wlive_Some in Hv.
    injection Hstep as <-.
    destruct (balanced_wacquire n m vars wvars s w None
                {| WeakPtr.cb_ := WeakPtr.cb_ hv;
                   WeakPtr.observed_ := WeakPtr.observed_ hv |}
                Hbal Hd WN) as (s' & Hinc & Hbal').
    { intros c Hc. pose proof (observers_live c wvars v hv Hv Hc). lia. }
    unfold WeakPtr.ctor_copy, bind. rewrite Hinc. unfold ret.
    eexists _, _, _. split; [reflexivity | done].
  - (* WMove *)
    destruct (wdead wvars w) eqn:Hd; [|done]. apply wdead_true in Hd.
    destruct (wlive wvars v) as [hv |] eqn:Hv; [|done]. apply wlive_Some in Hv.
    injection Hstep as <-. eexists _, _, s. split; [reflexivity|].
    apply (balanced_ext n m vars vars wvars _ s Hbal);
      [done | by rewrite !length_insert | done |].
    intros c. apply observers_insert2 with None (Some hv); try done. congruence.
  - (* WFromShared *)
    destruct (wdead wvars w) eqn:Hd; [|done]. apply wdead_true in Hd.
    destruct (live vars x) as [hx |] eqn:Hx; [|done]. apply live_Some in Hx.
    destruct (block_without_address hx) eqn:Hadm; [done|].
    injection Hstep as <-. unfold WeakPtr.ctor_shared.
    destruct (SharedPtr.operator_bool hx) eqn:Hbool.
    + destruct (balanced_wacquire n m vars wvars s w None
                  {| WeakPtr.cb_ := SharedPtr.cb_ hx;
                     WeakPtr.observed_ := SharedPtr.observed_ hx |}
                  Hbal Hd WN) as (s' & Hinc & Hbal').
      { simpl. intros c Hc. pose proof (owners_live c vars x hx Hx Hc). lia. }
      unfold bind. rewrite Hinc. unfold ret.
      eexists _, _, _. split; [reflexivity | done].
    + unfold bind, ret. eexists _, _, s. split; [reflexivity|].
      unfold block_without_address in Hadm. rewrite Hbool in Hadm.
      destruct (SharedPtr.cb_ hx) as [c |] eqn:Hc; [done|].
      apply (balanced_ext n m vars vars wvars _ s Hbal);
        [done | by rewrite length_insert | done |].
      intros c. by apply observers_insert_same with None.
  - (* WAssign *)
    destruct (wlive wvars w) as [hw |] eqn:Hw; [|done]. apply wlive_Some in Hw.
    destruct (wlive wvars v) as [hv |] eqn:Hv; [|done]. apply wlive_Some in Hv.
    injection Hstep as <-. unfold WeakPtr.operator_assign, bind.
    destruct (Nat.eqb_spec w v) as [-> | Hne].
    + unfold ret. eexists _, _, s. split; [reflexivity|]. by rewrite list_insert_id.
    + destruct (balanced_wrelease n m vars wvars s w hw _ Hbal Hw WE)
        as (s1 & Hdec & Hbal1).
      rewrite Hdec.
      destruct (balanced_wacquire n m vars _ s1 w
                  (Some {| WeakPtr.cb_ := None; WeakPtr.observed_ := nullptr |})
                  {| WeakPtr.cb_ := WeakPtr.cb_ hv;
                     WeakPtr.observed_ := WeakPtr.observed_ hv |}
                  Hbal1) as (s2 & Hinc & Hbal2).
      { apply list_lookup_insert_eq. by apply lookup_lt_Some in Hw. }
      { done. }
      { intros c Hc.
        assert (0 < observers c
                      (<[w := Some {| WeakPtr.cb_ := None;
                                      WeakPtr.observed_ := nullptr |}]> wvars))%nat;
          [|lia].
        apply (observers_live c _ v hv); [|done].
        by rewrite list_lookup_insert_ne. }
      rewrite Hinc. unfold ret. rewrite list_insert_insert_eq in Hbal2.
      eexists _, _, _. split; [reflexivity | done].
  - (* WAssignMove *)
    destruct (wlive wvars w) as [hw |] eqn:Hw; [|done]. apply wlive_Some in Hw.
    destruct (wlive wvars v) as [hv |] eqn:Hv; [|done]. apply wlive_Some in Hv.
    injection Hstep as <-. unfold WeakPtr.operator_assign_move, bind.
    destruct (Nat.eqb_spec w v) as [-> | Hne].
    + unfold ret. simpl. eexists _, _, s. split; [reflexivity|].
      rewrite (list_insert_id wvars v (Some hw)) by done.
      by rewrite list_insert_id.
    + destruct (balanced_wrelease n m vars wvars s w hw _ Hbal Hw WE)
        as (s1 & Hdec & Hbal1).
      rewrite Hdec. unfold ret. simpl.
      eexists _, _, _. split; [reflexivity|].
      rewrite <- (list_insert_insert_eq wvars w
                    (Some {| WeakPtr.cb_ := WeakPtr.cb_ hv;
                             WeakPtr.observed_ := WeakPtr.observed_ hv |})
                    (Some {| WeakPtr.cb_ := None; WeakPtr.observed_ := nullptr |})).
      apply (balanced_ext n m vars vars _ _ s1 Hbal1);
        [done | by rewrite !length_insert | done |].
      intros c.
      apply observers_insert2
        with (Some {| WeakPtr.cb_ := None; WeakPtr.observed_ := nullptr |})
             (Some hv); try done.
      * apply list_lookup_insert_eq. by apply lookup_lt_Some in Hw.
      * by rewrite list_lookup_insert_ne.
  - (* WAssignShared *)
    destruct (wlive wvars w) as [hw |] eqn:Hw; [|done]. apply wlive_Some in Hw.
    destruct (live vars x) as [hx |] eqn:Hx; [|done]. apply live_Some in Hx.
    injection Hstep as <-. unfold WeakPtr.operator_assign_shared.
    destruct (decide (WeakPtr.cb_ hw = SharedPtr.cb_ hx)) as [E | E].
    + unfold bind, ret. eexists _, _, s. split; [reflexivity|].
      by rewrite list_insert_id.
    + unfold bind.
      destruct (balanced_wrelease n m vars wvars s w hw _ Hbal Hw WE)
        as (s1 & Hdec & Hbal1).
      rewrite Hdec.
      destruct (balanced_wacquire n m vars _ s1 w
                  (Some {| WeakPtr.cb_ := None; WeakPtr.observed_ := nullptr |})
                  {| WeakPtr.cb_ := SharedPtr.cb_ hx;
                     WeakPtr.observed_ := SharedPtr.observed_ hx |}
                  Hbal1) as (s2 & Hinc & Hbal2).
      { apply list_lookup_insert_eq. by apply lookup_lt_Some in Hw. }
      { done. }
      { simpl. intros c Hc. pose proof (owners_live c vars x hx Hx Hc). lia. }
      rewrite Hinc. unfold ret. rewrite list_insert_insert_eq in Hbal2.
      eexists _, _, _. split; [reflexivity | done].
  - (* WReset *)
    destruct (wlive wvars w) as [hw |] eqn:Hw; [|done]. apply wlive_Some in Hw.
    injection Hstep as <-. unfold WeakPtr.Reset, bind.
    destruct (balanced_wrelease n m vars wvars s w hw _ Hbal Hw WE)
      as (s1 & Hdec & Hbal1).
    rewrite Hdec. unfold ret. eexists _, _, _. split; [reflexivity | done].
  - (* WSwap *)
    destruct (wlive wvars w) as [hw |] eqn:Hw; [|done]. apply wlive_Some in Hw.
    destruct (wlive wvars v) as [hv |] eqn:Hv; [|done]. apply wlive_Some in Hv.
    injection Hstep as <-. eexists _, _, s. split; [reflexivity|].
    apply (balanced_ext n m vars vars wvars _ s Hbal);
      [done | by rewrite !length_insert | done |].
    intros c. destruct (decide (w = v)) as [-> | Hne].
    + rewrite list_insert_insert_eq. simplify_eq.
      by apply observers_insert_same with (Some hw).
    + apply observers_insert2 with (Some hw) (Some hv); try done. simpl. lia.
  - (* WDestroy *)
    destruct (wlive wvars w) as [hw |] eqn:Hw; [|done]. apply wlive_Some in Hw.
    injection Hstep as <-. unfold WeakPtr.dtor, bind.
    destruct (balanced_wrelease n m vars wvars s w hw None Hbal Hw WN)
      as (s1 & Hdec & Hbal1).
    rewrite Hdec. unfold ret. eexists _, _, _. split; [reflexivity | done].
Qed.

Lemma mexec_balanced (n m : nat) (ops : list mp_op) (vars : frame) (wvars : wframe)
      (s : State) :
  balanced n m vars wvars s ->
  mexec ops vars wvars s <> MRejected ->
  exists vars' wvars' s',
    mexec ops vars wvars s = MFinished vars' wvars' s' /\
    balanced n m vars' wvars' s'.
Proof.
  revert vars wvars s.
  induction ops as [| op ops IH]; intros vars wvars s Hbal Hsc.
  - by exists vars, wvars, s.
  - simpl in *. destruct (mp_step op vars wvars) as [k |] eqn:Hstep; [|done].
    destruct (mp_step_balanced n m op vars wvars s k Hbal Hstep)
      as (vars1 & wvars1 & s1 & Hk & Hbal1).
    rewrite Hk in *. by apply IH.
Qed.

Lemma mexec_prefix (pre post : list mp_op) (vars : frame) (wvars : wframe) (s : State) :
  mexec (pre ++ post) vars wvars s <> MRejected ->
  mexec pre vars wvars s <> MRejected.
Proof.
  revert vars wvars s.
  induction pre as [| op pre IH]; intros vars wvars s H; [done|].
  simpl in *. destruct (mp_step op vars wvars) as [k |]; [|done].
  destruct (k s) as [[vars1 wvars1] s1 | |]; [by apply IH | done | done].
Qed.

Lemma balanced_start (n m : nat) :
  Z.of_nat n <= SIZE_MAX ->
  Z.of_nat m <= SIZE_MAX ->
  balanced n m (no_vars n) (no_wvars m) start.
Proof.
  intros Hn Hm. unfold balanced, no_vars, no_wvars.
  rewrite !length_replicate. do 4 (split; [done|]). split.
  - intros c _. split; [apply lookup_empty | done].
  - intros c. simpl. rewrite lookup_empty.
    rewrite owners_replicate_None, observers_replicate_None.
    repeat split; lia.
Qed.

(** The state of a program after [k] of its operations. *)
Lemma mexec_take_balanced (n m : nat) (ops : list mp_op) (k : nat) :
  Z.of_nat n <= SIZE_MAX ->
  Z.of_nat m <= SIZE_MAX ->
  mexec ops (no_vars n) (no_wvars m) start <> MRejected ->
  exists vars wvars s,
    mexec (take k ops) (no_vars n) (no_wvars m) start = MFinished vars wvars s /\
    balanced n m vars wvars s.
Proof.
  intros Hn Hm Hsc.
  rewrite <- (take_drop k ops) in Hsc. apply mexec_prefix in Hsc.
  by apply mexec_balanced; [apply balanced_start|].
Qed.

(** ** Programs that use SharedPtr and WeakPtr together *)

(** X1.  A program over [n] [SharedPtr] and [m] [WeakPtr] variables runs
    any sequence of the operations of both classes (construction, copy,
    move, aliasing, promotion with the exception caught, [Lock], demotion,
    assignment, [Reset], [Swap], destruction) in which every variable is
    used within its lifetime and no [SharedPtr] with a block and a null
    address is demoted.  After any number [k] of operations the run has
    returned without touching a deallocated block; [UseCount()] of every
    [SharedPtr] with a block is the number of live [SharedPtr]s on that
    block; [UseCount()] of every [WeakPtr] is that number too (0 without a
    block), and [Expired()] is true exactly if it is 0. *)
Theorem mixed_program_counts (n m : nat) (ops : list mp_op) (k : nat) :
  Z.of_nat n <= SIZE_MAX ->
  Z.of_nat m <= SIZE_MAX ->
  mexec ops (no_vars n) (no_wvars m) start <> MRejected ->
  exists vars wvars s,
    mexec (take k ops) (no_vars n) (no_wvars m) start = MFinished vars wvars s /\
    (forall x h c,
        live vars x = Some h ->
        SharedPtr.cb_ h = Some c ->
        SharedPtr.UseCount h s = Ok (Z.of_nat (owners c vars)) s) /\
    (forall x w,
        wlive wvars x = Some w ->
        WeakPtr.UseCount w s =
          Ok (match WeakPtr.cb_ w with
              | Some c => Z.of_nat (owners c vars)
              | None => 0
              end) s /\
        WeakPtr.Expired w s =
          Ok (match WeakPtr.cb_ w with
              | Some c => Nat.eqb (owners c vars) 0
              | None => true
              end) s).
Proof.
  intros Hn Hm Hsc.
  destruct (mexec_take_balanced n m ops k Hn Hm Hsc) as (vars & wvars & s & Hrun & Hbal).
  exists vars, wvars, s. split; [done|]. split.
  - intros x h c Hx Hc. apply live_Some in Hx.
    destruct (balanced_owned _ _ _ _ _ _ _ _ Hbal Hx Hc) as (b & Hb & Hs & _).
    unfold SharedPtr.UseCount, SharedPtr.GetCBCounter, read.
    by rewrite Hc, Hb, Hs.
  - intros x w Hx. apply wlive_Some in Hx. split.
    + by apply (balanced_GetCBCounter n m vars wvars s x).
    + by apply (balanced_Expired n m vars wvars s x).
Qed.

(** X2.  In such a program, after any number of operations: a location
    that [new] has not handed out is not allocated and has no event; a block
    that was handed out is allocated exactly if a live handle of either kind
    is on it, has released its payload once if no [SharedPtr] is left on it
    and not at all otherwise, and has been deallocated once if no handle at
    all is left and not at all otherwise. *)
Theorem mixed_program_releases_once (n m : nat) (ops : list mp_op) (k : nat) :
  Z.of_nat n <= SIZE_MAX ->
  Z.of_nat m <= SIZE_MAX ->
  mexec ops (no_vars n) (no_wvars m) start <> MRejected ->
  exists vars wvars s,
    mexec (take k ops) (no_vars n) (no_wvars m) start = MFinished vars wvars s /\
    (forall c, (next s <= c)%nat ->
               heap s !! c = None /\ events_of c (log s) = []) /\
    (forall c, (c < next s)%nat ->
               (is_Some (heap s !! c) <->
                (0 < owners c vars + observers c wvars)%nat) /\
               payload_releases (events_of c (log s)) =
                 (if Nat.eqb (owners c vars) 0 then 1%nat else 0%nat) /\
               block_frees (events_of c (log s)) =
                 (if Nat.eqb (owners c vars + observers c wvars) 0
                  then 1%nat else 0%nat)).
Proof.
  intros Hn Hm Hsc.
  destruct (mexec_take_balanced n m ops k Hn Hm Hsc) as (vars & wvars & s & Hrun & Hbal).
  exists vars, wvars, s. split; [done|].
  destruct Hbal as (_ & _ & _ & _ & Hnext & Hall). split; [done|].
  intros c Hlt. specialize (Hall c).
  destruct (heap s !! c) as [b |].
  - destruct Hall as (_ & _ & Hpos & Hfr & Hpr). rewrite Hfr, Hpr.
    destruct (Nat.eqb_spec (owners c vars + observers c wvars) 0); [lia|].
    repeat split; eauto.
  - destruct Hall as (Ho & Hw & Hlog). destruct (Hlog Hlt) as [Hfr Hpr].
    rewrite Hfr, Hpr, Ho, Hw. simpl. repeat split; try done.
    all: first [by intros [? ?] | lia].
Qed.

Lemma owners_all_dead (c : loc) (vars : frame) :
  (forall x, live vars x = None) -> owners c vars = O.
Proof.
  induction vars as [| v vars IH]; intros H; [done|]. simpl.
  pose proof (H O) as H0. unfold live in H0. simpl in H0.
  destruct v as [h |]; [done|]. simpl. apply IH.
  intros x. apply (H (S x)).
Qed.

Lemma observers_all_dead (c : loc) (wvars : wframe) :
  (forall x, wlive wvars x = None) -> observers c wvars = O.
Proof.
  induction wvars as [| v wvars IH]; intros H; [done|]. simpl.
  pose proof (H O) as H0. unfold wlive in H0. simpl in H0.
  destruct v as [h |]; [done|]. simpl. apply IH.
  intros x. apply (H (S x)).
Qed.

(** X3.  No leak and no double release: when such a program has destroyed
    all its variables, no control block is allocated any more, and every
    block it ever allocated has released its payload exactly once and has
    been deallocated exactly once. *)
Theorem mixed_program_no_leak (n m : nat) (ops : list mp_op)
        (vars : frame) (wvars : wframe) (s : State) :
  Z.of_nat n <= SIZE_MAX ->
  Z.of_nat m <= SIZE_MAX ->
  mexec ops (no_vars n) (no_wvars m) start = MFinished vars wvars s ->
  (forall x, live vars x = None) ->
  (forall x, wlive wvars x = None) ->
  heap s = ∅ /\
  forall c, (c < next s)%nat ->
            payload_releases (events_of c (log s)) = 1%nat /\
            block_frees (events_of c (log s)) = 1%nat.
Proof.
  intros Hn Hm Hrun Hdead Hwdead.
  destruct (mexec_balanced n m ops _ _ _ (balanced_start n m Hn Hm))
    as (vars' & wvars' & s' & Hrun' & Hbal).
  { by rewrite Hrun. }
  rewrite Hrun in Hrun'. injection Hrun' as <- <- <-.
  destruct Hbal as (_ & _ & _ & _ & Hnext & Hall).
  assert (forall c, heap s !! c = None) as Hnone.
  { intros c. specialize (Hall c). destruct (heap s !! c) as [b |]; [|done].
    destruct Hall as (_ & _ & Hpos & _).
    rewrite (owners_all_dead c vars Hdead), (observers_all_dead c wvars Hwdead) in Hpos.
    lia. }
  split.
  - apply map_eq. intros c. by rewrite Hnone, lookup_empty.
  - intros c Hlt. specialize (Hall c). rewrite Hnone in Hall.
    destruct Hall as (_ & _ & Hlog). destruct (Hlog Hlt). done.
Qed.

Lemma mixed_program_counts_witness :
  exists vars wvars s,
    mexec (take 6 mixed_sample) (no_vars 3) (no_wvars 2) start =
      MFinished vars wvars s /\
    (forall x h c,
        live vars x = Some h ->
        SharedPtr.cb_ h = Some c ->
        SharedPtr.UseCount h s = Ok (Z.of_nat (owners c vars)) s) /\
    (forall x w,
        wlive wvars x = Some w ->
        WeakPtr.UseCount w s =
          Ok (match WeakPtr.cb_ w with
              | Some c => Z.of_nat (owners c vars)
              | None => 0
              end) s /\
        WeakPtr.Expired w s =
          Ok (match WeakPtr.cb_ w with
              | Some c => Nat.eqb (owners c vars) 0
              | None => true
              end) s).
Proof.
  apply (mixed_program_counts 3 2 mixed_sample 6).
  - unfold SIZE_MAX. lia.
  - unfold SIZE_MAX. lia.
  - vm_compute. discriminate.
Defined.

Lemma mixed_program_releases_once_witness :
  exists vars wvars s,
    mexec (take 8 mixed_sample) (no_vars 3) (no_wvars 2) start =
      MFinished vars wvars s /\
    (forall c, (next s <= c)%nat ->
               heap s !! c = None /\ events_of c (log s) = []) /\
    (forall c, (c < next s)%nat ->
               (is_Some (heap s !! c) <->
                (0 < owners c vars + observers c wvars)%nat) /\
               payload_releases (events_of c (log s)) =
                 (if Nat.eqb (owners c vars) 0 then 1%nat else 0%nat) /\
               block_frees (events_of c (log s)) =
                 (if Nat.eqb (owners c vars + observers c wvars) 0
                  then 1%nat else 0%nat)).
Proof.
  apply (mixed_program_releases_once 3 2 mixed_sample 8).
  - unfold SIZE_MAX. lia.
  - unfold SIZE_MAX. lia.
  - vm_compute. discriminate.
Defined.

Lemma mixed_program_no_leak_witness :
  heap {| heap := ∅; next := 1%nat;
          log := [(O, DestroyInPlace); (O, DeleteThis)] |} = ∅ /\
  forall c,
    (c < 1)%nat ->
    payload_releases (events_of c [(O, DestroyInPlace); (O, DeleteThis)]) = 1%nat /\
    block_frees (events_of c [(O, DestroyInPlace); (O, DeleteThis)]) = 1%nat.
Proof.
  apply (mixed_program_no_leak 3 2 mixed_sample
           [None; None; None] [None; None]
           {| heap := ∅; next := 1%nat;
              log := [(O, DestroyInPlace); (O, DeleteThis)] |}).
  - unfold SIZE_MAX. lia.
  - unfold SIZE_MAX. lia.
  - vm_compute. reflexivity.
  - intros [| [| [| x]]]; reflexivity.
  - intros [| [| x]]; reflexivity.
Defined.

(** ** Single operations: aliasing, round trips, double adoption *)

Lemma pre_decr_incr (x : Z) : 0 <= x < SIZE_MAX -> pre_decr (pre_incr x) = x.
Proof.
  intros H. rewrite pre_incr_small by done. rewrite pre_decr_pos by lia. lia.
Qed.

Lemma State_eta (s : State) :
  {| heap := heap s; next := next s; log := log s |} = s.
Proof. by destruct s. Qed.

(** Adding a strong reference and taking it away again restores the
    block, with no effect. *)
Lemma DecreaseSharedCounter_Increase (b : ControlBlock) :
  0 < GetSharedCounter b < SIZE_MAX ->
  DecreaseSharedCounter (fst (IncreaseSharedCounter b)) = (b, []).
Proof.
  intros H.
  destruct b as [[sc wc p] | [sc wc]]; simpl in *;
    unfold ControlBlockPointer.DecreaseSharedCounter,
      ControlBlockObject.DecreaseSharedCounter; simpl;
    rewrite pre_decr_incr by lia;
    destruct (Z.eqb_spec sc 0); try lia;
    by rewrite andb_false_r.
Qed.

Lemma DecreaseWeakCounter_Increase (b : ControlBlock) :
  0 <= weak_counter b < SIZE_MAX ->
  0 < GetSharedCounter b \/ 0 < weak_counter b ->
  DecreaseWeakCounter (fst (IncreaseWeakCounter b)) = (b, []).
Proof.
  intros H Hpos.
  destruct b as [[sc wc p] | [sc wc]]; simpl in *;
    unfold ControlBlockPointer.DecreaseWeakCounter,
      ControlBlockObject.DecreaseWeakCounter; simpl;
    rewrite pre_decr_incr by lia;
    destruct (Z.eqb_spec wc 0), (Z.eqb_spec sc 0); try lia; done.
Qed.

(** A strong decrement through a pointer to an allocated block. *)
Lemma call_DecreaseSharedCounter (c : loc) (s : State) (b : ControlBlock) :
  heap s !! c = Some b ->
  0 < GetSharedCounter b <= SIZE_MAX ->
  exists b',
    GetSharedCounter b' = GetSharedCounter b - 1 /\
    weak_counter b' = weak_counter b /\
    release_event b' = release_event b /\
    call c DecreaseSharedCounter s =
      Ok tt
         {| heap := if (GetSharedCounter b =? 1) && (weak_counter b =? 0)
                    then delete c (heap s) else <[c := b']> (heap s);
            next := next s;
            log := log s ++
                   (if GetSharedCounter b =? 1
                    then (c, release_event b) ::
                         (if weak_counter b =? 0 then [(c, DeleteThis)] else [])
                    else []) |}.
Proof.
  intros Hb Hr. unfold call. rewrite Hb.
  destruct b as [[sc wc p] | [sc wc]]; simpl in *.
  - exists (Separate {| ControlBlockPointer.shared_cnt_ := sc - 1;
                        ControlBlockPointer.weak_cnt_ := wc;
                        ControlBlockPointer.ptr_ := p |}).
    do 3 (split; [reflexivity|]).
    unfold ControlBlockPointer.DecreaseSharedCounter. simpl.
    rewrite pre_decr_pos by lia.
    destruct (Z.eqb_spec (sc - 1) 0), (Z.eqb_spec sc 1), (Z.eqb_spec wc 0);
      try lia; simpl; rewrite ?app_nil_r; reflexivity.
  - exists (Combined {| ControlBlockObject.shared_cnt_ := sc - 1;
                        ControlBlockObject.weak_cnt_ := wc |}).
    do 3 (split; [reflexivity|]).
    unfold ControlBlockObject.DecreaseSharedCounter. simpl.
    rewrite pre_decr_pos by lia.
    destruct (Z.eqb_spec (sc - 1) 0), (Z.eqb_spec sc 1), (Z.eqb_spec wc 0);
      try lia; simpl; rewrite ?app_nil_r; reflexivity.
Qed.

Lemma release_event_Increase (b : ControlBlock) :
  release_event (fst (IncreaseSharedCounter b)) = release_event b.
Proof. by destruct b as [[sc wc p] | [sc wc]]. Qed.

(** X4.  Aliasing.  From a handle [a] on a block with [n] owners, the
    aliasing constructor makes a handle that exposes the given address and
    shares the block: both report [n + 1].  Destroying [a] then releases
    nothing and leaves [n] owners.  If [a] was the only owner, destroying
    the alias afterwards releases the payload of the block (for a separate
    block the address it adopted, whatever address the alias exposed), and
    deallocates the block if no weak reference is left. *)
Theorem alias_shares_ownership
        (a : SharedPtr.t) (p : ptr) (s : State) (c : loc) (b : ControlBlock) :
  SharedPtr.cb_ a = Some c ->
  heap s !! c = Some b ->
  0 < GetSharedCounter b < SIZE_MAX ->
  0 <= weak_counter b ->
  let al := {| SharedPtr.cb_ := Some c; SharedPtr.observed_ := p |} in
  exists s1 s2,
    SharedPtr.ctor_alias a p s = Ok al s1 /\
    SharedPtr.Get al = p /\
    SharedPtr.UseCount a s1 = Ok (GetSharedCounter b + 1) s1 /\
    SharedPtr.UseCount al s1 = Ok (GetSharedCounter b + 1) s1 /\
    SharedPtr.dtor a s1 = Ok tt s2 /\
    log s2 = log s /\
    SharedPtr.UseCount al s2 = Ok (GetSharedCounter b) s2 /\
    (GetSharedCounter b = 1 ->
     exists s3,
       SharedPtr.dtor al s2 = Ok tt s3 /\
       log s3 = log s ++ (c, release_event b) ::
                         (if weak_counter b =? 0 then [(c, DeleteThis)] else []) /\
       (weak_counter b = 0 -> heap s3 !! c = None) /\
       (0 < weak_counter b -> strong_at s3 c = Some 0)).
Proof.
  intros Ha Hb Hr Hw al.
  destruct (IncreaseSharedCounter_spec b) as (Es & Ew & _).
  rewrite pre_incr_small in Es by lia.
  pose proof (release_event_Increase b) as Erel.
  set (b1 := fst (IncreaseSharedCounter b)) in *.
  set (s1 := {| heap := <[c := b1]> (heap s); next := next s; log := log s |}).
  assert (heap s1 !! c = Some b1) as Hb1 by apply lookup_insert_eq.
  destruct (call_DecreaseSharedCounter c s1 b1 Hb1) as (b2 & Es2 & Ew2 & Erel2 & Hdec);
    [lia|].
  rewrite Es, Ew in Hdec.
  destruct (Z.eqb_spec (GetSharedCounter b + 1) 1) as [|_]; [lia|].
  simpl in Hdec. rewrite app_nil_r in Hdec.
  set (s2 := {| heap := <[c := b2]> (<[c := b1]> (heap s));
                next := next s; log := log s |}) in *.
  assert (heap s2 !! c = Some b2) as Hb2 by apply lookup_insert_eq.
  exists s1, s2. repeat split.
  - unfold SharedPtr.ctor_alias, bind, SharedPtr.IncreaseCBCounter. simpl.
    rewrite Ha. by rewrite (call_IncreaseSharedCounter c s b Hb).
  - unfold SharedPtr.UseCount, SharedPtr.GetCBCounter, read.
    by rewrite Ha, Hb1, Es.
  - unfold SharedPtr.UseCount, SharedPtr.GetCBCounter, read, al.
    cbn [SharedPtr.cb_]. by rewrite Hb1, Es.
  - unfold SharedPtr.dtor, SharedPtr.DecreaseCBCounter. by rewrite Ha.
  - unfold SharedPtr.UseCount, SharedPtr.GetCBCounter, read, al.
    cbn [SharedPtr.cb_]. rewrite Hb2, Es2, Es. f_equal. lia.
  - intros Hone.
    destruct (call_DecreaseSharedCounter c s2 b2 Hb2) as (b3 & Es3 & Ew3 & _ & Hdec3);
      [lia|].
    rewrite Es2, Es, Ew2, Ew, Erel2, Erel in Hdec3.
    destruct (Z.eqb_spec (GetSharedCounter b + 1 - 1) 1) as [_|]; [|lia].
    eexists. split; [|split; [|split]].
    + unfold SharedPtr.dtor, SharedPtr.DecreaseCBCounter. simpl. exact Hdec3.
    + reflexivity.
    + intros W0. simpl. rewrite W0. simpl. apply lookup_delete_eq.
    + intros Wpos. unfold strong_at. simpl.
      destruct (Z.eqb_spec (weak_counter b) 0); [lia|]. simpl.
      rewrite lookup_insert_eq. simpl. f_equal. lia.
Qed.

Lemma alias_shares_ownership_witness :
  exists s1 s2,
    SharedPtr.ctor_alias
      {| SharedPtr.cb_ := Some O; SharedPtr.observed_ := Some (Ext 5) |}
      (Some (Ext 9)) (one_block 1 0 (Some (Ext 5))) =
      Ok {| SharedPtr.cb_ := Some O; SharedPtr.observed_ := Some (Ext 9) |} s1 /\
    SharedPtr.dtor
      {| SharedPtr.cb_ := Some O; SharedPtr.observed_ := Some (Ext 5) |} s1 =
      Ok tt s2 /\
    log s2 = [] /\
    exists s3,
      SharedPtr.dtor
        {| SharedPtr.cb_ := Some O; SharedPtr.observed_ := Some (Ext 9) |} s2 =
        Ok tt s3 /\
      log s3 = [(O, DeletePayload (Some (Ext 5))); (O, DeleteThis)].
Proof.
  destruct (alias_shares_ownership
              {| SharedPtr.cb_ := Some O; SharedPtr.observed_ := Some (Ext 5) |}
              (Some (Ext 9)) (one_block 1 0 (Some (Ext 5))) O
              (Separate {| ControlBlockPointer.shared_cnt_ := 1;
                           ControlBlockPointer.weak_cnt_ := 0;
                           ControlBlockPointer.ptr_ := Some (Ext 5) |}))
    as (s1 & s2 & H1 & _ & _ & _ & H2 & H3 & _ & H4).
  - reflexivity.
  - reflexivity.
  - unfold SIZE_MAX. simpl. lia.
  - simpl. lia.
  - destruct (H4 eq_refl) as (s3 & H5 & H6 & _).
    exists s1, s2. repeat split; try done. by exists s3.
Defined.

(** X5.  Round trips.  On a block that has owners (fewer than the largest
    [size_t] value), copying a [SharedPtr] and destroying the copy, or
    locking a [WeakPtr] and destroying the handle obtained, gives back
    exactly the state before; so does copying a [WeakPtr] on an allocated
    block and destroying the copy. *)
Theorem temporaries_restore_state
        (h : SharedPtr.t) (w : WeakPtr.t) (s : State) (c : loc) (b : ControlBlock) :
  heap s !! c = Some b ->
  0 < GetSharedCounter b < SIZE_MAX ->
  0 <= weak_counter b < SIZE_MAX ->
  (SharedPtr.cb_ h = Some c ->
   exists s1,
     SharedPtr.ctor_copy h s = Ok h s1 /\
     strong_at s1 c = Some (GetSharedCounter b + 1) /\
     SharedPtr.dtor h s1 = Ok tt s) /\
  (WeakPtr.cb_ w = Some c ->
   (exists r s1,
       WeakPtr.Lock w s = Ok r s1 /\
       SharedPtr.cb_ r = Some c /\
       strong_at s1 c = Some (GetSharedCounter b + 1) /\
       SharedPtr.dtor r s1 = Ok tt s) /\
   (exists s1,
       WeakPtr.ctor_copy w s = Ok w s1 /\
       weak_at s1 c = Some (weak_counter b + 1) /\
       WeakPtr.dtor w s1 = Ok tt s)).
Proof.
  intros Hb Hs Hw.
  assert (forall h',
             SharedPtr.cb_ h' = Some c ->
             SharedPtr.dtor h'
               {| heap := <[c := fst (IncreaseSharedCounter b)]> (heap s);
                  next := next s; log := log s |} = Ok tt s) as Hback.
  { intros h' Hc. unfold SharedPtr.dtor, SharedPtr.DecreaseCBCounter, call.
    rewrite Hc. simpl. rewrite lookup_insert_eq.
    rewrite DecreaseSharedCounter_Increase by done. simpl.
    rewrite insert_insert_eq, insert_id by done.
    by rewrite app_nil_r, State_eta. }
  assert (strong_at
            {| heap := <[c := fst (IncreaseSharedCounter b)]> (heap s);
               next := next s; log := log s |} c
          = Some (GetSharedCounter b + 1)) as Hcount.
  { unfold strong_at. simpl. rewrite lookup_insert_eq. simpl.
    destruct (IncreaseSharedCounter_spec b) as (-> & _).
    by rewrite pre_incr_small by lia. }
  split.
  - intros Hc. eexists. split; [|split; [exact Hcount | by apply Hback]].
    unfold SharedPtr.ctor_copy, bind, SharedPtr.IncreaseCBCounter. simpl.
    rewrite Hc, (call_IncreaseSharedCounter c s b Hb). unfold ret.
    by destruct h; simpl in *; subst.
  - intros Hc. split.
    + eexists _, _. split.
      { unfold WeakPtr.Lock, WeakPtr.Expired, WeakPtr.GetCBCounter, bind, read.
        rewrite Hc, Hb. simpl.
        destruct (Z.eqb_spec (GetSharedCounter b) 0); [lia|].
        unfold SharedPtr.IncreaseCBCounter. simpl.
        by rewrite (call_IncreaseSharedCounter c s b Hb). }
      split; [done|]. split; [exact Hcount | by apply Hback].
    + eexists. split; [|split].
      * unfold WeakPtr.ctor_copy, bind, WeakPtr.IncreaseCBCounter. simpl.
        rewrite Hc, (call_IncreaseWeakCounter c s b Hb). unfold ret.
        by destruct w; simpl in *; subst.
      * unfold weak_at. simpl. rewrite lookup_insert_eq. simpl.
        destruct (IncreaseWeakCounter_spec b) as (_ & -> & _).
        by rewrite pre_incr_small by lia.
      * unfold WeakPtr.dtor, WeakPtr.DecreaseCBCounter, call.
        rewrite Hc. simpl. rewrite lookup_insert_eq.
        rewrite DecreaseWeakCounter_Increase by (done || lia). simpl.
        rewrite insert_insert_eq, insert_id by done.
        by rewrite app_nil_r, State_eta.
Qed.

Lemma temporaries_restore_state_witness :
  (exists s1,
      SharedPtr.ctor_copy
        {| SharedPtr.cb_ := Some O; SharedPtr.observed_ := Some (Ext 5) |}
        (one_block 1 0 (Some (Ext 5))) =
        Ok {| SharedPtr.cb_ := Some O; SharedPtr.observed_ := Some (Ext 5) |} s1 /\
      strong_at s1 O = Some (1 + 1) /\
      SharedPtr.dtor
        {| SharedPtr.cb_ := Some O; SharedPtr.observed_ := Some (Ext 5) |} s1 =
        Ok tt (one_block 1 0 (Some (Ext 5)))).
Proof.
  apply (temporaries_restore_state
           {| SharedPtr.cb_ := Some O; SharedPtr.observed_ := Some (Ext 5) |}
           WeakPtr.ctor_default
           (one_block 1 0 (Some (Ext 5))) O
           (Separate {| ControlBlockPointer.shared_cnt_ := 1;
                        ControlBlockPointer.weak_cnt_ := 0;
                        ControlBlockPointer.ptr_ := Some (Ext 5) |})).
  - reflexivity.
  - unfold SIZE_MAX. simpl. lia.
  - unfold SIZE_MAX. simpl. lia.
  - reflexivity.
Defined.

(** X6.  Double adoption is not detected.  Two [SharedPtr]s made from the
    same raw address get two control blocks with one owner each, in any
    state; destroying both deletes the address twice. *)
Theorem double_adoption_deletes_twice (p : ptr) (s : State) :
  let c1 := next s in
  let c2 := S (next s) in
  let h1 := {| SharedPtr.cb_ := Some c1; SharedPtr.observed_ := p |} in
  let h2 := {| SharedPtr.cb_ := Some c2; SharedPtr.observed_ := p |} in
  exists s1 s2 s3 s4,
    SharedPtr.ctor_ptr p s = Ok h1 s1 /\
    SharedPtr.ctor_ptr p s1 = Ok h2 s2 /\
    SharedPtr.UseCount h1 s2 = Ok 1 s2 /\
    SharedPtr.UseCount h2 s2 = Ok 1 s2 /\
    SharedPtr.equal h1 h2 = true /\
    SharedPtr.dtor h1 s2 = Ok tt s3 /\
    SharedPtr.dtor h2 s3 = Ok tt s4 /\
    log s4 = log s ++ [(c1, DeletePayload p); (c1, DeleteThis);
                       (c2, DeletePayload p); (c2, DeleteThis)].
Proof.
  intros c1 c2 h1 h2.
  assert (c1 <> c2) as Hne by (unfold c1, c2; lia).
  eexists _, _, _, _. split; [reflexivity|]. split; [reflexivity|].
  unfold SharedPtr.UseCount, SharedPtr.GetCBCounter, SharedPtr.dtor,
    SharedPtr.DecreaseCBCounter, call, read.
  cbn [heap next log SharedPtr.cb_ h1 h2].
  fold c1. fold c2.
  rewrite lookup_insert_ne, !lookup_insert_eq by done.
  split; [reflexivity|]. split; [reflexivity|]. split.
  { unfold SharedPtr.equal, h1, h2. simpl.
    destruct p as [[a | a] |]; try done; apply Nat.eqb_refl. }
  change (DecreaseSharedCounter (Separate (ControlBlockPointer.ctor p)))
    with (Separate {| ControlBlockPointer.shared_cnt_ := 0;
                      ControlBlockPointer.weak_cnt_ := 0;
                      ControlBlockPointer.ptr_ := p |},
          [DeletePayload p; DeleteThis]).
  cbn [existsb is_delete_this orb map].
  split; [reflexivity|]. cbn [heap next log].
  rewrite lookup_delete_ne, lookup_insert_eq by done.
  change (DecreaseSharedCounter (Separate (ControlBlockPointer.ctor p)))
    with (Separate {| ControlBlockPointer.shared_cnt_ := 0;
                      ControlBlockPointer.weak_cnt_ := 0;
                      ControlBlockPointer.ptr_ := p |},
          [DeletePayload p; DeleteThis]).
  cbn [existsb is_delete_this orb map].
  split; [reflexivity|]. cbn [log]. by rewrite <- app_assoc.
Qed.

(** ** WeakPtr never touches the payload *)

Lemma strong_untouched_refl (s : State) : strong_untouched s s.
Proof. split; [done|]. intros c b' Hb. by exists b'. Qed.

Lemma strong_untouched_trans (s1 s2 s3 : State) :
  strong_untouched s1 s2 -> strong_untouched s2 s3 -> strong_untouched s1 s3.
Proof.
  intros [Hp1 Hh1] [Hp2 Hh2]. split; [congruence|].
  intros c b3 Hb3. destruct (Hh2 c b3 Hb3) as (b2 & Hb2 & E2).
  destruct (Hh1 c b2 Hb2) as (b1 & Hb1 & E1). exists b1. split; [done | congruence].
Qed.

Lemma map_snd_tagged (c : loc) (es : list effect) : map snd (map (pair c) es) = es.
Proof. induction es; simpl; congruence. Qed.

(** A call that leaves the strong counter alone and releases no payload. *)
Lemma call_strong_untouched (c : loc) (f : ControlBlock -> ControlBlock * list effect)
      (s s' : State) :
  (forall b, GetSharedCounter (fst (f b)) = GetSharedCounter b /\
             payload_releases (snd (f b)) = O) ->
  call c f s = Ok tt s' ->
  strong_untouched s s'.
Proof.
  intros Hf. unfold call. destruct (heap s !! c) as [b |] eqn:Hb; [|done].
  destruct (Hf b) as [Es Ep]. destruct (f b) as [b' es]. simpl in *.
  intros [= <-]. split; simpl.
  - by rewrite map_app, map_snd_tagged, payload_releases_app, Ep, Nat.add_0_r.
  - intros c' b'' Hlook. destruct (decide (c' = c)) as [-> | Hne].
    + destruct (existsb is_delete_this es).
      * by rewrite lookup_delete_eq in Hlook.
      * rewrite lookup_insert_eq in Hlook. injection Hlook as <-.
        exists b. split; [done | congruence].
    + destruct (existsb is_delete_this es).
      * rewrite lookup_delete_ne in Hlook by done. by exists b''.
      * rewrite lookup_insert_ne in Hlook by done. by exists b''.
Qed.

Lemma weak_calls_strong_untouched (b : ControlBlock) :
  (GetSharedCounter (fst (IncreaseWeakCounter b)) = GetSharedCounter b /\
   payload_releases (snd (IncreaseWeakCounter b)) = O) /\
  (GetSharedCounter (fst (DecreaseWeakCounter b)) = GetSharedCounter b /\
   payload_releases (snd (DecreaseWeakCounter b)) = O).
Proof.
  split.
  - destruct (IncreaseWeakCounter_spec b) as (? & _ & ->). done.
  - pose proof (cb_call_counters DecWeak b) as H. cbn in H.
    destruct (DecreaseWeakCounter b) as [b' es]. simpl.
    by destruct H as (? & _ & ? & _).
Qed.

Lemma WeakPtr_Increase_untouched (w : WeakPtr.t) (s s' : State) :
  WeakPtr.IncreaseCBCounter w s = Ok tt s' -> strong_untouched s s'.
Proof.
  unfold WeakPtr.IncreaseCBCounter. destruct (WeakPtr.cb_ w) as [c |].
  - apply call_strong_untouched. intros b. apply weak_calls_strong_untouched.
  - intros [= <-]. apply strong_untouched_refl.
Qed.

Lemma WeakPtr_Decrease_untouched (w : WeakPtr.t) (s s' : State) :
  WeakPtr.DecreaseCBCounter w s = Ok tt s' -> strong_untouched s s'.
Proof.
  unfold WeakPtr.DecreaseCBCounter. destruct (WeakPtr.cb_ w) as [c |].
  - apply call_strong_untouched. intros b. apply weak_calls_strong_untouched.
  - intros [= <-]. apply strong_untouched_refl.
Qed.

Lemma WeakPtr_GetCBCounter_untouched (w : WeakPtr.t) (s s' : State) (n : Z) :
  WeakPtr.GetCBCounter w s = Ok n s' -> strong_untouched s s'.
Proof.
  unfold WeakPtr.GetCBCounter, read, ret.
  destruct (WeakPtr.cb_ w) as [c |]; [destruct (heap s !! c) |];
    intros [= <- <-] || done; apply strong_untouched_refl.
Qed.

(** X7.  Whatever the state, a [WeakPtr] call that is not a promotion
    (copy, demotion, the three assignments, destruction, [Reset],
    [UseCount], [Expired]) and that returns has released no payload and
    has left the strong count of every block that is still allocated as it
    was. *)
Theorem weak_calls_leave_payload (op : wk_call) (s s' : State) :
  wk_run op s = Ok tt s' ->
  strong_untouched s s'.
Proof.
  pose proof strong_untouched_refl as R.
  pose proof strong_untouched_trans as T.
  pose proof WeakPtr_Increase_untouched as HI.
  pose proof WeakPtr_Decrease_untouched as HD.
  pose proof WeakPtr_GetCBCounter_untouched as HG.
  intros Hrun. destruct op; unfold wk_run in Hrun;
    unfold WeakPtr.ctor_copy, WeakPtr.ctor_shared, WeakPtr.operator_assign,
      WeakPtr.operator_assign_move, WeakPtr.operator_assign_shared,
      WeakPtr.dtor, WeakPtr.Reset, WeakPtr.UseCount, WeakPtr.Expired in Hrun;
    monad_inv;
    repeat match goal with x : unit |- _ => destruct x end;
    eauto 6.
Qed.

Lemma weak_calls_leave_payload_witness :
  strong_untouched (one_block 0 1 (Some (Ext 5)))
                   {| heap := ∅; next := 1%nat; log := [(O, DeleteThis)] |}.
Proof.
  apply (weak_calls_leave_payload
           (WkDtor {| WeakPtr.cb_ := Some O; WeakPtr.observed_ := Some (Ext 5) |})).
  reflexivity.
Defined.

(** ** The one-counter control blocks of shared/shared.h *)

Lemma simple_call_with_weak (inc : bool) (b : SimpleControlBlock) :
  cb_call (strong_call inc) (with_weak b) =
    (with_weak (fst (simple_call inc b)), snd (simple_call inc b)).
Proof.
  destruct inc, b as [[n p] | [n]]; simpl; try reflexivity.
  - unfold ControlBlockPointer.DecreaseSharedCounter. simpl.
    by destruct (pre_decr n =? 0).
  - unfold ControlBlockObject.DecreaseSharedCounter. simpl.
    by destruct (pre_decr n =? 0).
Qed.

(** One run of the two kinds of blocks, side by side. *)
Lemma simple_blocks_step
        (ops : list bool) (l : simple_life) (seen : list effect) :
  cb_run (map strong_call ops) (with_weak_life l) seen =
    match simple_run ops l seen with
    | Some (l', es) => Some (with_weak_life l', es)
    | None => None
    end.
Proof.
  revert l seen. induction ops as [| op ops IH]; intros l seen; [done|].
  destruct l as [b |]; [|done]. simpl.
  rewrite simple_call_with_weak.
  destruct (simple_call op b) as [b' es]. simpl.
  rewrite <- IH. by destruct (existsb is_delete_this es).
Qed.

(** X8.  The control blocks of shared/shared.h, with their single counter,
    do call for call what the blocks with two counters do when no weak
    reference exists: under any sequence of increments and decrements both
    have the same counter and payload address, release the payload and
    deallocate at the same calls, and are undefined on the same
    sequences. *)
Theorem simple_blocks_agree
        (ops : list bool) (b : SimpleControlBlock) (this : loc) :
  GetSharedCounter (with_weak b) = GetCounter b /\
  GetPointer this (with_weak b) = SimpleGetPointer this b /\
  cb_run (map strong_call ops) (Live (with_weak b)) [] =
    match simple_run ops (SimpleLive b) [] with
    | Some (l', es) => Some (with_weak_life l', es)
    | None => None
    end.
Proof.
  split; [|split].
  - by destruct b as [[n p] | [n]].
  - by destruct b as [[n p] | [n]].
  - apply (simple_blocks_step ops (SimpleLive b) []).
Qed.

Lemma with_weak_observers (this : loc) (b : SimpleControlBlock) :
  GetSharedCounter (with_weak b) = GetCounter b /\
  GetPointer this (with_weak b) = SimpleGetPointer this b /\
  weak_counter (with_weak b) = 0.
Proof. by destruct b as [[n p] | [n]]. Qed.

(** X9.  A fresh one-counter block under a sequence of calls in which the
    counter is incremented only while it is positive and below the largest
    [size_t] value, and decremented only while it is positive: the run is
    defined; as long as the block is allocated its counter is positive and
    it has had no effect at all; once it is deallocated it has released its
    payload exactly once and has been deallocated exactly once. *)
Theorem simple_block_lifecycle (b : SimpleControlBlock) (ops : list bool) :
  GetCounter b = 1 ->
  cb_guarded (map strong_call ops) (Live (with_weak b)) = true ->
  exists l es,
    simple_run ops (SimpleLive b) [] = Some (l, es) /\
    match l with
    | SimpleLive b' =>
        0 < GetCounter b' /\ payload_releases es = O /\ block_frees es = O
    | SimpleFreed => payload_releases es = 1%nat /\ block_frees es = 1%nat
    end.
Proof.
  intros Hone Hg.
  assert (is_fresh (with_weak b)) as Hfresh.
  { destruct (with_weak_observers O b) as (Es & _ & Ew). split; congruence. }
  apply cb_inv_fresh in Hfresh.
  destruct (cb_run_split (map strong_call ops) [] (Live (with_weak b)) [] Hfresh)
    as (l' & es & Hrun & Hinv & _).
  { by rewrite app_nil_r. }
  change (Live (with_weak b)) with (with_weak_life (SimpleLive b)) in Hrun.
  rewrite simple_blocks_step in Hrun.
  destruct (simple_run ops (SimpleLive b) []) as [[l es0] |]; [|done].
  injection Hrun as <- <-. exists l, es0. split; [done|].
  destruct l as [b' |]; simpl in Hinv.
  - destruct (with_weak_observers O b') as (Es & _ & Ew).
    destruct Hinv as ([Hr _] & Hf & Hp & Hz). rewrite Es, Ew in *.
    destruct (Z.eqb_spec (GetCounter b') 0) as [E0 | E0].
    + specialize (Hz E0). lia.
    + repeat split; try done. lia.
  - destruct Hinv. done.
Qed.

Lemma simple_block_lifecycle_witness :
  exists l es,
    simple_run [true; false; false] (SimpleLive (SimpleCombined SimpleControlBlockObject.ctor)) []
      = Some (l, es) /\
    match l with
    | SimpleLive b' =>
        0 < GetCounter b' /\ payload_releases es = O /\ block_frees es = O
    | SimpleFreed => payload_releases es = 1%nat /\ block_frees es = 1%nat
    end.
Proof.
  apply (simple_block_lifecycle
           (SimpleCombined SimpleControlBlockObject.ctor) [true; false; false]).
  - reflexivity.
  - vm_compute. reflexivity.
Defined.

(** ** Intrusive reference counting *)

















Lemma RefCounted_DecRef_count (r : RefCounted.t) :
  RefCounted.RefCount (fst (RefCounted.DecRef r)) = pre_decr (RefCounted.RefCount r) /\
  snd (RefCounted.DecRef r) = (pre_decr (RefCounted.RefCount r) =? 0).
Proof. done. Qed.












(** X11.  [p.Reset(p.Get())].  When [p] is the only handle on its object,
    resetting it to its own raw pointer destroys the object and then
    increments the counter inside the destroyed object: undefined
    behaviour.  When the object has other handles, the call changes
    nothing. *)
Theorem intrusive_reset_to_self (h : IntrusivePtr.t) (s : IState)
        (o : loc) (r : RefCounted.t) :
  IntrusivePtr.Get h = Some o ->
  objs s !! o = Some r ->
  (RefCounted.RefCount r = 1 ->
   IntrusivePtr.Reset_ptr h (IntrusivePtr.Get h) s = None /\
   exists s', IntrusivePtr.DecRef h s = Some (tt, s') /\
              objs s' !! o = None /\
              destroyed s' = destroyed s ++ [o]) /\
  (1 < RefCounted.RefCount r <= SIZE_MAX ->
   IntrusivePtr.Reset_ptr h (IntrusivePtr.Get h) s = Some (h, s)).
Proof.
  unfold IntrusivePtr.Get. intros Ho Hr.
  destruct (RefCounted_DecRef_count r) as [Ec Eg].
  unfold IntrusivePtr.Reset_ptr, ibind, IntrusivePtr.DecRef. rewrite Ho, Hr.
  destruct (RefCounted.DecRef r) as [r' gone] eqn:Hdec. simpl in Ec, Eg. subst gone.
  split.
  - intros Hone. rewrite Hone. change (pre_decr 1 =? 0) with true.
    unfold IntrusivePtr.IncRef. cbn [IntrusivePtr.ptr_ objs].
    rewrite lookup_delete_eq. split; [done|].
    eexists. split; [reflexivity|]. cbn [objs destroyed].
    by rewrite lookup_delete_eq.
  - intros Hmany. rewrite pre_decr_pos in * by lia.
    destruct (Z.eqb_spec (RefCounted.RefCount r - 1) 0); [lia|].
    unfold IntrusivePtr.IncRef, iret. cbn [IntrusivePtr.ptr_ objs inext destroyed].
    rewrite lookup_insert_eq, insert_insert_eq.
    assert (RefCounted.IncRef r' = r) as ->.
    { destruct r as [[c]], r' as [[c']]. unfold RefCounted.RefCount in *.
      simpl in *. unfold RefCounted.IncRef. simpl. subst c'.
      rewrite pre_incr_small by lia. do 2 f_equal. lia. }
    rewrite insert_id by done. destruct h as [p], s as [ob nx ds].
    simpl in *. by subst p.
Qed.

Lemma intrusive_reset_to_self_witness :
  IntrusivePtr.Reset_ptr {| IntrusivePtr.ptr_ := Some O |} (Some O)
    {| objs := {[ O := {| RefCounted.counter_ := {| SimpleCounter.count_ := 1 |} |} ]};
       inext := 1%nat; destroyed := [] |} = None.
Proof.
  apply (intrusive_reset_to_self
           {| IntrusivePtr.ptr_ := Some O |}
           {| objs := {[ O := {| RefCounted.counter_ :=
                                   {| SimpleCounter.count_ := 1 |} |} ]};
              inext := 1%nat; destroyed := [] |}
           O {| RefCounted.counter_ := {| SimpleCounter.count_ := 1 |} |}).
  - reflexivity.
  - reflexivity.
  - reflexivity.
Defined.
Lemma ulive_Some (uvars : uframe) (x : nat) (w : UniquePtr.t) :
  ulive uvars x = Some w <-> uvars !! x = Some (Some w).
Proof.
  unfold ulive. destruct (uvars !! x) as [[w' |] |]; split; congruence.
Qed.

Lemma udead_true (uvars : uframe) (x : nat) :
  udead uvars x = true <-> uvars !! x = Some None.
Proof.
  unfold udead. destruct (uvars !! x) as [[w' |] |]; split; congruence.
Qed.

Lemma uholds_true (o : loc) (w : UniquePtr.t) :
  uholds o (Some w) = true <-> UniquePtr.Get w = Some o.
Proof. simpl. apply bool_decide_eq_true. Qed.

Lemma uholds_false (o : loc) (w : UniquePtr.t) :
  uholds o (Some w) = false <-> UniquePtr.Get w <> Some o.
Proof. simpl. apply bool_decide_eq_false. Qed.

Lemma uholders_insert (o : loc) (uvars : uframe) (x : nat) (v v' : option UniquePtr.t) :
  uvars !! x = Some v ->
  (uholders o (<[x := v']> uvars) + (if uholds o v then 1 else 0) =
   uholders o uvars + (if uholds o v' then 1 else 0))%nat.
Proof.
  revert x. induction uvars as [| u uvars IH]; intros [| x] Hx; simpl in *;
    simplify_eq.
  - destruct (uholds o v), (uholds o v'); lia.
  - specialize (IH x Hx). destruct (uholds o u); lia.
Qed.

Lemma uholders_le_length (o : loc) (uvars : uframe) :
  (uholders o uvars <= length uvars)%nat.
Proof.
  induction uvars as [| u uvars IH]; simpl; [lia|].
  destruct (uholds o u); lia.
Qed.

Lemma uholders_replicate_None (o : loc) (n : nat) :
  uholders o (replicate n None) = O.
Proof. induction n; simpl; auto. Qed.

Lemma uholders_insert_same (o : loc) (uvars : uframe) (x : nat) (v v' : option UniquePtr.t) :
  uvars !! x = Some v ->
  uholds o v = uholds o v' ->
  uholders o (<[x := v']> uvars) = uholders o uvars.
Proof.
  intros Hx Hv. pose proof (uholders_insert o uvars x v v' Hx) as H.
  rewrite Hv in H. destruct (uholds o v'); lia.
Qed.

Lemma uholders_insert_release (o : loc) (uvars : uframe) (x : nat) (v v' : option UniquePtr.t) :
  uvars !! x = Some v ->
  uholds o v = true ->
  uholds o v' = false ->
  uholders o uvars = S (uholders o (<[x := v']> uvars)).
Proof.
  intros Hx Hv Hv'. pose proof (uholders_insert o uvars x v v' Hx) as H.
  rewrite Hv, Hv' in H. lia.
Qed.

Lemma uholders_insert_acquire (o : loc) (uvars : uframe) (x : nat) (v v' : option UniquePtr.t) :
  uvars !! x = Some v ->
  uholds o v = false ->
  uholds o v' = true ->
  uholders o (<[x := v']> uvars) = S (uholders o uvars).
Proof.
  intros Hx Hv Hv'. pose proof (uholders_insert o uvars x v v' Hx) as H.
  rewrite Hv, Hv' in H. lia.
Qed.

Lemma uholders_live (o : loc) (uvars : uframe) (x : nat) (w : UniquePtr.t) :
  uvars !! x = Some (Some w) ->
  UniquePtr.Get w = Some o ->
  (0 < uholders o uvars)%nat.
Proof.
  intros Hx Hc.
  pose proof (uholders_insert o uvars x (Some w) None Hx) as H.
  apply uholds_true in Hc. rewrite Hc in H. simpl in H. lia.
Qed.

Lemma uholders_insert2 (o : loc) (uvars : uframe) (x y : nat)
      (vx vy vx' vy' : option UniquePtr.t) :
  uvars !! x = Some vx ->
  uvars !! y = Some vy ->
  x <> y ->
  ((if uholds o vx' then 1 else 0) + (if uholds o vy' then 1 else 0) =
   (if uholds o vx then 1 else 0) + (if uholds o vy then 1 else 0))%nat ->
  uholders o (<[y := vy']> (<[x := vx']> uvars)) = uholders o uvars.
Proof.
  intros Hx Hy Hne Hsum.
  assert ((<[x := vx']> uvars) !! y = Some vy) as Hy'.
  { by rewrite list_lookup_insert_ne. }
  pose proof (uholders_insert o uvars x vx vx' Hx) as H1.
  pose proof (uholders_insert o (<[x := vx']> uvars) y vy vy' Hy') as H2.
  destruct (uholds o vx), (uholds o vy), (uholds o vx'), (uholds o vy'); lia.
Qed.

Lemma uunowning_None : uunowning None.
Proof. by intros o. Qed.

Lemma uunowning_null (d : DefaultDeleter.t) :
  uunowning (Some {| UniquePtr.data_ := CompressedPair.mk None d |}).
Proof. intros o. by apply uholds_false. Qed.

Lemma deletions_snoc (o : loc) (p : option loc) (l : list (option loc)) :
  deletions o (l ++ [p]) =
  (deletions o l + (if bool_decide (p = Some o) then 1 else 0))%nat.
Proof.
  unfold deletions. rewrite filter_app, length_app. f_equal.
  rewrite filter_cons, filter_nil.
  case_bool_decide; destruct (decide (p = Some o)); done.
Qed.

Lemma not_in_delete_same (a : loc) (A : gset loc) : a ∉ A ∖ {[a]}.
Proof.
  intros [_ Hc]%elem_of_difference. by apply Hc, elem_of_singleton.
Qed.

Lemma in_delete_other (o a : loc) (A : gset loc) :
  o <> a -> o ∈ A ∖ {[a]} <-> o ∈ A.
Proof.
  intros Hne. rewrite elem_of_difference, elem_of_singleton. tauto.
Qed.

Lemma in_new_same (a : loc) (A : gset loc) : a ∈ {[a]} ∪ A.
Proof. apply elem_of_union_l. by apply elem_of_singleton. Qed.

Lemma in_new_other (o a : loc) (A : gset loc) :
  o <> a -> o ∈ {[a]} ∪ A <-> o ∈ A.
Proof.
  intros Hne. rewrite elem_of_union, elem_of_singleton. tauto.
Qed.

Lemma uowned_ext (n : nat) (vars vars' : uframe) (s : UState) :
  uowned n vars s ->
  length vars' = n ->
  (forall o, uholders o vars' = uholders o vars) ->
  uowned n vars' s.
Proof.
  intros [Hn Hall] Hn' Hsame. split; [done|].
  intros o. specialize (Hall o). rewrite Hsame. exact Hall.
Qed.

Lemma uowned_holder (n : nat) (vars : uframe) (s : UState)
      (x : nat) (h : UniquePtr.t) (o : loc) :
  uowned n vars s ->
  vars !! x = Some (Some h) ->
  UniquePtr.Get h = Some o ->
  o ∈ allocated s /\ (o < unext s)%nat /\ uholders o vars = 1%nat.
Proof.
  intros [_ Hall] Hx Ho. specialize (Hall o).
  pose proof (uholders_live o vars x h Hx Ho) as Hpos.
  destruct (decide (o ∈ allocated s)); [tauto | lia].
Qed.

Lemma uowned_null_call (n : nat) (vars : uframe) (s : UState)
      (d : DefaultDeleter.t) :
  uowned n vars s ->
  exists s',
    DefaultDeleter.call d None s = Some (tt, s') /\ uowned n vars s' /\
    allocated s' = allocated s /\ unext s' = unext s /\
    deleter_calls s' = deleter_calls s ++ [None].
Proof.
  intros [Hn Hall]. eexists. split; [reflexivity|].
  split; [|done]. split; [done|]. intros o. specialize (Hall o). simpl.
  rewrite deletions_snoc. rewrite bool_decide_eq_false_2 by done.
  rewrite Nat.add_0_r. exact Hall.
Qed.

Lemma uowned_delete (n : nat) (vars : uframe) (s : UState)
      (x : nat) (h : UniquePtr.t) (v' : option UniquePtr.t)
      (d : DefaultDeleter.t) :
  uowned n vars s ->
  vars !! x = Some (Some h) ->
  uunowning v' ->
  exists s',
    DefaultDeleter.call d (UniquePtr.Get h) s = Some (tt, s') /\
    uowned n (<[x := v']> vars) s' /\
    unext s' = unext s.
Proof.
  intros Hown Hx Hv'. destruct (UniquePtr.Get h) as [a |] eqn:Ha.
  - destruct (uowned_holder n vars s x h a Hown Hx Ha) as (Hin & Hlt & Hone).
    destruct Hown as [Hn Hall].
    unfold DefaultDeleter.call. rewrite decide_True by done.
    eexists. split; [reflexivity|]. split; [|done].
    split; [by rewrite length_insert|]. intros o. specialize (Hall o).
    cbn [allocated unext deleter_calls]. rewrite deletions_snoc.
    destruct (decide (o = a)) as [-> | Hne].
    + rewrite decide_False by apply not_in_delete_same.
      rewrite decide_True in Hall by done.
      rewrite bool_decide_eq_true_2 by done.
      rewrite decide_True by done. split; [|lia].
      pose proof (uholders_insert_release a vars x (Some h) v' Hx) as Hrel.
      rewrite Hrel in Hone; [lia | by apply uholds_true | apply Hv'].
    + rewrite bool_decide_eq_false_2 by congruence. rewrite Nat.add_0_r.
      rewrite (uholders_insert_same o vars x (Some h) v' Hx).
      * destruct (decide (o ∈ allocated s)).
        -- rewrite decide_True by by apply in_delete_other. exact Hall.
        -- rewrite decide_False by by rewrite in_delete_other. exact Hall.
      * rewrite Hv'. apply uholds_false. congruence.
  - destruct (uowned_null_call n vars s d Hown) as (s' & Hc & Hown' & _ & Hnx & _).
    exists s'. split; [done|]. split; [|done].
    apply (uowned_ext n vars); [done | by rewrite length_insert, (proj1 Hown) |].
    intros o. apply uholders_insert_same with (Some h); [done|].
    rewrite Hv'. apply uholds_false. congruence.
Qed.

Lemma uowned_new (n : nat) (vars : uframe) (s : UState)
      (x : nat) (v : option UniquePtr.t) :
  uowned n vars s ->
  vars !! x = Some v ->
  uunowning v ->
  exists s',
    UniquePtr.new_object s = Some (Some (unext s), s') /\
    uowned n (<[x := Some (UniquePtr.ctor_ptr (Some (unext s)))]> vars) s'.
Proof.
  intros [Hn Hall] Hx Hv. eexists. split; [reflexivity|].
  split; [by rewrite length_insert|]. intros o.
  cbn [allocated unext deleter_calls].
  destruct (decide (o = unext s)) as [-> | Hne].
  - rewrite decide_True by apply in_new_same. specialize (Hall (unext s)).
    destruct (decide (unext s ∈ allocated s)); [lia|].
    destruct Hall as [Hz Hd]. rewrite decide_False in Hd by lia.
    split; [lia|]. split; [|done].
    rewrite (uholders_insert_acquire (unext s) vars x v _ Hx); [lia | apply Hv |].
    by apply uholds_true.
  - specialize (Hall o).
    rewrite (uholders_insert_same o vars x v _ Hx).
    + destruct (decide (o ∈ allocated s)).
      * rewrite decide_True by by apply in_new_other. split; [lia | tauto].
      * rewrite decide_False by by rewrite in_new_other. destruct Hall as [Hz Hd].
        split; [done|]. rewrite Hd.
        destruct (decide (o < unext s)%nat), (decide (o < S (unext s))%nat);
          try done; lia.
    + rewrite Hv. symmetry. apply uholds_false.
      unfold UniquePtr.ctor_ptr, UniquePtr.Get. simpl. congruence.
Qed.

Lemma reset_new_commutes (h : UniquePtr.t) (s : UState) :
  UniquePtr.Get h <> Some (unext s) ->
  (let^ p := UniquePtr.new_object in UniquePtr.Reset h p) s =
  (invoke DefaultDeleter.call (UniquePtr.GetDeleter h) (UniquePtr.Get h) then
   let^ p := UniquePtr.new_object in
   uret {| UniquePtr.data_ := CompressedPair.mk p (UniquePtr.GetDeleter h) |}) s.
Proof.
  intros Hne. unfold ubind, UniquePtr.new_object, UniquePtr.Reset, ubind, uret.
  cbn [UniquePtr.GetDeleter UniquePtr.data_ CompressedPair.GetSecond
       CompressedPair.second_].
  destruct (UniquePtr.Get h) as [a |]; [|done].
  unfold DefaultDeleter.call. cbn [allocated unext deleter_calls].
  assert (a <> unext s) as Hne' by congruence.
  destruct (decide (a ∈ allocated s)) as [Hin | Hout].
  - rewrite decide_True by by apply in_new_other.
    cbn [allocated unext deleter_calls]. do 3 f_equal. apply set_eq. intros o.
    rewrite !elem_of_difference, !elem_of_union, !elem_of_difference,
      !elem_of_singleton.
    intuition congruence.
  - by rewrite decide_False by by rewrite in_new_other.
Qed.

Lemma up_step_uowned (n : nat) (op : up_op) (vars : uframe) (s : UState)
      (m : UM uframe) :
  uowned n vars s ->
  up_step op vars = Some m ->
  exists vars' s', m s = Some (vars', s') /\ uowned n vars' s'.
Proof.
  pose proof uunowning_None as UN.
  intros Hown Hstep. pose proof (proj1 Hown) as Hlen.
  destruct op; simpl in Hstep.
  - (* UNewDefault *)
    destruct (udead vars x) eqn:Hd; [|done]. apply udead_true in Hd.
    injection Hstep as <-. eexists _, s. split; [reflexivity|].
    apply (uowned_ext n vars); [done | by rewrite length_insert |].
    intros o. by apply uholders_insert_same with None.
  - (* UNew *)
    destruct (udead vars x) eqn:Hd; [|done]. apply udead_true in Hd.
    injection Hstep as <-.
    destruct (uowned_new n vars s x None Hown Hd UN) as (s' & Hnew & Hown').
    unfold ubind. rewrite Hnew. eexists _, _. split; [reflexivity | done].
  - (* UNewMove *)
    destruct (udead vars x) eqn:Hd; [|done]. apply udead_true in Hd.
    destruct (ulive vars y) as [hy |] eqn:Hy; [|done]. apply ulive_Some in Hy.
    injection Hstep as <-.
    destruct (uowned_null_call n vars s DefaultDeleter.mk Hown)
      as (s' & Hc & Hown' & _).
    unfold UniquePtr.ctor_move, ubind.
    cbn [CompressedPair.ctor_default CompressedPair.GetFirst
         CompressedPair.GetSecond CompressedPair.first_ CompressedPair.second_].
    rewrite Hc. unfold UniquePtr.Release, uret. cbn [fst snd].
    eexists _, _. split; [reflexivity|].
    apply (uowned_ext n vars _ s' Hown'); [by rewrite !length_insert|].
    intros o. apply uholders_insert2 with None (Some hy); try done. congruence.
  - (* UNewFromRelease *)
    destruct (udead vars x) eqn:Hd; [|done]. apply udead_true in Hd.
    destruct (ulive vars y) as [hy |] eqn:Hy; [|done]. apply ulive_Some in Hy.
    injection Hstep as <-. eexists _, s. split; [reflexivity|].
    apply (uowned_ext n vars); [done | by rewrite !length_insert |].
    intros o. apply uholders_insert2 with None (Some hy); try done. congruence.
  - (* UAssignMove *)
    destruct (ulive vars x) as [hx |] eqn:Hx; [|done]. apply ulive_Some in Hx.
    destruct (ulive vars y) as [hy |] eqn:Hy; [|done]. apply ulive_Some in Hy.
    injection Hstep as <-. unfold UniquePtr.operator_assign_move, ubind.
    case_bool_decide as Heq.
    + unfold uret. cbn [fst snd]. eexists _, s. split; [reflexivity|].
      rewrite (list_insert_id vars x (Some hx)) by done.
      by rewrite list_insert_id.
    + assert (x <> y) as Hne by (intros ->; congruence).
      destruct (uowned_delete n vars s x hx
                  (Some {| UniquePtr.data_ :=
                             CompressedPair.mk None (UniquePtr.GetDeleter hx) |})
                  (UniquePtr.GetDeleter hx) Hown Hx (uunowning_null _))
        as (s1 & Hc & Hown1 & _).
      rewrite Hc. unfold UniquePtr.Release, uret. cbn [fst snd].
      eexists _, _. split; [reflexivity|].
      match goal with
      | |- uowned _ (<[y := _]> (<[x := ?a]> vars)) _ =>
          rewrite <- (list_insert_insert_eq vars x a
                        (Some {| UniquePtr.data_ :=
                                   CompressedPair.mk None
                                     (UniquePtr.GetDeleter hx) |}))
      end.
      apply (uowned_ext n _ _ s1 Hown1); [by rewrite !length_insert|].
      intros o.
      apply uholders_insert2 with
        (Some {| UniquePtr.data_ :=
                   CompressedPair.mk None (UniquePtr.GetDeleter hx) |})
        (Some hy); try done.
      * apply list_lookup_insert_eq. by apply lookup_lt_Some in Hx.
      * by rewrite list_lookup_insert_ne.
  - (* UAssignNull *)
    destruct (ulive vars x) as [hx |] eqn:Hx; [|done]. apply ulive_Some in Hx.
    injection Hstep as <-. unfold UniquePtr.operator_assign_nullptr, ubind.
    destruct (uowned_delete n vars s x hx
                (Some {| UniquePtr.data_ :=
                           CompressedPair.mk None (UniquePtr.GetDeleter hx) |})
                (UniquePtr.GetDeleter hx) Hown Hx (uunowning_null _))
      as (s1 & Hc & Hown1 & _).
    rewrite Hc. unfold uret. eexists _, _. split; [reflexivity | done].
  - (* UReset *)
    destruct (ulive vars x) as [hx |] eqn:Hx; [|done]. apply ulive_Some in Hx.
    injection Hstep as <-. unfold UniquePtr.Reset, ubind.
    cbn [UniquePtr.GetDeleter UniquePtr.data_ CompressedPair.GetSecond
         CompressedPair.second_].
    destruct (uowned_delete n vars s x hx
                (Some {| UniquePtr.data_ :=
                           CompressedPair.mk None
                             (UniquePtr.GetDeleter hx) |})
                (UniquePtr.GetDeleter hx) Hown Hx
                (uunowning_null _))
      as (s1 & Hc & Hown1 & _).
    rewrite Hc. unfold uret. eexists _, _. split; [reflexivity | done].
  - (* UResetNew *)
    destruct (ulive vars x) as [hx |] eqn:Hx; [|done]. apply ulive_Some in Hx.
    injection Hstep as <-. unfold ubind at 1.
    rewrite reset_new_commutes.
    + destruct (uowned_delete n vars s x hx
                  (Some {| UniquePtr.data_ :=
                             CompressedPair.mk None (UniquePtr.GetDeleter hx) |})
                  (UniquePtr.GetDeleter hx) Hown Hx (uunowning_null _))
        as (s1 & Hc & Hown1 & Hnx).
      assert ((<[x := Some {| UniquePtr.data_ :=
                            CompressedPair.mk None (UniquePtr.GetDeleter hx) |}]>
                 vars) !! x =
              Some (Some {| UniquePtr.data_ :=
                              CompressedPair.mk None (UniquePtr.GetDeleter hx) |}))
        as Hx1.
      { apply list_lookup_insert_eq. by apply lookup_lt_Some in Hx. }
      destruct (uowned_new n _ s1 x _ Hown1 Hx1 (uunowning_null _))
        as (s2 & Hnew & Hown2).
      unfold ubind. rewrite Hc, Hnew. unfold uret.
      rewrite list_insert_insert_eq in Hown2.
      eexists _, _. split; [reflexivity|].
      destruct hx as [[p []]]. exact Hown2.
    + intros Hc.
      destruct (uowned_holder n vars s x hx (unext s) Hown Hx Hc) as (_ & Hlt & _).
      lia.
  - (* UResetRelease *)
    destruct (ulive vars x) as [hx |] eqn:Hx; [|done]. apply ulive_Some in Hx.
    destruct (ulive vars y) as [hy |] eqn:Hy; [|done]. apply ulive_Some in Hy.
    injection Hstep as <-. unfold UniquePtr.Reset, ubind.
    destruct (Nat.eqb_spec x y) as [-> | Hne].
    + assert (hy = hx) as -> by congruence.
      destruct (uowned_null_call n vars s (UniquePtr.GetDeleter hx) Hown)
        as (s' & Hc & Hown' & _).
      cbn [UniquePtr.GetDeleter UniquePtr.Get UniquePtr.data_
           CompressedPair.GetFirst CompressedPair.GetSecond
           CompressedPair.first_ CompressedPair.second_] in *.
      rewrite Hc. unfold uret. eexists _, _. split; [reflexivity|].
      rewrite list_insert_insert_eq.
      apply (uowned_ext n vars _ s' Hown'); [by rewrite length_insert|].
      intros o. by apply uholders_insert_same with (Some hx).
    + cbn [UniquePtr.GetDeleter UniquePtr.data_ CompressedPair.GetSecond
           CompressedPair.second_].
      destruct (uowned_delete n vars s x hx
                  (Some {| UniquePtr.data_ :=
                             CompressedPair.mk None
                               (UniquePtr.GetDeleter hx) |})
                  (UniquePtr.GetDeleter hx) Hown Hx
                  (uunowning_null _))
        as (s1 & Hc & Hown1 & _).
      rewrite Hc. unfold uret. eexists _, _. split; [reflexivity|].
      rewrite (list_insert_insert_ne vars x y) by done.
      match goal with
      | |- uowned _ (<[y := _]> (<[x := ?a]> vars)) _ =>
          rewrite <- (list_insert_insert_eq vars x a
                        (Some {| UniquePtr.data_ :=
                                   CompressedPair.mk None
                                     (UniquePtr.GetDeleter hx) |}))
      end.
      apply (uowned_ext n _ _ s1 Hown1); [by rewrite !length_insert|].
      intros o.
      apply uholders_insert2 with
        (Some {| UniquePtr.data_ :=
                   CompressedPair.mk None
                     (UniquePtr.GetDeleter hx) |})
        (Some hy); try done.
      * apply list_lookup_insert_eq. by apply lookup_lt_Some in Hx.
      * by rewrite list_lookup_insert_ne.
  - (* USwap *)
    destruct (ulive vars x) as [hx |] eqn:Hx; [|done]. apply ulive_Some in Hx.
    destruct (ulive vars y) as [hy |] eqn:Hy; [|done]. apply ulive_Some in Hy.
    injection Hstep as <-. eexists _, s. split; [reflexivity|].
    apply (uowned_ext n vars); [done | by rewrite !length_insert |].
    intros o. destruct (decide (x = y)) as [-> | Hne].
    + rewrite list_insert_insert_eq. assert (hy = hx) as -> by congruence.
      by apply uholders_insert_same with (Some hx).
    + apply uholders_insert2 with (Some hx) (Some hy); try done.
      destruct hx, hy. simpl. lia.
  - (* UDestroy *)
    destruct (ulive vars x) as [hx |] eqn:Hx; [|done]. apply ulive_Some in Hx.
    injection Hstep as <-. unfold UniquePtr.dtor, ubind.
    destruct (uowned_delete n vars s x hx None (UniquePtr.GetDeleter hx)
                Hown Hx UN) as (s1 & Hc & Hown1 & _).
    rewrite Hc. unfold uret. eexists _, _. split; [reflexivity | done].
Qed.

Lemma uexec_uowned (n : nat) (ops : list up_op) (vars : uframe) (s : UState) :
  uowned n vars s ->
  uexec ops vars s <> URejected ->
  exists vars' s', uexec ops vars s = UFinished vars' s' /\ uowned n vars' s'.
Proof.
  revert vars s. induction ops as [| op ops IH]; intros vars s Hown Hsc.
  - by exists vars, s.
  - simpl in *. destruct (up_step op vars) as [m |] eqn:Hstep; [|done].
    destruct (up_step_uowned n op vars s m Hown Hstep) as (vars1 & s1 & Hm & Hown1).
    rewrite Hm in *. by apply IH.
Qed.

Lemma uexec_prefix (pre post : list up_op) (vars : uframe) (s : UState) :
  uexec (pre ++ post) vars s <> URejected ->
  uexec pre vars s <> URejected.
Proof.
  revert vars s. induction pre as [| op pre IH]; intros vars s H; [done|].
  simpl in *. destruct (up_step op vars) as [m |]; [|done].
  destruct (m s) as [[vars1 s1] |]; [by apply IH | done].
Qed.

Lemma uowned_start (n : nat) : uowned n (no_uvars n) ustart.
Proof.
  split; [apply length_replicate|]. intros o.
  unfold ustart, no_uvars. cbn [allocated unext deleter_calls].
  destruct (decide (o ∈ (∅ : gset loc))) as [Hin | _].
  { by apply not_elem_of_empty in Hin. }
  rewrite uholders_replicate_None. split; [done|].
  by destruct (decide (o < 0)%nat); [lia|].
Qed.

(** X12.  A program with [n] [UniquePtr] variables runs any sequence of
    constructions (default, from [new], by move, from another handle's
    [Release()]), move assignments, [= nullptr], [Reset()], [Reset(new T)],
    [Reset(y.Release())], [Swap]s and destructions that uses each variable
    within its lifetime.  After any number [k] of operations the run has
    returned without deleting an object that is not allocated; no object
    is held by two handles; an object made so far is allocated exactly if
    a handle holds it, and has been passed to the deleter exactly once if
    none does and never otherwise. *)
Theorem unique_program_owns (n : nat) (ops : list up_op) (k : nat) :
  uexec ops (no_uvars n) ustart <> URejected ->
  exists vars s,
    uexec (take k ops) (no_uvars n) ustart = UFinished vars s /\
    (forall o, (uholders o vars <= 1)%nat) /\
    (forall o, (o < unext s)%nat ->
               ((o ∈ allocated s) <-> uholders o vars = 1%nat) /\
               deletions o (deleter_calls s) =
                 (if Nat.eqb (uholders o vars) 0 then 1%nat else 0%nat)) /\
    (forall o, (unext s <= o)%nat ->
               (o ∉ allocated s) /\ uholders o vars = O /\
               deletions o (deleter_calls s) = O).
Proof.
  intros Hsc.
  rewrite <- (take_drop k ops) in Hsc. apply uexec_prefix in Hsc.
  destruct (uexec_uowned n (take k ops) _ _ (uowned_start n) Hsc)
    as (vars & s & Hrun & [_ Hall]).
  exists vars, s. split; [done|]. split; [|split].
  - intros o. specialize (Hall o).
    destruct (decide (o ∈ allocated s)); lia.
  - intros o Hlt. specialize (Hall o).
    destruct (decide (o ∈ allocated s)) as [Hin | Hout].
    + destruct Hall as (_ & -> & ->). by split.
    + destruct Hall as [-> ->]. rewrite decide_True by done.
      split; [|done]. split; [done | lia].
  - intros o Hge. specialize (Hall o).
    destruct (decide (o ∈ allocated s)) as [Hin | Hout]; [lia|].
    destruct Hall as [-> ->]. by rewrite decide_False by lia.
Qed.

Lemma unique_program_owns_witness :
  exists vars s,
    uexec (take 5 [UNew 0; UNewMove 1 0; UResetNew 0; UAssignMove 0 1;
                   UResetRelease 1 0; USwap 0 1; UDestroy 0; UDestroy 1])
          (no_uvars 2) ustart = UFinished vars s /\
    (forall o, (uholders o vars <= 1)%nat) /\
    (forall o, (o < unext s)%nat ->
               ((o ∈ allocated s) <-> uholders o vars = 1%nat) /\
               deletions o (deleter_calls s) =
                 (if Nat.eqb (uholders o vars) 0 then 1%nat else 0%nat)) /\
    (forall o, (unext s <= o)%nat ->
               (o ∉ allocated s) /\ uholders o vars = O /\
               deletions o (deleter_calls s) = O).
Proof.
  apply (unique_program_owns 2
           [UNew 0; UNewMove 1 0; UResetNew 0; UAssignMove 0 1;
            UResetRelease 1 0; USwap 0 1; UDestroy 0; UDestroy 1] 5).
  vm_compute. discriminate.
Defined.

(** X13.  [p.Reset(p.Get())] on a handle that holds an object: the object
    is deleted and the handle keeps pointing to it, so that destroying the
    handle afterwards deletes the object a second time, which is
    undefined. *)
Theorem unique_reset_to_self (h : UniquePtr.t) (s : UState) (a : loc) :
  UniquePtr.Get h = Some a ->
  a ∈ allocated s ->
  exists s',
    UniquePtr.Reset h (UniquePtr.Get h) s = Some (h, s') /\
    (a ∉ allocated s') /\
    deleter_calls s' = deleter_calls s ++ [Some a] /\
    UniquePtr.dtor h s' = None.
Proof.
  intros Ha Hin. destruct h as [[p d]].
  unfold UniquePtr.Get in Ha. simpl in Ha. subst p.
  unfold UniquePtr.Reset, UniquePtr.dtor, ubind, uret, DefaultDeleter.call.
  cbn [UniquePtr.Get UniquePtr.GetDeleter UniquePtr.data_
       CompressedPair.GetFirst CompressedPair.GetSecond
       CompressedPair.first_ CompressedPair.second_].
  rewrite decide_True by done. eexists. split; [reflexivity|].
  cbn [allocated deleter_calls]. split; [apply not_in_delete_same|].
  split; [done|]. by rewrite decide_False by apply not_in_delete_same.
Qed.

Lemma unique_reset_to_self_witness :
  exists s',
    UniquePtr.Reset (UniquePtr.ctor_ptr (Some O)) (Some O)
      {| allocated := {[O]}; unext := 1%nat; deleter_calls := [] |} =
      Some (UniquePtr.ctor_ptr (Some O), s') /\
    (O ∉ allocated s') /\
    deleter_calls s' = [Some O] /\
    UniquePtr.dtor (UniquePtr.ctor_ptr (Some O)) s' = None.
Proof.
  apply (unique_reset_to_self (UniquePtr.ctor_ptr (Some O))
           {| allocated := {[O]}; unext := 1%nat; deleter_calls := [] |} O).
  - reflexivity.
  - vm_compute. reflexivity.
Defined.

(** X14.  Moving a handle out and back: [UniquePtr<T> b(std::move(a));
    a = std::move(b);].  The move constructor calls the deleter of its
    default-constructed pair on the null pointer before taking [a] over;
    the move assignment does the same on the emptied [a], unless [a] was
    empty from the start, in which case both pointers are null and the
    assignment returns at once.  Afterwards [a] holds its object again,
    [b] is empty, and the objects are as they were. *)
Theorem unique_move_round_trip (a : UniquePtr.t) (s : UState) :
  exists b a1 s1 a2 b2 s2,
    UniquePtr.ctor_move a s = Some ((b, a1), s1) /\
    UniquePtr.Get b = UniquePtr.Get a /\
    UniquePtr.Get a1 = None /\
    UniquePtr.operator_assign_move a1 b s1 = Some ((a2, b2), s2) /\
    UniquePtr.Get a2 = UniquePtr.Get a /\
    UniquePtr.Get b2 = None /\
    allocated s2 = allocated s /\
    unext s2 = unext s /\
    deleter_calls s2 =
      deleter_calls s ++
      (if UniquePtr.operator_bool a then [None; None] else [None]).
Proof.
  destruct a as [[p d]].
  unfold UniquePtr.ctor_move, UniquePtr.operator_assign_move,
    UniquePtr.operator_bool, UniquePtr.Release, ubind, uret.
  cbn [UniquePtr.Get UniquePtr.GetDeleter UniquePtr.data_
       CompressedPair.ctor_default
       CompressedPair.GetFirst CompressedPair.GetSecond
       CompressedPair.first_ CompressedPair.second_ DefaultDeleter.call].
  destruct p as [o |].
  - eexists _, _, _, _, _, _. split; [reflexivity|].
    cbn [UniquePtr.Get UniquePtr.GetDeleter UniquePtr.data_
         CompressedPair.GetFirst CompressedPair.GetSecond
         CompressedPair.first_ CompressedPair.second_].
    do 2 (split; [reflexivity|]).
    rewrite bool_decide_eq_false_2 by done.
    cbn [DefaultDeleter.call allocated unext deleter_calls].
    split; [reflexivity|].
    cbn [UniquePtr.Get UniquePtr.data_ CompressedPair.GetFirst
         CompressedPair.first_ allocated unext deleter_calls].
    do 4 (split; [reflexivity|]). by rewrite <- app_assoc.
  - eexists _, _, _, _, _, _. split; [reflexivity|].
    cbn [UniquePtr.Get UniquePtr.GetDeleter UniquePtr.data_
         CompressedPair.GetFirst CompressedPair.GetSecond
         CompressedPair.first_ CompressedPair.second_].
    do 2 (split; [reflexivity|]).
    rewrite bool_decide_eq_true_2 by done.
    split; [reflexivity|].
    cbn [UniquePtr.Get UniquePtr.data_ CompressedPair.GetFirst
         CompressedPair.first_ allocated unext deleter_calls].
    do 4 (split; [reflexivity|]). reflexivity.
Qed.

(** X15.  For any two component types exactly one of the four
    [CompressedPair] specialisations is enabled: no [CompressedPair<F, S>]
    is ambiguous, and none is left without a definition.  ([compressed<F>]
    and [compressed<S>] agree when [F] and [S] are the same type.) *)
Theorem compressed_pair_selection (cF cS same : bool) :
  (same = true -> cF = cS) ->
  exists w,
    CompressedPair.enabled w cF cS same = true /\
    forall w', CompressedPair.enabled w' cF cS same = true -> w' = w.
Proof.
  intros Hsame.
  destruct cF, cS, same; try (specialize (Hsame eq_refl); discriminate).
  all: first
    [ exists CompressedPair.BothBases; split; [reflexivity|];
      by intros [] Hw
    | exists CompressedPair.SecondBase; split; [reflexivity|];
      by intros [] Hw
    | exists CompressedPair.FirstBase; split; [reflexivity|];
      by intros [] Hw
    | exists CompressedPair.Members; split; [reflexivity|];
      by intros [] Hw ].
Qed.

Lemma compressed_pair_selection_witness :
  exists w,
    CompressedPair.enabled w false (CompressedPair.compressed false true) false
      = true /\
    forall w',
      CompressedPair.enabled w' false (CompressedPair.compressed false true)
        false = true -> w' = w.
Proof.
  apply (compressed_pair_selection false
           (CompressedPair.compressed false true) false).
  discriminate.
Defined.

Lemma agree_ret {A : Type} (a : A) : agree (ret a) (sret a).
Proof. by intros s. Qed.

Lemma agree_bind {A B : Type} (m : M A) (sm : SM A)
      (k : A -> M B) (sk : A -> SM B) :
  agree m sm ->
  (forall a, agree (k a) (sk a)) ->
  agree (bind m k) (sbind sm sk).
Proof.
  intros Hm Hk s. unfold bind, sbind. rewrite Hm.
  destruct (sm s) as [[a s'] |]; [apply Hk | done].
Qed.

Lemma agree_new_block (b : SimpleControlBlock) :
  agree (new_block (with_weak b)) (simple_new_block b).
Proof.
  intros s. unfold new_block, simple_new_block, two_counters. simpl.
  by rewrite fmap_insert.
Qed.

Lemma agree_call (inc : bool) (c : loc) :
  agree (call c (cb_call (strong_call inc))) (simple_method c (simple_call inc)).
Proof.
  intros s. unfold call, simple_method, two_counters. simpl.
  rewrite lookup_fmap. destruct (sheap s !! c) as [b |]; [|done]. simpl.
  rewrite simple_call_with_weak.
  destruct (simple_call inc b) as [b' es]. simpl.
  destruct (existsb is_delete_this es).
  - by rewrite fmap_delete.
  - by rewrite fmap_insert.
Qed.

Lemma agree_read {A : Type} (c : loc)
      (f : ControlBlock -> A) (g : SimpleControlBlock -> A) :
  (forall b, f (with_weak b) = g b) ->
  agree (read c f) (simple_read c g).
Proof.
  intros Hfg s. unfold read, simple_read, two_counters. simpl.
  rewrite lookup_fmap. destruct (sheap s !! c) as [b |]; [|done]. simpl.
  by rewrite Hfg.
Qed.

Lemma with_weak_counter (b : SimpleControlBlock) :
  GetSharedCounter (with_weak b) = GetCounter b.
Proof. by destruct b as [[n p] | [n]]. Qed.

Lemma with_weak_pointer (this : loc) (b : SimpleControlBlock) :
  GetPointer this (with_weak b) = SimpleGetPointer this b.
Proof. by destruct b as [[n p] | [n]]. Qed.

Lemma with_weak_no_weak (b : SimpleControlBlock) : weak_counter (with_weak b) = 0.
Proof. by destruct b as [[n p] | [n]]. Qed.

Lemma agree_Increase (h : SharedPtr.t) :
  agree (SharedPtr.IncreaseCBCounter h) (SimpleSharedPtr.IncreaseCBCounter h).
Proof.
  unfold SharedPtr.IncreaseCBCounter, SimpleSharedPtr.IncreaseCBCounter.
  destruct (SharedPtr.cb_ h) as [c |]; [apply (agree_call true) | apply agree_ret].
Qed.

Lemma agree_Decrease (h : SharedPtr.t) :
  agree (SharedPtr.DecreaseCBCounter h) (SimpleSharedPtr.DecreaseCBCounter h).
Proof.
  unfold SharedPtr.DecreaseCBCounter, SimpleSharedPtr.DecreaseCBCounter.
  destruct (SharedPtr.cb_ h) as [c |]; [apply (agree_call false) | apply agree_ret].
Qed.

Lemma agree_UseCount (h : SharedPtr.t) :
  agree (SharedPtr.UseCount h) (SimpleSharedPtr.UseCount h).
Proof.
  unfold SharedPtr.UseCount, SimpleSharedPtr.UseCount,
    SharedPtr.GetCBCounter, SimpleSharedPtr.GetCBCounter.
  destruct (SharedPtr.cb_ h) as [c |]; [|apply agree_ret].
  apply agree_read, with_weak_counter.
Qed.

Lemma agree_ctor_ptr (p : ptr) :
  agree (SharedPtr.ctor_ptr p) (SimpleSharedPtr.ctor_ptr p).
Proof.
  apply agree_bind; [|intros c; apply agree_ret].
  apply (agree_new_block (SimpleSeparate (SimpleControlBlockPointer.ctor p))).
Qed.

Lemma agree_MakeShared : agree SharedPtr.MakeShared SimpleSharedPtr.MakeShared.
Proof.
  apply agree_bind.
  - apply (agree_new_block (SimpleCombined SimpleControlBlockObject.ctor)).
  - intros c. apply agree_bind; [|intros p; apply agree_ret].
    apply agree_read. intros b. apply with_weak_pointer.
Qed.

Lemma agree_ctor_copy (h : SharedPtr.t) :
  agree (SharedPtr.ctor_copy h) (SimpleSharedPtr.ctor_copy h).
Proof.
  apply agree_bind; [apply agree_Increase | intros _; apply agree_ret].
Qed.

Lemma agree_ctor_alias (h : SharedPtr.t) (p : ptr) :
  agree (SharedPtr.ctor_alias h p) (SimpleSharedPtr.ctor_alias h p).
Proof.
  apply agree_bind; [apply agree_Increase | intros _; apply agree_ret].
Qed.

Lemma agree_operator_assign (x y : nat) (hx hy : SharedPtr.t) :
  agree (SharedPtr.operator_assign x y hx hy)
        (SimpleSharedPtr.operator_assign x y hx hy).
Proof.
  unfold SharedPtr.operator_assign, SimpleSharedPtr.operator_assign.
  destruct (Nat.eqb x y); [apply agree_ret|].
  apply agree_bind; [apply agree_Decrease | intros _].
  apply agree_bind; [apply agree_Increase | intros _; apply agree_ret].
Qed.

Lemma agree_operator_assign_move (x y : nat) (hx hy : SharedPtr.t) :
  agree (SharedPtr.operator_assign_move x y hx hy)
        (SimpleSharedPtr.operator_assign_move x y hx hy).
Proof.
  unfold SharedPtr.operator_assign_move, SimpleSharedPtr.operator_assign_move.
  destruct (Nat.eqb x y); [apply agree_ret|].
  apply agree_bind; [apply agree_Decrease | intros _; apply agree_ret].
Qed.

Lemma agree_Reset (h : SharedPtr.t) :
  agree (SharedPtr.Reset h) (SimpleSharedPtr.Reset h).
Proof.
  apply agree_bind; [apply agree_Decrease | intros _; apply agree_ret].
Qed.

Lemma agree_Reset_ptr (h : SharedPtr.t) (p : ptr) :
  agree (SharedPtr.Reset_ptr h p) (SimpleSharedPtr.Reset_ptr h p).
Proof.
  apply agree_bind; [apply agree_Decrease | intros _].
  apply agree_ctor_ptr.
Qed.

(** One operation of a program, on both kinds of blocks. *)
Lemma simple_step_agrees (op : so_op) (vars : frame) :
  match mp_step (as_mixed op) vars [], simple_step op vars with
  | Some m, Some sm => agree m (let~ v := sm in sret (v, []))
  | None, None => True
  | _, _ => False
  end.
Proof.
  assert (forall (A : Type) (m : M A) (sm : SM A) (f : A -> frame),
             agree m sm ->
             agree (let* a := m in ret (f a, []))
                   (let~ v := (let~ a := sm in sret (f a)) in
                    sret (v, @nil (option WeakPtr.t)))) as Hwrap.
  { intros A m sm f Hm s. unfold bind, sbind, ret, sret. rewrite Hm.
    by destruct (sm s) as [[a s'] |]. }
  assert (forall (A : Type) (m : M A) (sm : SM A) (f : A -> frame),
             agree m sm ->
             agree (let* vars' := (let* a := m in ret (f a)) in ret (vars', []))
                   (let~ v := (let~ a := sm in sret (f a)) in
                    sret (v, @nil (option WeakPtr.t)))) as Hwrap2.
  { intros A m sm f Hm s. unfold bind, sbind, ret, sret. rewrite Hm.
    by destruct (sm s) as [[a s'] |]. }
  destruct op as [[x | x p | x | x y | x y | x y | x y | x | x p | x]
                 | x y p | x y]; simpl.
  - by destruct (dead vars x).
  - destruct (dead vars x); [|done]. apply Hwrap2, agree_ctor_ptr.
  - destruct (dead vars x); [|done]. apply Hwrap2, agree_MakeShared.
  - destruct (dead vars x), (live vars y) as [hy |]; try done.
    apply Hwrap2, agree_ctor_copy.
  - by destruct (dead vars x), (live vars y) as [hy |].
  - destruct (live vars x) as [hx |], (live vars y) as [hy |]; try done.
    apply Hwrap2, agree_operator_assign.
  - destruct (live vars x) as [hx |], (live vars y) as [hy |]; try done.
    apply (Hwrap2 _ _ _ (fun r => <[y := Some (snd r)]> (<[x := Some (fst r)]> vars))),
      agree_operator_assign_move.
  - destruct (live vars x) as [hx |]; [|done]. apply Hwrap2, agree_Reset.
  - destruct (live vars x) as [hx |]; [|done]. apply Hwrap2, agree_Reset_ptr.
  - destruct (live vars x) as [hx |]; [|done].
    apply (Hwrap2 _ _ _ (fun _ => <[x := None]> vars)), agree_Decrease.
  - destruct (dead vars x), (live vars y) as [hy |]; try done.
    apply (Hwrap _ _ _ (fun h => <[x := Some h]> vars)), agree_ctor_alias.
  - by destruct (live vars x) as [hx |], (live vars y) as [hy |].
Qed.

Lemma simple_exec_agrees (ops : list so_op) (vars : frame) (s : SimpleState) :
  mexec (map as_mixed ops) vars [] (two_counters s) =
  match simple_exec ops vars s with
  | SFinished vars' s' => MFinished vars' [] (two_counters s')
  | SFaulted => MFaulted
  | SRejected => MRejected
  end.
Proof.
  revert vars s. induction ops as [| op ops IH]; intros vars s; [done|].
  simpl. pose proof (simple_step_agrees op vars) as Hstep.
  destruct (mp_step (as_mixed op) vars []) as [m |],
           (simple_step op vars) as [sm |]; try done.
  rewrite Hstep. unfold sbind, sret.
  destruct (sm s) as [[vars' s'] |]; [apply IH | done].
Qed.

(** X16.  The [SharedPtr] of shared/shared.h, on its blocks with one
    counter, does what the [SharedPtr] of shared-from-this/shared.h does on
    blocks without weak references: any program of constructions, copies,
    moves, aliasing, assignments, [Reset]s, [Swap]s and destructions gives
    the same handles, the same blocks and the same releases in both, is
    undefined in both or in neither, and [UseCount()] returns the same
    number in corresponding states. *)
Theorem simple_shared_ptr_simulation
        (ops : list so_op) (vars : frame) (s : SimpleState) (h : SharedPtr.t) :
  mexec (map as_mixed ops) vars [] (two_counters s) =
    match simple_exec ops vars s with
    | SFinished vars' s' => MFinished vars' [] (two_counters s')
    | SFaulted => MFaulted
    | SRejected => MRejected
    end /\
  SharedPtr.UseCount h (two_counters s) =
    match SimpleSharedPtr.UseCount h s with
    | Some (k, s') => Ok k (two_counters s')
    | None => Undefined
    end.
Proof.
  split; [apply simple_exec_agrees | apply agree_UseCount].
Qed.

(** X17.  A program over [n] [SharedPtr] variables of shared/shared.h that
    uses every variable within its lifetime: after any number [k] of
    operations the run has returned without touching a deallocated block;
    [UseCount()] of every handle with a block is the number of live handles
    on that block; a block is allocated exactly if a handle is on it, and a
    block without handle has released its payload exactly once and has been
    deallocated exactly once. *)
Theorem simple_program_counts (n : nat) (ops : list so_op) (k : nat) :
  Z.of_nat n <= SIZE_MAX ->
  simple_exec ops (no_vars n) simple_start <> SRejected ->
  exists vars s,
    simple_exec (take k ops) (no_vars n) simple_start = SFinished vars s /\
    (forall x h c,
        live vars x = Some h ->
        SharedPtr.cb_ h = Some c ->
        SimpleSharedPtr.UseCount h s = Some (Z.of_nat (owners c vars), s)) /\
    (forall c, (c < snext s)%nat ->
               (is_Some (sheap s !! c) <-> (0 < owners c vars)%nat) /\
               payload_releases (events_of c (slog s)) =
                 (if Nat.eqb (owners c vars) 0 then 1%nat else 0%nat) /\
               block_frees (events_of c (slog s)) =
                 (if Nat.eqb (owners c vars) 0 then 1%nat else 0%nat)) /\
    (forall c, (snext s <= c)%nat ->
               sheap s !! c = None /\ events_of c (slog s) = []).
Proof.
  intros Hn Hsc.
  assert (two_counters simple_start = start) as Hstart.
  { unfold two_counters, simple_start, start. simpl. by rewrite fmap_empty. }
  assert (mexec (map as_mixed ops) (no_vars n) (no_wvars 0) start <> MRejected)
    as Hsc'.
  { rewrite <- Hstart. change (no_wvars 0) with (@nil (option WeakPtr.t)).
    rewrite simple_exec_agrees.
    by destruct (simple_exec ops (no_vars n) simple_start). }
  destruct (mexec_take_balanced n 0 (map as_mixed ops) k Hn) with (2 := Hsc')
    as (vars & wvars & s2 & Hrun & Hbal).
  { unfold SIZE_MAX. lia. }
  rewrite firstn_map, <- Hstart in Hrun.
  change (no_wvars 0) with (@nil (option WeakPtr.t)) in Hrun.
  rewrite simple_exec_agrees in Hrun.
  destruct (simple_exec (take k ops) (no_vars n) simple_start)
    as [vars' s | |]; try done.
  injection Hrun as -> <- <-. exists vars, s. split; [done|].
  destruct Hbal as (_ & _ & _ & _ & Hnext & Hall).
  assert (forall c, heap (two_counters s) !! c = with_weak <$> (sheap s !! c))
    as Hlook by (intros c; apply lookup_fmap).
  split; [|split].
  - intros x h c Hx Hc. apply live_Some in Hx.
    pose proof (owners_live c vars x h Hx Hc) as Hpos.
    specialize (Hall c). rewrite Hlook in Hall.
    unfold SimpleSharedPtr.UseCount, SimpleSharedPtr.GetCBCounter, simple_read.
    rewrite Hc. destruct (sheap s !! c) as [b |]; simpl in Hall.
    + destruct Hall as (Hcount & _). rewrite with_weak_counter in Hcount.
      by rewrite Hcount.
    + lia.
  - intros c Hlt. specialize (Hall c). rewrite Hlook in Hall.
    destruct (sheap s !! c) as [b |]; simpl in Hall.
    + destruct Hall as (_ & _ & Hpos & Hfree & Hrel). simpl in Hpos.
      rewrite Nat.add_0_r in Hpos.
      destruct (Nat.eqb_spec (owners c vars) 0); [lia|].
      split; [|done]. split; eauto.
    + destruct Hall as (Hz & _ & Hlog). destruct (Hlog Hlt) as [Hfree Hrel].
      rewrite Hz. simpl. split; [|done]. split; [by intros [? ?] | lia].
  - intros c Hge. destruct (Hnext c Hge) as [Hnone Hev]. split; [|done].
    rewrite Hlook in Hnone. by destruct (sheap s !! c).
Qed.

Lemma simple_program_counts_witness :
  exists vars s,
    simple_exec (take 4 [SPlain (NewMakeShared 0); SAliasOf 1 0 (Some (Ext 7));
                         SPlain (NewFromPtr 2 (Some (Ext 3)));
                         SPlain (Destroy 0); SSwapWith 1 2;
                         SPlain (Assign 1 2); SPlain (Destroy 1);
                         SPlain (Destroy 2)])
                (no_vars 3) simple_start = SFinished vars s /\
    (forall x h c,
        live vars x = Some h ->
        SharedPtr.cb_ h = Some c ->
        SimpleSharedPtr.UseCount h s = Some (Z.of_nat (owners c vars), s)) /\
    (forall c, (c < snext s)%nat ->
               (is_Some (sheap s !! c) <-> (0 < owners c vars)%nat) /\
               payload_releases (events_of c (slog s)) =
                 (if Nat.eqb (owners c vars) 0 then 1%nat else 0%nat) /\
               block_frees (events_of c (slog s)) =
                 (if Nat.eqb (owners c vars) 0 then 1%nat else 0%nat)) /\
    (forall c, (snext s <= c)%nat ->
               sheap s !! c = None /\ events_of c (slog s) = []).
Proof.
  apply (simple_program_counts 3
           [SPlain (NewMakeShared 0); SAliasOf 1 0 (Some (Ext 7));
            SPlain (NewFromPtr 2 (Some (Ext 3)));
            SPlain (Destroy 0); SSwapWith 1 2;
            SPlain (Assign 1 2); SPlain (Destroy 1);
            SPlain (Destroy 2)] 4).
  - unfold SIZE_MAX. lia.
  - vm_compute. discriminate.
Defined.
